(** * Console Samurai: capture, transport and correlation engine

    A shallow embedding of the runtime clients (the Node client and the
    browser client, which share their transport and serializer code) and of
    the host extension (log store, inline annotation state and transport
    server), with the properties of the specification stated and settled
    against the code, followed by further properties of the code.

    - [Serializer]: [serializeValue] and [serializeValues] of both clients.
    - [Client]: the transport state machine ([start], [stop], [connect],
      [retryConnect], [send], [flushQueue]), the patched capture points
      (console methods, console timers, [fetch], [XMLHttpRequest]) and
      [extractLocation].
    - [Extension]: [addLogEntry], [trimLogs], [clearLogs], [openEntry],
      [updateInlineForEntry], [refreshInlineForEditor], [formatInlineText],
      [buildHover], [escapeMarkdown], path resolution, the transport server
      with its sessions and status bar, and the configuration sent to the
      clients.
    - [Wire]: a payload of a client as the host parses it. *)

From Stdlib Require Import ZArith String List Sorted Lia.
From stdpp Require Import base gmap strings list sorting pretty.

Set Warnings "-register-all".
Open Scope Z_scope.

(** ** JavaScript helpers shared by the three modules *)

(** [s.length] as a JavaScript number. *)
Definition str_len (s : string) : Z := Z.of_nat (String.length s).

(** [s.slice(0, e)]: a negative end index counts from the end of the
    string, and the end index is clamped to the range [0 .. s.length]. *)
Definition slice0 (s : string) (e : Z) : string :=
  let stop := if e <? 0 then Z.max (str_len s + e) 0 else Z.min e (str_len s) in
  String.substring 0 (Z.to_nat stop) s.

(** Decimal rendering of an integer inside a template literal. *)
Definition num_str (z : Z) : string := pretty z.

(** [s || dflt] on strings: the empty string is falsy. *)
Definition str_or (s dflt : string) : string :=
  if String.eqb s "" then dflt else s.

(** [s.toLowerCase()], on the ASCII letters. *)
Definition lower_char (c : Ascii.ascii) : Ascii.ascii :=
  let n := Ascii.nat_of_ascii c in
  if ((65 <=? n) && (n <=? 90))%nat then Ascii.ascii_of_nat (n + 32) else c.

Fixpoint toLowerCase (s : string) : string :=
  match s with
  | EmptyString => EmptyString
  | String c rest => String (lower_char c) (toLowerCase rest)
  end.

(** ** The value serializer (both clients) *)

Module Serializer.

Definition addr := nat.

(** Runtime values. Primitives are compared by content, objects by identity:
    an object is a reference into the heap. Functions are handled by
    [typeof] before any identity test, so only their name is kept. Numbers
    are returned as they are, whatever their value, so integers stand for
    them. *)
Inductive Value : Type :=
| VNull
| VUndefined
| VNumber (n : Z)
| VBoolean (b : bool)
| VBigInt (n : Z)
| VSymbol (description : string)
| VString (s : string)
| VFunction (name : string)
| VRef (a : addr).

(** Heap objects, classified the way [serializeValue] probes them
    ([instanceof Error], [instanceof Date], [instanceof Element],
    [Array.isArray], anything else). Properties are data properties, listed
    in the order of [Object.keys]. An error is held by what [value.name],
    [value.message] and [value.stack] evaluate to, which need not be
    strings. A date is held by its ISO-8601 rendering, and is [None] when
    its time value is [NaN] (an invalid date). An element also carries its
    own enumerable keys, which the Node client (where no [Element] class
    exists) would enumerate. *)
Inductive HeapObject : Type :=
| HError (name message stack : Value)
| HDate (iso : option string)
| HElement (tagName id : string) (props : list (string * Value))
| HArray (elems : list Value)
| HObject (props : list (string * Value)).

(** The heap is a total map from addresses to objects, so cyclic and even
    infinitely deep object graphs are representable. *)
Definition Heap := addr -> HeapObject.

(** What [serializeValue] returns. [SRaw v] is a value of the program
    that the result holds as it is, not serialized: a field of an
    [Error]. *)
Inductive SafeValue : Type :=
| SNull
| SUndefined
| SNumber (n : Z)
| SBoolean (b : bool)
| SString (s : string)
| SArray (items : list SafeValue)
| SObject (props : list (string * SafeValue))
| SRaw (v : Value).

(** A value of the program put into the result as it is. The primitives
    that a result can hold anyway are written as such; a string is not
    cut. *)
Definition raw (v : Value) : SafeValue :=
  match v with
  | VNull => SNull
  | VUndefined => SUndefined
  | VNumber n => SNumber n
  | VBoolean b => SBoolean b
  | VString s => SString s
  | VBigInt _ | VSymbol _ | VFunction _ | VRef _ => SRaw v
  end.

(** How a call ends: it returns, or it is left by the [RangeError] that
    [toISOString] throws for an invalid date. Nothing catches that error
    inside the serializer. *)
Inductive Completion (A : Type) : Type :=
| Returned (a : A)
| RangeError.
Arguments Returned {A} a.
Arguments RangeError {A}.

Record Options : Type := mkOptions {
  maxDepth : Z;
  maxProps : Z;
  maxArray : Z;
  maxStringLength : Z
}.

(** [DEFAULTS.logCaptureOptions]. *)
Definition DEFAULTS_logCaptureOptions : Options :=
  {| maxDepth := 4; maxProps := 50; maxArray := 50; maxStringLength := 2000 |}.

(** An own property set on an object: an existing key keeps its position,
    a new key is appended. *)
Fixpoint set_own (key : string) (v : SafeValue) (obj : list (string * SafeValue))
  : list (string * SafeValue) :=
  match obj with
  | [] => [(key, v)]
  | (k, w) :: rest =>
      if String.eqb k key then (k, v) :: rest else (k, w) :: set_own key v rest
  end.

(** [obj[key] = v] on the object literal [{}] under construction. The key
    [__proto__] is the accessor of [Object.prototype]: the assignment runs
    its setter, which gives [obj] another prototype or does nothing, and
    no own property is created. *)
Definition obj_set (key : string) (v : SafeValue) (obj : list (string * SafeValue))
  : list (string * SafeValue) :=
  if String.eqb key "__proto__" then obj else set_own key v obj.

(** The own property [key] of a serialized object. *)
Fixpoint obj_get (key : string) (obj : list (string * SafeValue)) : option SafeValue :=
  match obj with
  | [] => None
  | (k, w) :: rest => if String.eqb k key then Some w else obj_get key rest
  end.

(** The state threaded through the recursion is the [seen] WeakSet, which
    all recursive calls of one top-level serialization share. *)
Definition Seen := gset addr.

(** A recursive call as the loops use it: [None] when the model's fuel is
    used up. *)
Definition Ser := Value -> Seen -> option (Completion (SafeValue * Seen)).

(** [for (i = 0; i < limit; i += 1) arr.push(ser(value[i]))], over the
    elements the loop visits. *)
Fixpoint serialize_elems (ser : Ser) (vs : list Value) (arr : list SafeValue) (seen : Seen)
  : option (Completion (list SafeValue * Seen)) :=
  match vs with
  | [] => Some (Returned (arr, seen))
  | v :: rest =>
      match ser v seen with
      | None => None
      | Some RangeError => Some RangeError
      | Some (Returned (out, seen')) => serialize_elems ser rest (arr ++ [out]) seen'
      end
  end.

(** [for (i = 0; i < limit; i += 1) obj[keys[i]] = ser(value[keys[i]])]. *)
Fixpoint serialize_props (ser : Ser) (ps : list (string * Value))
    (obj : list (string * SafeValue)) (seen : Seen)
  : option (Completion (list (string * SafeValue) * Seen)) :=
  match ps with
  | [] => Some (Returned (obj, seen))
  | (key, v) :: rest =>
      match ser v seen with
      | None => None
      | Some RangeError => Some RangeError
      | Some (Returned (out, seen')) => serialize_props ser rest (obj_set key out obj) seen'
      end
  end.

(** The array branch of [serializeValue], after [seen.add(value)]. *)
Definition serialize_array (ser : Ser) (options : Options) (elems : list Value) (seen : Seen)
  : option (Completion (SafeValue * Seen)) :=
  let len := Z.of_nat (length elems) in
  let limit := Z.min len (maxArray options) in
  match serialize_elems ser (firstn (Z.to_nat limit) elems) [] seen with
  | None => None
  | Some RangeError => Some RangeError
  | Some (Returned (arr, seen')) =>
      if len >? limit
      then Some (Returned
                   (SArray (arr ++ [SString ("... (" +:+ num_str (len - limit) +:+ " more)")]),
                    seen'))
      else Some (Returned (SArray arr, seen'))
  end.

(** The plain-object branch of [serializeValue], after [seen.add(value)]. *)
Definition serialize_object (ser : Ser) (options : Options) (props : list (string * Value))
    (seen : Seen) : option (Completion (SafeValue * Seen)) :=
  let len := Z.of_nat (length props) in
  let limit := Z.min len (maxProps options) in
  match serialize_props ser (firstn (Z.to_nat limit) props) [] seen with
  | None => None
  | Some RangeError => Some RangeError
  | Some (Returned (obj, seen')) =>
      if len >? limit
      then Some (Returned
                   (SObject (obj_set "__truncated__"
                               (SString (num_str (len - limit) +:+ " more keys")) obj),
                    seen'))
      else Some (Returned (SObject obj, seen'))
  end.

(** The steps shared by every object that is neither an error nor a date
    (nor, in the browser, an element): the [seen] test, the depth test,
    [seen.add(value)] and the descent. [elems] is [Some] for an array. *)
Definition serialize_container (ser : Ser) (options : Options) (a : addr) (depth : Z)
    (seen : Seen) (elems : option (list Value)) (props : list (string * Value))
  : option (Completion (SafeValue * Seen)) :=
  if bool_decide (a ∈ seen) then Some (Returned (SString "[Circular]", seen))
  else if depth >=? maxDepth options then
    match elems with
    | Some l =>
        Some (Returned (SString ("[Array(" +:+ num_str (Z.of_nat (length l)) +:+ ")]"), seen))
    | None => Some (Returned (SString "[Object]", seen))
    end
  else
    let seen1 := {[a]} ∪ seen in
    match elems with
    | Some l => serialize_array ser options l seen1
    | None => serialize_object ser options props seen1
    end.

(** [serializeValue(value, options, depth, seen)]. [browser] selects the
    browser client, whose only difference is the [Element] test. The
    recursion of the source is on [depth]; here it is on [fuel], and
    [serializeValue_total] below shows that [maxDepth - depth + 1] units
    always suffice. A result that returns pairs the returned value with the
    [seen] set as the call leaves it. *)
Fixpoint serializeValue (fuel : nat) (h : Heap) (browser : bool)
    (value : Value) (options : Options) (depth : Z) (seen : Seen)
  : option (Completion (SafeValue * Seen)) :=
  match fuel with
  | O => None
  | S fuel' =>
      let ser := fun v s => serializeValue fuel' h browser v options (depth + 1) s in
      match value with
      | VNull => Some (Returned (SNull, seen))
      | VUndefined => Some (Returned (SUndefined, seen))
      | VNumber n => Some (Returned (SNumber n, seen))
      | VBoolean b => Some (Returned (SBoolean b, seen))
      | VBigInt n => Some (Returned (SString (num_str n), seen))
      | VSymbol d => Some (Returned (SString ("Symbol(" +:+ d +:+ ")"), seen))
      | VString s =>
          if str_len s >? maxStringLength options
          then Some (Returned (SString (slice0 s (maxStringLength options) +:+ "..."), seen))
          else Some (Returned (SString s, seen))
      | VFunction name =>
          Some (Returned (SString ("[Function " +:+ str_or name "anonymous" +:+ "]"), seen))
      | VRef a =>
          match h a with
          | HError name message stack =>
              Some (Returned (SObject [("name", raw name); ("message", raw message);
                                       ("stack", raw stack)], seen))
          | HDate (Some iso) => Some (Returned (SString iso, seen))
          | HDate None => Some RangeError
          | HElement tagName id props =>
              if browser
              then Some (Returned (SString ("<" +:+ toLowerCase tagName
                                             +:+ (if String.eqb id "" then "" else "#" +:+ id)
                                             +:+ ">"), seen))
              else serialize_container ser options a depth seen None props
          | HArray elems => serialize_container ser options a depth seen (Some elems) []
          | HObject props => serialize_container ser options a depth seen None props
          end
      end
  end.

(** Fuel that covers the whole descent from [depth]. *)
Definition enough_fuel (options : Options) (depth : Z) : nat :=
  S (Z.to_nat (maxDepth options - depth)).

(** [serializeValue(value, options, 0, new WeakSet())]. The [None] branch is
    never taken ([serializeValue_total]). *)
Definition serialize_root (h : Heap) (browser : bool) (options : Options)
    (value : Value) : Completion SafeValue :=
  match serializeValue (enough_fuel options 0) h browser value options 0 ∅ with
  | Some (Returned (out, _)) => Returned out
  | Some RangeError => RangeError
  | None => Returned SUndefined
  end.

(** [serializeValues(values)]: every argument is serialized at depth 0 with
    a fresh [WeakSet], from the first to the last; an error thrown for one
    of them leaves [values.map]. *)
Fixpoint serializeValues (h : Heap) (browser : bool) (options : Options)
    (values : list Value) : Completion (list SafeValue) :=
  match values with
  | [] => Returned []
  | value :: rest =>
      match serialize_root h browser options value with
      | RangeError => RangeError
      | Returned out =>
          match serializeValues h browser options rest with
          | RangeError => RangeError
          | Returned outs => Returned (out :: outs)
          end
      end
  end.

(** *** Notions and example heaps used by the properties *)

(** A heap object that [serializeValue] treats as an array or a plain
    object, that is, one that reaches the [seen] test. *)
Definition is_container (browser : bool) (o : HeapObject) : bool :=
  match o with
  | HError _ _ _ | HDate _ => false
  | HElement _ _ _ => negb browser
  | HArray _ | HObject _ => true
  end.

(** What the descent enumerates of a heap object. *)
Definition elems_of (o : HeapObject) : option (list Value) :=
  match o with
  | HArray l => Some l
  | _ => None
  end.

Definition props_of (o : HeapObject) : list (string * Value) :=
  match o with
  | HElement _ _ ps | HObject ps => ps
  | _ => []
  end.

(** Properties of the recursive call that the loops rely on. *)
Definition ser_total (ser : Ser) : Prop :=
  forall v s, exists r, ser v s = Some r.

Definition ser_grows (ser : Ser) : Prop :=
  forall v s out s', ser v s = Some (Returned (out, s')) -> s ⊆ s'.

Definition ser_extends (ser1 ser2 : Ser) : Prop :=
  forall v s r, ser1 v s = Some r -> ser2 v s = Some r.

Definition ser_returns (ser : Ser) : Prop :=
  forall v s, exists out s', ser v s = Some (Returned (out, s')).

(** A heap that holds no invalid date. *)
Definition dates_valid (h : Heap) : Prop :=
  forall a, h a <> HDate None.

(** [{ a: 1, self: <itself> }] at address 0. *)
Definition heap_self : Heap :=
  fun _ => HObject [("a", VNumber 1); ("self", VRef 0%nat)].

(** [{ left: s, right: s }] at address 0, with [s = { x: 1 }] at address 1:
    an acyclic graph in which [s] is shared by two sibling branches. *)
Definition heap_shared : Heap :=
  fun a => match a with
           | O => HObject [("left", VRef 1%nat); ("right", VRef 1%nat)]
           | _ => HObject [("x", VNumber 1)]
           end.

(** [a = { next: b }] at address 0 and [b = { back: a }] at address 1. *)
Definition heap_chain : Heap :=
  fun a => match a with
           | O => HObject [("next", VRef 1%nat)]
           | _ => HObject [("back", VRef 0%nat)]
           end.

(** [[ [1, 2, 3] ]]: the outer array at address 0, the inner at address 1. *)
Definition heap_nested : Heap :=
  fun a => match a with
           | O => HArray [VRef 1%nat]
           | _ => HArray [VNumber 1; VNumber 2; VNumber 3]
           end.

(** An error [e] with [e.message = e] at address 0, and at address 1 the
    object that [JSON.parse('{"a": 1, "__proto__": {"b": 2}}')] gives, whose
    own key [__proto__] holds the object [{ b: 2 }] at address 2; at
    address 3 the object [o] with an own key [__proto__] that refers to
    [o] itself. *)
Definition heap_raw : Heap :=
  fun a => match a with
           | 0%nat => HError (VString "Error") (VRef 0%nat) (VString "Error at main.js:1:1")
           | 1%nat => HObject [("a", VNumber 1); ("__proto__", VRef 2%nat)]
           | 2%nat => HObject [("b", VNumber 2)]
           | _ => HObject [("a", VNumber 1); ("__proto__", VRef 3%nat)]
           end.

(** [[1, new Date(NaN)]] at address 0, the invalid date at address 1. *)
Definition heap_invalid_date : Heap :=
  fun a => match a with
           | O => HArray [VNumber 1; VRef 1%nat]
           | _ => HDate None
           end.

Definition options_small : Options :=
  {| maxDepth := 1; maxProps := 50; maxArray := 2; maxStringLength := 4 |}.

(** Whether a serialized value nests arrays and objects at most [d] levels
    deep, with at most [wa] items in every array and at most [wo] keys in
    every object. A reference that the result holds as it is stands for an
    object graph of the program, which no option bounds. *)
Fixpoint within (d wa wo : nat) (out : SafeValue) {struct d} : bool :=
  match out with
  | SArray items =>
      match d with
      | O => false
      | S d' => (length items <=? wa)%nat && forallb (within d' wa wo) items
      end
  | SObject props =>
      match d with
      | O => false
      | S d' =>
          (length props <=? wo)%nat && forallb (fun kv => within d' wa wo kv.2) props
      end
  | SRaw (VRef _) => false
  | _ => true
  end.

(** A heap that holds no [Error] object. *)
Definition error_free (h : Heap) : Prop :=
  forall a, match h a with HError _ _ _ => False | _ => True end.

Definition is_ref (v : Value) : bool :=
  match v with
  | VRef _ => true
  | _ => false
  end.

(** A heap in which the name, the message and the stack of every [Error]
    object are primitives (or functions), not objects. *)
Definition errors_hold_primitives (h : Heap) : Prop :=
  forall a name message stack,
    h a = HError name message stack ->
    is_ref name = false /\ is_ref message = false /\ is_ref stack = false.

(** The keys among [keys] under which an assignment creates an own
    property: all but [__proto__]. *)
Definition own_keys (keys : list string) : list string :=
  List.filter (fun k => negb (String.eqb k "__proto__")) keys.

(** [{ k1: 1, k2: 2, k3: 3 }] at every address. *)
Definition heap_three_keys : Heap :=
  fun _ => HObject [("k1", VNumber 1); ("k2", VNumber 2); ("k3", VNumber 3)].

Definition options_two_props : Options :=
  {| maxDepth := 4; maxProps := 2; maxArray := 50; maxStringLength := 2000 |}.

(** Values that serialization can render without loss: a finite tree of
    arrays and plain objects with [null], [undefined], numbers, booleans
    and strings at the leaves, that stays within the limits when its root
    is at [depth], and in which no object has an own key [__proto__].
    [plain h options depth v addrs out] also gives the arrays and objects
    of the tree, [addrs], none of which occurs twice, and the structural
    copy [out] of the tree. *)
Inductive plain (h : Heap) (options : Options)
  : Z -> Value -> gset addr -> SafeValue -> Prop :=
| plain_null depth : plain h options depth VNull ∅ SNull
| plain_undefined depth : plain h options depth VUndefined ∅ SUndefined
| plain_number depth n : plain h options depth (VNumber n) ∅ (SNumber n)
| plain_boolean depth b : plain h options depth (VBoolean b) ∅ (SBoolean b)
| plain_string depth s :
    str_len s <= maxStringLength options ->
    plain h options depth (VString s) ∅ (SString s)
| plain_array depth a elems addrs items :
    h a = HArray elems -> depth < maxDepth options ->
    Z.of_nat (length elems) <= maxArray options ->
    plain_elems h options (depth + 1) elems addrs items -> a ∉ addrs ->
    plain h options depth (VRef a) ({[a]} ∪ addrs) (SArray items)
| plain_object depth a props addrs obj :
    h a = HObject props -> depth < maxDepth options ->
    Z.of_nat (length props) <= maxProps options -> NoDup props.*1 ->
    "__proto__" ∉ props.*1 ->
    plain_props h options (depth + 1) props addrs obj -> a ∉ addrs ->
    plain h options depth (VRef a) ({[a]} ∪ addrs) (SObject obj)
with plain_elems (h : Heap) (options : Options)
  : Z -> list Value -> gset addr -> list SafeValue -> Prop :=
| plain_elems_nil depth : plain_elems h options depth [] ∅ []
| plain_elems_cons depth v vs addrs1 addrs2 out outs :
    plain h options depth v addrs1 out ->
    plain_elems h options depth vs addrs2 outs -> addrs1 ## addrs2 ->
    plain_elems h options depth (v :: vs) (addrs1 ∪ addrs2) (out :: outs)
with plain_props (h : Heap) (options : Options)
  : Z -> list (string * Value) -> gset addr -> list (string * SafeValue) -> Prop :=
| plain_props_nil depth : plain_props h options depth [] ∅ []
| plain_props_cons depth key v ps addrs1 addrs2 out obj :
    plain h options depth v addrs1 out ->
    plain_props h options depth ps addrs2 obj -> addrs1 ## addrs2 ->
    plain_props h options depth ((key, v) :: ps) (addrs1 ∪ addrs2) ((key, out) :: obj).

Scheme plain_mut := Induction for plain Sort Prop
  with plain_elems_mut := Induction for plain_elems Sort Prop
  with plain_props_mut := Induction for plain_props Sort Prop.
Combined Scheme plain_mutual from plain_mut, plain_elems_mut, plain_props_mut.

End Serializer.

(** ** The transport client and the capture points (both clients) *)

Module Client.
Import Serializer.

(** *** Configuration *)

Record Config : Type := mkConfig {
  host : string;
  port : Z;
  autoStart : bool;
  captureConsole : bool;
  captureErrors : bool;
  networkEnabled : bool;
  logCaptureOptions : option Options
}.

(** [DEFAULTS]. *)
Definition DEFAULTS : Config :=
  {| host := "127.0.0.1"; port := 4973; autoStart := true;
     captureConsole := true; captureErrors := true; networkEnabled := true;
     logCaptureOptions := Some DEFAULTS_logCaptureOptions |}.

(** An options object handed to [start] or received in a [config] message:
    the keys it carries. [o_logCaptureOptions] can carry a falsy value. *)
Record ConfigPatch : Type := mkPatch {
  o_host : option string;
  o_port : option Z;
  o_autoStart : option bool;
  o_captureConsole : option bool;
  o_captureErrors : option bool;
  o_networkEnabled : option bool;
  o_logCaptureOptions : option (option Options)
}.

Definition no_patch : ConfigPatch :=
  {| o_host := None; o_port := None; o_autoStart := None; o_captureConsole := None;
     o_captureErrors := None; o_networkEnabled := None; o_logCaptureOptions := None |}.

(** [Object.assign({}, config, patch)]: received keys override, absent keys
    are retained. *)
Definition assign_config (c : Config) (p : ConfigPatch) : Config :=
  {| host := default (host c) (o_host p);
     port := default (port c) (o_port p);
     autoStart := default (autoStart c) (o_autoStart p);
     captureConsole := default (captureConsole c) (o_captureConsole p);
     captureErrors := default (captureErrors c) (o_captureErrors p);
     networkEnabled := default (networkEnabled c) (o_networkEnabled p);
     logCaptureOptions := default (logCaptureOptions c) (o_logCaptureOptions p) |}.

(** *** Outbound payloads *)

Record LogPayload : Type := mkLog {
  p_kind : string;
  p_level : string;
  p_text : string;
  p_values : option (list SafeValue);
  p_timestamp : Z;
  p_stack : option string;
  p_file : option string;
  p_line : option Z;
  p_column : option Z;
  p_url : option string;
  p_method : option string;
  p_status : option (Z + string);
  p_durationMs : option Z;
  p_label : option string;
  p_source : string
}.

(** What [send] can be handed: the handshake, a log event built at a capture
    point, or any value of the application ([send] is exported), of which
    the truthiness matters here, and whether [JSON.stringify] can write it
    ([app_throws] below, by the tag that tells such values apart). *)
Inductive Payload : Type :=
| PHello (runtime : string)
| PLog (l : LogPayload)
| PUser (truthy : bool) (tag : nat).

Definition payload_truthy (p : Payload) : bool :=
  match p with
  | PUser t _ => t
  | _ => true
  end.

(** *** Sockets, timers and the client state *)

Definition SocketId := nat.

Inductive ReadyState : Type := CONNECTING | OPEN | CLOSING | CLOSED.

Definition is_open (r : ReadyState) : bool :=
  match r with OPEN => true | _ => false end.

(** A [WebSocket] object: every socket the client ever constructed stays in
    [sockets], with the listeners that [connect] registered on it. *)
Record Socket : Type := mkSocket {
  url : string;
  readyState : ReadyState;
  sent : list Payload
}.

(** The module-wide [state] object. *)
Record State : Type := mkState {
  ws : option SocketId;
  queue : list Payload;
  connected : bool;
  config : Config;
  installed : bool
}.

(** [state] together with the part of the runtime it acts on: the sockets
    constructed so far (a socket's id is its position, so the number of
    sockets constructed is [length sockets]), the number of reconnect
    timers that [setTimeout] has armed and that have not fired yet, the
    heap of the instrumented program, the clock, and what the built-ins
    decide. [url_valid] holds of the URLs that the [WebSocket] constructor
    accepts: [new WebSocket(url)] throws a [SyntaxError] for a URL that
    does not parse (a port above 65535, a malformed host). [json_throws]
    holds of the heap objects, and [app_throws] of the payloads of the
    application, for which [JSON.stringify] throws a [TypeError] (an object
    graph with a cycle or a BigInt in it). *)
Record Runtime : Type := mkRuntime {
  rstate : State;
  sockets : list Socket;
  pendingTimers : nat;
  heap : Heap;
  clock : Z;
  url_valid : string -> bool;
  json_throws : addr -> bool;
  app_throws : nat -> bool
}.

Definition set_state (f : State -> State) (rt : Runtime) : Runtime :=
  {| rstate := f (rstate rt); sockets := sockets rt;
     pendingTimers := pendingTimers rt; heap := heap rt; clock := clock rt;
     url_valid := url_valid rt; json_throws := json_throws rt;
     app_throws := app_throws rt |}.

Definition set_sockets (f : list Socket -> list Socket) (rt : Runtime) : Runtime :=
  {| rstate := rstate rt; sockets := f (sockets rt);
     pendingTimers := pendingTimers rt; heap := heap rt; clock := clock rt;
     url_valid := url_valid rt; json_throws := json_throws rt;
     app_throws := app_throws rt |}.

Definition set_pendingTimers (f : nat -> nat) (rt : Runtime) : Runtime :=
  {| rstate := rstate rt; sockets := sockets rt;
     pendingTimers := f (pendingTimers rt); heap := heap rt; clock := clock rt;
     url_valid := url_valid rt; json_throws := json_throws rt;
     app_throws := app_throws rt |}.

Definition with_ws (w : option SocketId) (s : State) : State :=
  {| ws := w; queue := queue s; connected := connected s; config := config s;
     installed := installed s |}.

Definition with_queue (q : list Payload) (s : State) : State :=
  {| ws := ws s; queue := q; connected := connected s; config := config s;
     installed := installed s |}.

Definition with_connected (b : bool) (s : State) : State :=
  {| ws := ws s; queue := queue s; connected := b; config := config s;
     installed := installed s |}.

Definition with_config (c : Config) (s : State) : State :=
  {| ws := ws s; queue := queue s; connected := connected s; config := c;
     installed := installed s |}.

Definition with_installed (b : bool) (s : State) : State :=
  {| ws := ws s; queue := queue s; connected := connected s; config := config s;
     installed := b |}.

Definition set_readyState (r : ReadyState) (sk : Socket) : Socket :=
  {| url := url sk; readyState := r; sent := sent sk |}.

Definition push_sent (p : Payload) (sk : Socket) : Socket :=
  {| url := url sk; readyState := readyState sk; sent := sent sk ++ [p] |}.

(** The ready state of [state.ws], if there is one. *)
Definition ws_readyState (rt : Runtime) : option ReadyState :=
  id ← ws (rstate rt); readyState <$> sockets rt !! id.

(** The three tests of [send]: connected, a socket, and the socket open. *)
Definition can_send (rt : Runtime) : bool :=
  connected (rstate rt) &&
  match ws_readyState rt with
  | Some r => is_open r
  | None => false
  end.

(** Whether [JSON.stringify] throws on a serialized value: it does on a
    BigInt and on an object it can write no JSON for, which the values of
    a log event hold only where a field of an [Error] was copied as it
    is. [throws] tells for which heap objects it does. *)
Fixpoint stringify_throws (throws : addr -> bool) (v : SafeValue) : bool :=
  match v with
  | SRaw (VBigInt _) => true
  | SRaw (VRef a) => throws a
  | SArray items => existsb (stringify_throws throws) items
  | SObject props =>
      (fix props_throw (ps : list (string * SafeValue)) : bool :=
         match ps with
         | [] => false
         | (_, x) :: rest => stringify_throws throws x || props_throw rest
         end) props
  | _ => false
  end.

(** Whether [JSON.stringify(payload)] throws. Every field of a log event
    but [values] is a string, a number or [null]. *)
Definition payload_throws (rt : Runtime) (payload : Payload) : bool :=
  match payload with
  | PHello _ => false
  | PLog l => existsb (stringify_throws (json_throws rt)) (default [] (p_values l))
  | PUser _ tag => app_throws rt tag
  end.

(** A payload that [send] can transmit: it is falsy, so that
    [JSON.stringify] is not reached, or [JSON.stringify] writes it. *)
Definition writable (rt : Runtime) (payload : Payload) : bool :=
  negb (payload_truthy payload && payload_throws rt payload).

(** Whether [send(payload)] is left by the [TypeError] of
    [JSON.stringify], which is reached when the payload is truthy and the
    client can send. *)
Definition send_throws (payload : Payload) (rt : Runtime) : bool :=
  payload_truthy payload && can_send rt && payload_throws rt payload.

(** [send(payload)], as the state it leaves: when [JSON.stringify] throws,
    nothing is handed to the socket. *)
Definition send (payload : Payload) (rt : Runtime) : Runtime :=
  if negb (payload_truthy payload) then rt
  else if negb (can_send rt)
  then set_state (fun s => with_queue (queue s ++ [payload]) s) rt
  else if payload_throws rt payload then rt
  else
    match ws (rstate rt) with
    | Some id => set_sockets (alter (push_sent payload) id) rt
    | None => rt
    end.

(** [while (state.queue.length) send(state.queue.shift())], as the state
    it leaves and whether it is left by an exception of [send], which ends
    the loop after the payload was shifted. When [send] cannot transmit it
    pushes the payload back, the queue never empties and the loop of the
    source does not return: [None]. *)
Fixpoint flush_loop (fuel : nat) (rt : Runtime) : option (bool * Runtime) :=
  match queue (rstate rt) with
  | [] => Some (false, rt)
  | p :: rest =>
      match fuel with
      | O => None
      | S fuel' =>
          let rt1 := set_state (with_queue rest) rt in
          if send_throws p rt1 then Some (true, rt1)
          else flush_loop fuel' (send p rt1)
      end
  end.

Definition flushQueue (rt : Runtime) : option (bool * Runtime) :=
  flush_loop (length (queue (rstate rt))) rt.

Definition ws_url (c : Config) : string :=
  "ws://" +:+ host c +:+ ":" +:+ num_str (port c).

(** Whether [connect()] is left by the [SyntaxError] of the [WebSocket]
    constructor: no socket is registered and the URL made of the configured
    host and port does not parse. *)
Definition connect_throws (rt : Runtime) : bool :=
  match ws (rstate rt) with
  | Some _ => false
  | None => negb (url_valid rt (ws_url (config (rstate rt))))
  end.

(** [connect()], as the state it leaves: nothing if a socket is
    registered, else a new [WebSocket] (one more connection attempt) that
    becomes [state.ws]. When the constructor throws, no socket exists and
    [state.ws = ws] is not reached: the state is as it was. *)
Definition connect (rt : Runtime) : Runtime :=
  match ws (rstate rt) with
  | Some _ => rt
  | None =>
      if url_valid rt (ws_url (config (rstate rt))) then
        let id := length (sockets rt) in
        let sk := {| url := ws_url (config (rstate rt)); readyState := CONNECTING;
                     sent := [] |} in
        set_state (with_ws (Some id)) (set_sockets (fun l => l ++ [sk]) rt)
      else rt
  end.

(** [retryConnect()]: arms one more timer; nothing cancels it. *)
Definition retryConnect (rt : Runtime) : Runtime :=
  set_pendingTimers S rt.

(** The callback of the reconnect timer, as the state it leaves; it throws
    when [connect()] does. *)
Definition retry_timer_fires (rt : Runtime) : Runtime :=
  let rt := set_pendingTimers Nat.pred rt in
  match ws (rstate rt) with
  | None => connect rt
  | Some _ => rt
  end.

(** Whether the callback of the reconnect timer is left by the exception
    of [connect()]. *)
Definition retry_timer_throws (rt : Runtime) : bool :=
  connect_throws (set_pendingTimers Nat.pred rt).

(** [install()]: the capture hooks are installed once. *)
Definition install (rt : Runtime) : Runtime :=
  if installed (rstate rt) then rt else set_state (with_installed true) rt.

(** [start(options)], as the state it leaves. *)
Definition start (options : option ConfigPatch) (rt : Runtime) : Runtime :=
  let rt := match options with
            | Some p => set_state (fun s => with_config (assign_config (config s) p) s) rt
            | None => rt
            end in
  connect (install rt).

(** Whether [start(options)] throws: it does when its call of [connect()]
    does, after the options are merged and the hooks installed. *)
Definition start_throws (options : option ConfigPatch) (rt : Runtime) : bool :=
  let rt := match options with
            | Some p => set_state (fun s => with_config (assign_config (config s) p) s) rt
            | None => rt
            end in
  connect_throws (install rt).

(** [ws.close()] on a socket: it enters the closing handshake and its
    [close] event is delivered later. *)
Definition socket_close (sk : Socket) : Socket :=
  match readyState sk with
  | CLOSED => sk
  | _ => set_readyState CLOSING sk
  end.

(** [stop()]. *)
Definition stop (rt : Runtime) : Runtime :=
  match ws (rstate rt) with
  | Some id => set_state (with_ws None) (set_sockets (alter socket_close id) rt)
  | None => rt
  end.

(** The listeners that [connect] registers on every socket it constructs.
    They read and write the shared [state], not the socket they belong to.
    The [open] listener, like [flushQueue], is given by the state it leaves
    and whether it is left by an exception: when [flushQueue] throws, the
    handshake is not sent. *)
Definition on_open (browser : bool) (id : SocketId) (rt : Runtime)
  : option (bool * Runtime) :=
  let rt := set_sockets (alter (set_readyState OPEN) id) rt in
  let rt := set_state (with_connected true) rt in
  match flushQueue rt with
  | None => None
  | Some (true, rt') => Some (true, rt')
  | Some (false, rt') =>
      Some (false, send (PHello (if browser then "browser" else "node")) rt')
  end.

Definition on_message (id : SocketId) (message : option ConfigPatch) (rt : Runtime) : Runtime :=
  match message with
  | Some p => set_state (fun s => with_config (assign_config (config s) p) s) rt
  | None => rt
  end.

Definition on_close (id : SocketId) (rt : Runtime) : Runtime :=
  let rt := set_sockets (alter (set_readyState CLOSED) id) rt in
  retryConnect (set_state (fun s => with_ws None (with_connected false s)) rt).

Definition on_error (id : SocketId) (rt : Runtime) : Runtime :=
  set_state (with_connected false) rt.

(** What the event loop can run next: a call of the exported interface, an
    event of one of the sockets, or a reconnect timer. A [message] event
    carries the parsed [config] patch when the frame is a [config] message
    and [None] for any other frame. *)
Inductive Event : Type :=
| CallStart (options : option ConfigPatch)
| CallStop
| CallSend (payload : Payload)
| SocketOpen (id : SocketId)
| SocketMessage (id : SocketId) (message : option ConfigPatch)
| SocketClose (id : SocketId)
| SocketError (id : SocketId)
| TimerFires.

(** The state in which the call, the listener or the timer callback of an
    event returns; [None] when it does not return: [flushQueue] does not
    terminate, or an exception leaves it (the [SyntaxError] of the
    [WebSocket] constructor, the [TypeError] of [JSON.stringify]). What
    becomes of such an exception is up to the caller or to the
    environment, and is not followed here. *)
Definition handle (browser : bool) (ev : Event) (rt : Runtime) : option Runtime :=
  match ev with
  | CallStart options => if start_throws options rt then None else Some (start options rt)
  | CallStop => Some (stop rt)
  | CallSend payload => if send_throws payload rt then None else Some (send payload rt)
  | SocketOpen id =>
      match on_open browser id rt with
      | Some (false, rt') => Some rt'
      | _ => None
      end
  | SocketMessage id message => Some (on_message id message rt)
  | SocketClose id => Some (on_close id rt)
  | SocketError id => Some (on_error id rt)
  | TimerFires => if retry_timer_throws rt then None else Some (retry_timer_fires rt)
  end.

(** Which events the runtime can deliver: a socket opens once, from
    [CONNECTING]; it receives messages while open; it emits [close] once,
    whether the connection failed, the peer closed it or [close()] was
    called on it; a timer fires only if one is armed. *)
Definition enabled (ev : Event) (rt : Runtime) : bool :=
  match ev with
  | CallStart _ | CallStop | CallSend _ => true
  | SocketOpen id =>
      match readyState <$> sockets rt !! id with
      | Some CONNECTING => true
      | _ => false
      end
  | SocketMessage id _ =>
      match readyState <$> sockets rt !! id with
      | Some OPEN => true
      | _ => false
      end
  | SocketClose id | SocketError id =>
      match readyState <$> sockets rt !! id with
      | Some CLOSED | None => false
      | _ => true
      end
  | TimerFires => negb (Nat.eqb (pendingTimers rt) 0)
  end.

(** Running a trace of events to its end; [None] if an event is not
    enabled when its turn comes or a handler does not return. *)
Fixpoint run (browser : bool) (evs : list Event) (rt : Runtime) : option Runtime :=
  match evs with
  | [] => Some rt
  | ev :: rest =>
      if enabled ev rt
      then rt' ← handle browser ev rt; run browser rest rt'
      else None
  end.

(** The number of connection attempts made so far. *)
Definition attempts (rt : Runtime) : nat := length (sockets rt).

(** The module as loaded, before [if (state.config.autoStart) start()]. *)
Definition initial (c : Config) (h : Heap) (now : Z) (valid : string -> bool)
    (objects : addr -> bool) (payloads : nat -> bool) : Runtime :=
  {| rstate := {| ws := None; queue := []; connected := false; config := c;
                  installed := false |};
     sockets := []; pendingTimers := 0%nat; heap := h; clock := now; url_valid := valid;
     json_throws := objects; app_throws := payloads |}.

(** *** Capture points *)

(** A call either returns or throws; what is thrown is a value of the
    program. A call acts on the runtime, and what it changed before
    throwing stays changed. *)
Inductive Outcome (A : Type) : Type :=
| Returns (a : A)
| Throws (e : Value).
Arguments Returns {A} a.
Arguments Throws {A} e.

Definition Call (A : Type) : Type := Runtime -> Outcome A * Runtime.

(** [{ file, line, column }] as [extractLocation] returns it. *)
Record Location : Type := mkLocation {
  loc_file : option string;
  loc_line : option Z;
  loc_column : option Z
}.

(** A [Response], of which the wrapper reads the status. *)
Record Response : Type := mkResponse { resp_status : Z; resp_tag : nat }.

(** How a promise settles. *)
Inductive Settled : Type :=
| Fulfilled (response : Response)
| Rejected (e : Value).

(** The promise a [fetch] call returns: the promise of the original
    [fetch], or that promise with the wrapper's [then] and [catch]
    callbacks chained on it (they close over [start], [method], [url]). *)
Inductive Promise : Type :=
| OriginalPromise (tag : nat)
| CapturedPromise (p : Promise) (start : Z) (method url : string).

(** The first argument of [fetch]: a string, or an object with or without a
    (truthy) [url]. *)
Inductive FetchInput : Type :=
| InputString (s : string)
| InputObject (url : option string).

(** An [XMLHttpRequest] object: the two fields the wrappers add, its
    status, and the [loadend] listeners the wrapper registered, each with
    the [start], [method] and [url] it closes over. *)
Record Xhr : Type := mkXhr {
  consoleSamuraiMethod : option string;
  consoleSamuraiUrl : option string;
  xhr_status : Z;
  loadend : list (Z * string * string)
}.


Section CapturePoints.

(** [false] for the Node client, [true] for the browser client. *)
Variable browser : bool.
(** What the engine and the built-ins supply: the stack trace that
    [new Error().stack] gives in the wrapper and the one that
    [captureStack()] gives (one frame deeper), the frame [extractLocation]
    picks from a trace by its regular expression, the [JSON.stringify]
    preview of the arguments, the [RangeError] object that [toISOString]
    creates and throws for an invalid date, the rendering of [durationMs]
    in a template literal, and the [TypeError] object that
    [JSON.stringify] creates and throws for a value it cannot write.
    [durationMs] is a number of seconds with three decimals, held as the
    number of thousandths. *)
Variable newErrorStack : Runtime -> string.
Variable captureStack : Runtime -> string.
Variable extractLocation : string -> Location.
Variable formatPreview : Heap -> list Value -> string.
Variable rangeError : Runtime -> Value.
Variable durationText : Z -> string.
Variable typeError : Runtime -> Value.

Definition source_tag : string := if browser then "browser" else "node".

Definition capture_options (rt : Runtime) : Options :=
  match logCaptureOptions (config (rstate rt)) with
  | Some o => o
  | None => DEFAULTS_logCaptureOptions
  end.

(** [now()], and [Math.round((now() - start) * 1000) / 1000] with the
    clock counted in the unit of that rounding. *)
Definition now (rt : Runtime) : Z := clock rt.
Definition elapsed (start : Z) (rt : Runtime) : Z := now rt - start.

Definition methods : list string := ["log"; "info"; "warn"; "error"; "debug"; "trace"].

(** A runtime in which [JSON.stringify] can write the name, the message
    and the stack of every [Error] object of the heap. *)
Definition errors_can_be_written (rt : Runtime) : Prop :=
  forall a name message stack,
    heap rt a = HError name message stack ->
    stringify_throws (json_throws rt) (raw name) = false
    /\ stringify_throws (json_throws rt) (raw message) = false
    /\ stringify_throws (json_throws rt) (raw stack) = false.

(** [send(payload)] as a call: it returns, or throws the [TypeError] of
    [JSON.stringify]. *)
Definition send_call (payload : Payload) : Call unit :=
  fun rt =>
    (if send_throws payload rt then Throws (typeError rt) else Returns tt, send payload rt).

(** The payload a patched console method sends, with [values] what
    [serializeValues(args)] returned. *)
Definition console_payload (method : string) (args : list Value) (values : list SafeValue)
    (rt : Runtime) : Payload :=
  let stack := if String.eqb method "trace" then newErrorStack rt else captureStack rt in
  let location := extractLocation stack in
  PLog {| p_kind := if String.eqb method "trace" then "trace" else method;
          p_level := if String.eqb method "trace" then "trace" else method;
          p_text := formatPreview (heap rt) args;
          p_values := Some values;
          p_timestamp := clock rt;
          p_stack := if String.eqb stack "" then None else Some stack;
          p_file := loc_file location;
          p_line := loc_line location;
          p_column := loc_column location;
          p_url := None; p_method := None; p_status := None;
          p_durationMs := None; p_label := None;
          p_source := source_tag |}.

(** [console[method] = function () { ... }] as [patchConsole] installs it
    around [original = console[method]]. Only the call of the original is
    inside the [try]: an error thrown by [serializeValues(args)] while the
    payload is built leaves the wrapper, before anything is sent, and so
    does an error thrown by [JSON.stringify] in [send]. *)
Definition patched_console (method : string)
    (original : option (list Value -> Call unit)) (args : list Value) : Call unit :=
  fun rt =>
    let rt1 :=
      match original with
      | Some f =>
          (* try { original.apply(console, args) } catch (err) { } *)
          match f args rt with
          | (Returns _, rt') => rt'
          | (Throws _, rt') => rt'
          end
      | None => rt
      end in
    if negb (captureConsole (config (rstate rt1))) then (Returns tt, rt1)
    else
      match serializeValues (heap rt1) browser (capture_options rt1) args with
      | Returned values => send_call (console_payload method args values rt1) rt1
      | RangeError => (Throws (rangeError rt1), rt1)
      end.


Definition fetch_method (init_method : option string) : string :=
  match init_method with
  | Some m => str_or m "GET"
  | None => "GET"
  end.

Definition fetch_url (input : FetchInput) : string :=
  match input with
  | InputString s => s
  | InputObject (Some u) => u
  | InputObject None => ""
  end.

Definition network_payload (method url : string) (status : Z + string)
    (durationMs : Z) (values : option (list SafeValue)) (rt : Runtime) : Payload :=
  PLog {| p_kind := "network"; p_level := "network";
          p_text := method +:+ " " +:+ url +:+ " "
                    +:+ match status with inl n => num_str n | inr _ => "ERROR" end
                    +:+ " " +:+ durationText durationMs +:+ "ms";
          p_values := values;
          p_timestamp := clock rt;
          p_stack := None; p_file := None; p_line := None; p_column := None;
          p_url := Some url; p_method := Some method; p_status := Some status;
          p_durationMs := Some durationMs; p_label := None;
          p_source := "browser" |}.

(** [global.fetch = function (input, init) { ... }]. *)
Definition patched_fetch
    (originalFetch : FetchInput -> option string -> Call Promise)
    (input : FetchInput) (init_method : option string) : Call Promise :=
  fun rt =>
    if negb (networkEnabled (config (rstate rt))) then originalFetch input init_method rt
    else
      let start := now rt in
      let method := fetch_method init_method in
      let url := fetch_url input in
      match originalFetch input init_method rt with
      | (Returns p, rt') => (Returns (CapturedPromise p start method url), rt')
      | (Throws e, rt') => (Throws e, rt')
      end.

(** How a promise settles once the promise of the original [fetch]
    settles with [o]: the [then] callback sends and returns the response,
    the [catch] callback sends and rethrows; when [serializeValues([err])]
    or [JSON.stringify] throws in the [catch] callback, nothing is sent
    and the promise rejects with that error. Only the browser client
    patches the network. *)
Fixpoint settle (p : Promise) (o : Settled) (rt : Runtime) : Settled * Runtime :=
  match p with
  | OriginalPromise _ => (o, rt)
  | CapturedPromise p' start method url =>
      match settle p' o rt with
      | (Fulfilled response, rt') =>
          (Fulfilled response,
           send (network_payload method url (inl (resp_status response))
                   (elapsed start rt') None rt') rt')
      | (Rejected err, rt') =>
          match serializeValues (heap rt') true (capture_options rt') [err] with
          | Returned values =>
              match send_call (network_payload method url (inr "ERR")
                                 (elapsed start rt') (Some values) rt') rt' with
              | (Returns _, rt'') => (Rejected err, rt'')
              | (Throws e, rt'') => (Rejected e, rt'')
              end
          | RangeError => (Rejected (rangeError rt'), rt')
          end
      end
  end.


(** [this.addEventListener('loadend', onDone)], with what [onDone] closes
    over. *)
Definition xhr_add_listener (l : Z * string * string) (this : Xhr) : Xhr :=
  {| consoleSamuraiMethod := consoleSamuraiMethod this;
     consoleSamuraiUrl := consoleSamuraiUrl this;
     xhr_status := xhr_status this;
     loadend := loadend this ++ [l] |}.

(** The listener that [send] registers on a request at a given time. *)
Definition xhr_listener (this : Xhr) (rt : Runtime) : Z * string * string :=
  (now rt,
   str_or (default "" (consoleSamuraiMethod this)) "GET",
   default "" (consoleSamuraiUrl this)).



(** [this.removeEventListener('loadend', onDone)]. *)
Fixpoint remove_listener (l : Z * string * string) (ls : list (Z * string * string))
  : list (Z * string * string) :=
  match ls with
  | [] => []
  | l' :: rest => if bool_decide (l' = l) then rest else l' :: remove_listener l rest
  end.

(** The [loadend] listener [onDone] of one [send]. *)
Definition xhr_onDone (start : Z) (method url : string) (this : Xhr) (rt : Runtime)
  : Xhr * Runtime :=
  ({| consoleSamuraiMethod := consoleSamuraiMethod this;
      consoleSamuraiUrl := consoleSamuraiUrl this;
      xhr_status := xhr_status this;
      loadend := remove_listener (start, method, url) (loadend this) |},
   send (network_payload method url (inl (xhr_status this)) (elapsed start rt) None rt) rt).

(** The browser's dispatch of a [loadend] event on a request: every
    listener registered when the event fires is called, in the order of
    registration. *)
Definition fire_loadend (this : Xhr) (rt : Runtime) : Xhr * Runtime :=
  foldl (fun '(x, r) '(start, method, url) => xhr_onDone start method url x r)
        (this, rt) (loadend this).

End CapturePoints.

(** *** Console timers *)

(** [state.timers]: the start time of every running label. *)
Definition Timers := gmap string Z.

(** [label || 'default'], for a label that is a string or absent, as the
    console API has it. *)
Definition timer_key (label : option string) : string :=
  match label with
  | Some s => str_or s "default"
  | None => "default"
  end.

Section ConsoleTimers.

Variable browser : bool.
(** The stack trace [captureStack()] gives, the frame [extractLocation]
    picks from it, and the rendering of [durationMs] in a template
    literal. [durationMs] is a number of seconds with three decimals, held
    as the number of thousandths. *)
Variable captureStack : Runtime -> string.
Variable extractLocation : string -> Location.
Variable durationText : Z -> string.

(** The payload that [timeLog] and [timeEnd] send for a timer started at
    [start]. *)
Definition timer_payload (key : string) (start : Z) (rt : Runtime) : Payload :=
  let durationMs := elapsed start rt in
  let stack := captureStack rt in
  let location := extractLocation stack in
  PLog {| p_kind := "time"; p_level := "time";
          p_text := key +:+ " " +:+ durationText durationMs +:+ "ms";
          p_values := Some [SObject [("label", SString key);
                                     ("durationMs", SNumber durationMs)]];
          p_timestamp := clock rt;
          p_stack := if String.eqb stack "" then None else Some stack;
          p_file := loc_file location;
          p_line := loc_line location;
          p_column := loc_column location;
          p_url := None; p_method := None; p_status := None;
          p_durationMs := Some durationMs; p_label := Some key;
          p_source := if browser then "browser" else "node" |}.

(** [if (original) original.call(console, label)] at the end of each of
    the three wrappers; the wrapper itself returns [undefined]. *)
Definition call_original (original : option (option string -> Call unit))
    (label : option string) (timers : Timers) (rt : Runtime)
  : Outcome unit * Timers * Runtime :=
  match original with
  | Some f => let '(o, rt') := f label rt in (o, timers, rt')
  | None => (Returns tt, timers, rt)
  end.

(** [console.time = function (label) { ... }]. *)
Definition patched_time (originalTime : option (option string -> Call unit))
    (label : option string) (timers : Timers) (rt : Runtime)
  : Outcome unit * Timers * Runtime :=
  let key := timer_key label in
  call_original originalTime label (<[key := now rt]> timers) rt.

(** [console.timeLog = function (label) { ... }]. *)
Definition patched_timeLog (originalTimeLog : option (option string -> Call unit))
    (label : option string) (timers : Timers) (rt : Runtime)
  : Outcome unit * Timers * Runtime :=
  let key := timer_key label in
  let rt1 :=
    match timers !! key with
    | Some start => send (timer_payload key start rt) rt
    | None => rt
    end in
  call_original originalTimeLog label timers rt1.

(** [console.timeEnd = function (label) { ... }]. *)
Definition patched_timeEnd (originalTimeEnd : option (option string -> Call unit))
    (label : option string) (timers : Timers) (rt : Runtime)
  : Outcome unit * Timers * Runtime :=
  let key := timer_key label in
  let rt1 :=
    match timers !! key with
    | Some start => send (timer_payload key start rt) rt
    | None => rt
    end in
  call_original originalTimeEnd label (delete key timers) rt1.

End ConsoleTimers.

(** *** The location of a capture *)

(** [stack.split('\n')], with [cur] the line being read. *)
Fixpoint split_lines_from (cur : string) (s : string) : list string :=
  match s with
  | EmptyString => [cur]
  | String c rest =>
      if Ascii.eqb c (Ascii.ascii_of_nat 10)
      then cur :: split_lines_from "" rest
      else split_lines_from (cur +:+ String c EmptyString) rest
  end.

Definition split_lines (s : string) : list string := split_lines_from "" s.

(** [s.includes(sub)]. *)
Fixpoint includes (s sub : string) : bool :=
  String.prefix sub s ||
  match s with
  | EmptyString => false
  | String _ rest => includes rest sub
  end.

(** [match[1].startsWith('(') ? match[1].slice(1) : match[1]]. *)
Definition strip_paren (f : string) : string :=
  if String.prefix "(" f then String.substring 1 (String.length f - 1) f else f.

Section StackFrames.

Variable browser : bool.
(** [line.match(/...:(\d+):(\d+)/)] with the client's regular expression:
    the three groups of the first match in the line, the last two as
    numbers. *)
Variable frame_match : string -> option (string * Z * Z).

(** The frames that the loop passes over: the client's own, and in the
    Node client those of the runtime. *)
Definition own_frame (line : string) : bool :=
  includes line "console-samurai" ||
  (negb browser && (includes line "node:internal" || includes line "(internal")).

Definition no_location_found : Location :=
  {| loc_file := None; loc_line := None; loc_column := None |}.

(** [for (const line of lines) { ... }]. *)
Fixpoint location_of_frames (lines : list string) : Location :=
  match lines with
  | [] => no_location_found
  | line :: rest =>
      if own_frame line then location_of_frames rest
      else
        match frame_match line with
        | Some (f, l, c) =>
            {| loc_file := Some (strip_paren f); loc_line := Some l; loc_column := Some c |}
        | None => location_of_frames rest
        end
  end.

(** [extractLocation(stack)]; a missing stack is the empty string. *)
Definition extractLocation (stack : string) : Location :=
  if String.eqb stack "" then no_location_found
  else location_of_frames (tail (split_lines stack)).

End StackFrames.

(** *** Notions and example runs used by the properties *)

Definition heap_empty : Heap := fun _ => HObject [].

(** A stand-in for the URL parser on the addresses of the example runs:
    a host without a slash, a question mark, a hash or a space, and a port
    from 0 to 65535. *)
Definition example_url_valid (u : string) : bool :=
  bool_decide (u ∈ ["ws://127.0.0.1:4973"; "ws://localhost:4973"; "ws://127.0.0.1:0";
                    "ws://127.0.0.1:65535"]).

(** No object of the example programs and no payload of theirs makes
    [JSON.stringify] throw. *)
Definition all_written : nat -> bool := fun _ => false.

(** The module as loaded with the default configuration by a program with
    heap [h]. *)
Definition loaded (h : Heap) : Runtime :=
  initial DEFAULTS h 0 example_url_valid all_written all_written.

(** The module loaded with the default configuration, then started. *)
Definition started : Runtime := start None (loaded heap_empty).

(** A client whose first connection opened, was stopped and started
    again, so that two sockets are still to emit [close]. *)
Definition two_live_sockets : option Runtime :=
  run false [SocketOpen 0%nat; CallStop; CallStart None] started.



(** Stand-ins for the engine's stack trace, the frame picked from it and
    the preview, for the example runs. *)
Definition no_stack : Runtime -> string := fun _ => "".
Definition no_location : string -> Location :=
  fun _ => {| loc_file := None; loc_line := None; loc_column := None |}.
Definition no_preview : Heap -> list Value -> string := fun _ _ => "".
Definition example_rangeError : Runtime -> Value :=
  fun _ => VString "RangeError: Invalid time value".

Definition example_typeError : Runtime -> Value :=
  fun _ => VString "TypeError: Do not know how to serialize a BigInt".

(** An error [e] with [e.message = 1n] at every address. *)
Definition heap_bigint_error : Heap :=
  fun _ => HError (VString "Error") (VBigInt 1) (VString "Error at main.js:1:1").

(** The event of [console.log(e)] for such an error. *)
Definition bigint_event : Payload :=
  PLog {| p_kind := "log"; p_level := "log"; p_text := "";
          p_values := Some [SObject [("name", SString "Error"); ("message", SRaw (VBigInt 1));
                                     ("stack", SString "Error at main.js:1:1")]];
          p_timestamp := 0; p_stack := None; p_file := None; p_line := None;
          p_column := None; p_url := None; p_method := None; p_status := None;
          p_durationMs := None; p_label := None; p_source := "node" |}.

(** A started client of a program that holds such an error, before and
    after its connection opens. *)
Definition bigint_error_logged : Runtime := start None (loaded heap_bigint_error).

Definition bigint_error_connected : option Runtime :=
  run false [SocketOpen 0%nat] bigint_error_logged.

(** A started client of a program that holds an invalid date. *)
Definition invalid_date_logged : Runtime := start None (loaded heap_invalid_date).

(** Everything handed to [ws.send] so far, socket by socket. *)
Definition transmitted (rt : Runtime) : list Payload :=
  concat (sent <$> sockets rt).

(** What an event hands to the transport: the payload of a call of [send]
    if it is truthy, the handshake of a socket that opens. *)
Definition offered (browser : bool) (ev : Event) : list Payload :=
  match ev with
  | CallSend payload => if payload_truthy payload then [payload] else []
  | SocketOpen _ => [PHello (if browser then "browser" else "node")]
  | _ => []
  end.



(** Merging the keys of two patches, the later one winning. *)
Definition patch_then (p q : ConfigPatch) : ConfigPatch :=
  {| o_host := match o_host q with Some x => Some x | None => o_host p end;
     o_port := match o_port q with Some x => Some x | None => o_port p end;
     o_autoStart := match o_autoStart q with Some x => Some x | None => o_autoStart p end;
     o_captureConsole :=
       match o_captureConsole q with Some x => Some x | None => o_captureConsole p end;
     o_captureErrors :=
       match o_captureErrors q with Some x => Some x | None => o_captureErrors p end;
     o_networkEnabled :=
       match o_networkEnabled q with Some x => Some x | None => o_networkEnabled p end;
     o_logCaptureOptions :=
       match o_logCaptureOptions q with Some x => Some x | None => o_logCaptureOptions p end |}.

(** The event that the listener registered at [start] for [method] and
    [url] sends when the request completes with [status] at time
    [clock rt]. *)
Definition loadend_event (durationText : Z -> string) (status : Z) (rt : Runtime)
    (l : Z * string * string) : Payload :=
  let '(start, method, url) := l in
  network_payload durationText method url (inl status) (clock rt - start) None rt.

(** Options that set a port above 65535. *)
Definition port_out_of_range : ConfigPatch :=
  {| o_host := None; o_port := Some 70000; o_autoStart := None; o_captureConsole := None;
     o_captureErrors := None; o_networkEnabled := None; o_logCaptureOptions := None |}.

(** An original [fetch] that returns a pending promise. *)
Definition returning_fetch : FetchInput -> option string -> Call Promise :=
  fun _ _ rt => (Returns (OriginalPromise 0), rt).

(** A stand-in for the rendering of a duration. *)
Definition example_durationText (d : Z) : string := num_str d.

End Client.

(** ** The host extension: log store and inline annotation state *)

Module Extension.

(** JSON values, as the serialized [values] of an event arrive. *)
Inductive JsVal : Type :=
| JNull
| JBool (b : bool)
| JNum (n : Z)
| JStr (s : string)
| JArr (items : list JsVal)
| JObj (props : list (string * JsVal)).

(** [LEVELS]. *)
Definition LEVELS : list string :=
  ["log"; "info"; "warn"; "error"; "debug"; "trace"; "time"; "network"].

(** A [log] message as parsed from a frame. Every field is optional; [None]
    stands for an absent key or a JSON [null], and a present field has the
    type the wire protocol gives it. [status] is a number, or the string
    the browser client sends for a failed request. Of a number the store
    only tests whether it is zero, so integers stand for numbers. *)
Record Payload : Type := mkPayload {
  m_type : option string;
  m_level : option string;
  m_kind : option string;
  m_text : option string;
  m_values : option (list JsVal);
  m_timestamp : option Z;
  m_file : option string;
  m_line : option Z;
  m_column : option Z;
  m_stack : option string;
  m_url : option string;
  m_method : option string;
  m_status : option (Z + string);
  m_durationMs : option Z;
  m_label : option string;
  m_source : option string
}.

(** A stored log entry. An optional field holds [None] for [null]. *)
Record Entry : Type := mkEntry {
  id : Z;
  level : string;
  kind : string;
  text : string;
  values : list JsVal;
  timestamp : Z;
  file : option string;
  line : option Z;
  column : option Z;
  stack : option string;
  url : option string;
  method : option string;
  status : option (Z + string);
  durationMs : option Z;
  label : option string;
  source : option string;
  clientId : Z
}.

(** [x || null] on an optional string: the empty string is falsy. *)
Definition str_or_null (x : option string) : option string :=
  match x with
  | Some s => if String.eqb s "" then None else Some s
  | None => None
  end.

(** [x || null] on an optional number: zero is falsy. *)
Definition num_or_null (x : option Z) : option Z :=
  match x with
  | Some n => if n =? 0 then None else Some n
  | None => None
  end.

(** [x || null] on a status. *)
Definition status_or_null (x : option (Z + string)) : option (Z + string) :=
  match x with
  | Some (inl n) => if n =? 0 then None else Some (inl n)
  | Some (inr s) => if String.eqb s "" then None else Some (inr s)
  | None => None
  end.

(** [x || dflt] on an optional string. *)
Definition str_or_else (x : option string) (dflt : string) : string :=
  match str_or_null x with
  | Some s => s
  | None => dflt
  end.

(** [sanitizeLevel(level)]. *)
Definition sanitizeLevel (level : string) : string :=
  if bool_decide (level ∈ LEVELS) then level else "log".

(** The part of [state.config] the store and the annotations read. *)
Record Config : Type := mkConfig {
  enabledLevels : list string;
  inlineMaxTextLength : Z;
  inlineShowTimestamp : bool;
  pathMappings : list (option string * option string)
}.

(** [{ entry, count }], the value of a line in [lineStateByUri]. *)
Record LineData : Type := mkLineData {
  ld_entry : Entry;
  ld_count : Z
}.

(** The module-wide [state] of the host, restricted to the log store, the
    inline annotation state and the lines written to the output channel.
    [logSeq] counts in exact integers: a run stays far below the 2^53
    events at which a JavaScript number stops counting. *)
Record State : Type := mkState {
  logs : list Entry;
  logSeq : Z;
  maxLogEntries : Z;
  inlineEnabled : bool;
  lineStateByUri : gmap string (gmap Z LineData);
  config : Config;
  outputChannel : list string
}.

Definition with_logs (l : list Entry) (st : State) : State :=
  {| logs := l; logSeq := logSeq st; maxLogEntries := maxLogEntries st;
     inlineEnabled := inlineEnabled st; lineStateByUri := lineStateByUri st;
     config := config st; outputChannel := outputChannel st |}.

Definition with_logSeq (n : Z) (st : State) : State :=
  {| logs := logs st; logSeq := n; maxLogEntries := maxLogEntries st;
     inlineEnabled := inlineEnabled st; lineStateByUri := lineStateByUri st;
     config := config st; outputChannel := outputChannel st |}.

Definition with_lineStateByUri (m : gmap string (gmap Z LineData)) (st : State) : State :=
  {| logs := logs st; logSeq := logSeq st; maxLogEntries := maxLogEntries st;
     inlineEnabled := inlineEnabled st; lineStateByUri := m;
     config := config st; outputChannel := outputChannel st |}.

Definition with_outputChannel (o : list string) (st : State) : State :=
  {| logs := logs st; logSeq := logSeq st; maxLogEntries := maxLogEntries st;
     inlineEnabled := inlineEnabled st; lineStateByUri := lineStateByUri st;
     config := config st; outputChannel := o |}.

(** [trimLogs()]: [splice(0, overflow)] removes the first [overflow]
    entries in one call. *)
Definition trimLogs (st : State) : State :=
  let len := Z.of_nat (length (logs st)) in
  if len <=? maxLogEntries st then st
  else
    let overflow := len - maxLogEntries st in
    with_logs (drop (Z.to_nat overflow) (logs st)) st.

(** How the source file of an entry is looked up. *)
Inductive Resolution : Type :=
| Resolved (path : string)
| Unresolved
| Raised.

(** A parsed URL's decoded path name: the URL does not parse, the path has
    a malformed escape ([decodeURIComponent] throws), or the path. *)
Inductive UrlPath : Type :=
| BadUrl
| BadEscape
| PathName (p : string).

(** [new Date(ts).toISOString()] returns for a time of at most 8.64e15
    milliseconds on either side of the epoch and throws a [RangeError] for
    any other. *)
Definition valid_time (ts : Z) : bool :=
  (-8640000000000000 <=? ts) && (ts <=? 8640000000000000).

(** What the host supplies: the file system, [path], [vscode.Uri], [URL],
    the workspace folders, and the string built-ins used for display.
    [formatTimestamp] is the text that [formatTimestamp(ts)] returns for a
    valid time. *)
Record Host : Type := mkHost {
  existsSync : string -> bool;
  isAbsolute : string -> bool;
  path_join : string -> string -> string;
  path_relative : string -> string -> string;
  uri_parse_fsPath : string -> option string;
  uri_file_toString : string -> string;
  has_scheme : string -> bool;
  url_pathname : string -> UrlPath;
  workspaceFolders : list string;
  formatTimestamp : Z -> string;
  toUpperCase : string -> string;
  trim : string -> string;
  stringifyValue : JsVal -> string
}.

(** The character class of [escapeMarkdown]: a backslash, a backquote and
    [* _ { } [ ] ( ) # + - . ! | >]. *)
Definition backslash : Ascii.ascii := Ascii.ascii_of_nat 92.

Definition markdown_special (c : Ascii.ascii) : bool :=
  existsb (Ascii.eqb c) (backslash :: list_ascii_of_string "`*_{}[]()#+-.!|>").

(** [text.replace(/[...]/g, '\\$&')]: every character of the class gets a
    backslash in front. *)
Fixpoint escape_chars (text : string) : string :=
  match text with
  | EmptyString => EmptyString
  | String c rest =>
      if markdown_special c
      then String backslash (String c (escape_chars rest))
      else String c (escape_chars rest)
  end.

(** [escapeMarkdown(text)]. *)
Definition escapeMarkdown (text : string) : string :=
  if String.eqb text "" then "" else escape_chars text.







Section WithHost.

Variable host : Host.

(** [for (const folder of folders)]: the first joined candidate that
    exists. *)
Fixpoint first_existing (folders : list string) (rel : string) : option string :=
  match folders with
  | [] => None
  | folder :: rest =>
      let candidate := path_join host folder rel in
      if existsSync host candidate then Some candidate else first_existing rest rel
  end.

(** [urlString.replace(prefix, local)] for a prefix of [urlString]. *)
Definition replace_prefix (urlString pre local : string) : string :=
  local +:+ String.substring (String.length pre)
              (String.length urlString - String.length pre) urlString.

(** The loop of [mapUrlToPath] over the configured mappings. *)
Fixpoint map_by_mappings (mappings : list (option string * option string))
    (urlString : string) : option string :=
  match mappings with
  | [] => None
  | (urlPrefix, localPathPrefix) :: rest =>
      match str_or_null urlPrefix, str_or_null localPathPrefix with
      | Some pre, Some local =>
          if String.prefix pre urlString then
            let replaced := replace_prefix urlString pre local in
            if negb (isAbsolute host replaced) then
              match first_existing (workspaceFolders host) replaced with
              | Some candidate => Some candidate
              | None => map_by_mappings rest urlString
              end
            else if existsSync host replaced then Some replaced
            else map_by_mappings rest urlString
          else map_by_mappings rest urlString
      | _, _ => map_by_mappings rest urlString
      end
  end.

(** [mapUrlToPath(urlString)]. *)
Definition mapUrlToPath (cfg : Config) (urlString : string) : Resolution :=
  match map_by_mappings (pathMappings cfg) urlString with
  | Some p => Resolved p
  | None =>
      match url_pathname host urlString with
      | BadUrl => Unresolved
      | BadEscape => Raised
      | PathName urlPath =>
          if String.eqb urlPath "" then Unresolved
          else
            let normalizedPath :=
              if String.prefix "/" urlPath
              then String.substring 1 (String.length urlPath - 1) urlPath
              else urlPath in
            match first_existing (workspaceFolders host) normalizedPath with
            | Some candidate => Resolved candidate
            | None => Unresolved
            end
      end
  end.

(** The last two steps of [resolveEntryPath]: an absolute path that
    exists, or a relative path joined to a workspace folder. *)
Definition resolve_plain (raw : string) : Resolution :=
  if isAbsolute host raw && existsSync host raw then Resolved raw
  else if negb (isAbsolute host raw) then
    match first_existing (workspaceFolders host) raw with
    | Some candidate => Resolved candidate
    | None => Unresolved
    end
  else Unresolved.

(** The url step of [resolveEntryPath] and what follows it. *)
Definition resolve_url (cfg : Config) (raw : string) : Resolution :=
  if has_scheme host raw then
    match mapUrlToPath cfg raw with
    | Resolved mapped => Resolved mapped
    | Raised => Raised
    | Unresolved => resolve_plain raw
    end
  else resolve_plain raw.

(** [resolveEntryPath(entry)]. *)
Definition resolveEntryPath (cfg : Config) (entry : Entry) : Resolution :=
  match str_or_null (file entry) with
  | None => Unresolved
  | Some raw =>
      if String.prefix "file://" raw then
        match uri_parse_fsPath host raw with
        | None => Unresolved
        | Some fsPath =>
            if existsSync host fsPath then Resolved fsPath
            else resolve_url cfg raw
        end
      else resolve_url cfg raw
  end.

(** [shortenPath(filePath)]. *)
Fixpoint shorten_in (folders : list string) (filePath : string) : string :=
  match folders with
  | [] => filePath
  | root :: rest =>
      if String.prefix root filePath then path_relative host root filePath
      else shorten_in rest filePath
  end.

Definition shortenPath (filePath : string) : string :=
  if String.eqb filePath "" then "" else shorten_in (workspaceFolders host) filePath.

(** [${x || ''}] for an optional number and for a status. *)
Definition num_text (x : option Z) : string :=
  match num_or_null x with
  | Some n => num_str n
  | None => ""
  end.

Definition status_text (x : option (Z + string)) : string :=
  match status_or_null x with
  | Some (inl n) => num_str n
  | Some (inr s) => s
  | None => ""
  end.

(** [values.map(f).join(' ')]. *)
Fixpoint join_space (l : list string) : string :=
  match l with
  | [] => ""
  | [s] => s
  | s :: rest => s +:+ " " +:+ join_space rest
  end.

(** [formatFallbackText(entry)]. *)
Definition formatFallbackText (entry : Entry) : string :=
  if String.eqb (kind entry) "network" then
    trim host (str_or_else (method entry) "GET" +:+ " " +:+ str_or_else (url entry) ""
               +:+ " " +:+ status_text (status entry)
               +:+ " " +:+ num_text (durationMs entry) +:+ "ms")
  else if String.eqb (kind entry) "time" then
    trim host (str_or_else (label entry) "timer"
               +:+ " " +:+ num_text (durationMs entry) +:+ "ms")
  else
    match values entry with
    | _ :: _ => join_space (map (stringifyValue host) (values entry))
    | [] => text entry
    end.

(** The line that [appendOutput(entry)] writes for an entry with a valid
    timestamp. *)
Definition output_line (entry : Entry) : string :=
  let time := formatTimestamp host (timestamp entry) in
  let location :=
    match str_or_null (file entry), num_or_null (line entry) with
    | Some f, Some l => " " +:+ shortenPath f +:+ ":" +:+ num_str l
    | _, _ => ""
    end in
  let text := str_or (text entry) (formatFallbackText entry) in
  "[" +:+ time +:+ "] " +:+ toUpperCase host (level entry) +:+ location +:+ " " +:+ text.

(** [appendOutput(entry)]: one line written to the output channel, or
    [None] when [formatTimestamp(entry.timestamp)] throws, which is before
    anything is written. *)
Definition appendOutput (entry : Entry) (st : State) : option State :=
  if valid_time (timestamp entry)
  then Some (with_outputChannel (outputChannel st ++ [output_line entry]) st)
  else None.

(** [Math.max(0, (entry.line || 1) - 1)]. *)
Definition inline_line (entry : Entry) : Z :=
  Z.max 0 (default 1 (num_or_null (line entry)) - 1).

(** [updateInlineForEntry(entry)]. An exception of [resolveEntryPath]
    leaves [lineStateByUri] as it was. *)
Definition updateInlineForEntry (entry : Entry) (st : State) : State :=
  match resolveEntryPath (config st) entry with
  | Unresolved | Raised => st
  | Resolved resolvedPath =>
      let uri := uri_file_toString host resolvedPath in
      let line := inline_line entry in
      let lineState := default ∅ (lineStateByUri st !! uri) in
      let count :=
        match lineState !! line with
        | Some existing => ld_count existing + 1
        | None => 1
        end in
      with_lineStateByUri
        (<[uri := <[line := {| ld_entry := entry; ld_count := count |}]> lineState]>
           (lineStateByUri st))
        st
  end.

(** [formatInlineText(entry, count)], for an entry of the line state: its
    timestamp is valid, [appendOutput] has formatted it before the entry was
    retained. *)
Definition formatInlineText (cfg : Config) (entry : Entry) (count : Z) : string :=
  let maxLen := inlineMaxTextLength cfg in
  let prefix :=
    if inlineShowTimestamp cfg
    then "[" +:+ formatTimestamp host (timestamp entry) +:+ "] "
    else "" in
  let text := str_or (text entry) (formatFallbackText entry) in
  let text :=
    if str_len text >? maxLen
    then slice0 text (Z.max 0 (maxLen - 3)) +:+ "..."
    else text in
  let suffix :=
    if count >? 1 then " (+" +:+ num_str (count - 1) +:+ ")" else "" in
  " " +:+ prefix +:+ text +:+ suffix.

(** The entry that [addLogEntry] builds, given the value of [++logSeq]
    and of [Date.now()]. *)
Definition make_entry (payload : Payload) (clientId : Z) (now : Z) (newId : Z) : Entry :=
  let level :=
    sanitizeLevel (str_or_else (m_level payload) (str_or_else (m_kind payload) "log")) in
  {| id := newId;
     level := level;
     kind := str_or_else (m_kind payload) (str_or_else (m_type payload) level);
     text := str_or_else (m_text payload) "";
     values := default [] (m_values payload);
     timestamp := default now (m_timestamp payload);
     file := str_or_null (m_file payload);
     line := num_or_null (m_line payload);
     column := num_or_null (m_column payload);
     stack := str_or_null (m_stack payload);
     url := str_or_null (m_url payload);
     method := str_or_null (m_method payload);
     status := status_or_null (m_status payload);
     durationMs := num_or_null (m_durationMs payload);
     label := str_or_null (m_label payload);
     source := str_or_null (m_source payload);
     clientId := clientId |}.

(** [addLogEntry(payload, clientId)], with [now] the value of
    [Date.now()], as the state it leaves. When [appendOutput] throws, the
    entry has been stored and the store trimmed, and the rest of the
    function is not run. *)
Definition addLogEntry (payload : Payload) (clientId : Z) (now : Z) (st : State) : State :=
  let newId := logSeq st + 1 in
  let entry := make_entry payload clientId now newId in
  let st := with_logSeq newId st in
  let st := with_logs (logs st ++ [entry]) st in
  let st := trimLogs st in
  if bool_decide (level entry ∈ enabledLevels (config st)) then
    match appendOutput entry st with
    | Some st => if inlineEnabled st then updateInlineForEntry entry st else st
    | None => st
    end
  else st.

(** [clearLogs()]. *)
Definition clearLogs (st : State) : State :=
  with_outputChannel [] (with_lineStateByUri ∅ (with_logs [] st)).

(** [state.logs.find(item => item.id === entryId)]. *)
Definition find_entry (entryId : Z) (st : State) : option Entry :=
  List.find (fun item => id item =? entryId) (logs st).

(** The calls on the log store. *)
Inductive Op : Type :=
| Ingest (payload : Payload) (clientId : Z) (now : Z)
| Clear.

Definition apply_op (op : Op) (st : State) : State :=
  match op with
  | Ingest payload clientId now => addLogEntry payload clientId now st
  | Clear => clearLogs st
  end.

(** Running a sequence of calls, reading after each ingest the id of the
    entry that the call has left at the end of [state.logs] (there is none
    when the capacity is 0 and the entry is trimmed at once). *)
Fixpoint run_ops (ops : list Op) (st : State) : State * list Z :=
  match ops with
  | [] => (st, [])
  | op :: rest =>
      let assigned :=
        match op with
        | Ingest _ _ _ =>
            match last (logs (apply_op op st)) with
            | Some entry => [id entry]
            | None => []
            end
        | Clear => []
        end in
      let '(st'', ids) := run_ops rest (apply_op op st) in
      (st'', assigned ++ ids)
  end.

(** The number of ingest calls in a sequence. *)
Definition ingests (ops : list Op) : nat :=
  length (List.filter (fun op => match op with Ingest _ _ _ => true | Clear => false end) ops).

(** [{ entry, count }] stored for a line of a file, if any. *)
Definition line_state (st : State) (uri : string) (line : Z) : option LineData :=
  lineState ← lineStateByUri st !! uri; lineState !! line.

(** The occurrence count of a line, zero when it has no state. *)
Definition occurrenceCount (st : State) (uri : string) (line : Z) : Z :=
  match line_state st uri line with
  | Some d => ld_count d
  | None => 0
  end.

(** Keeping the last [m] entries of a list. *)
Definition keep_last {A : Type} (m : nat) (l : list A) : list A :=
  drop (length l - m) l.

(** A sequence of ingest calls, each with its payload, session id and
    clock value. *)
Definition ingest_all (calls : list (Payload * Z * Z)) (st : State) : State :=
  foldl (fun st '(payload, clientId, now) => addLogEntry payload clientId now st)
        st calls.

(** The entries those calls create, in order, the first with id
    [seq + 1]. *)
Fixpoint created (calls : list (Payload * Z * Z)) (seq : Z) : list Entry :=
  match calls with
  | [] => []
  | (payload, clientId, now) :: rest =>
      make_entry payload clientId now (seq + 1) :: created rest (seq + 1)
  end.

(** What [openEntry] does: nothing, a warning, an exception of
    [resolveEntryPath] that it lets through, or the document opened with
    the cursor at a zero-based line and column. *)
Inductive OpenOutcome : Type :=
| NoSuchEntry
| CannotResolve
| ResolveRaised
| OpenAt (uri : string) (line column : Z).

(** [openEntry(entryId)]. *)
Definition openEntry (entryId : Z) (st : State) : OpenOutcome :=
  match find_entry entryId st with
  | None => NoSuchEntry
  | Some entry =>
      match resolveEntryPath (config st) entry with
      | Unresolved => CannotResolve
      | Raised => ResolveRaised
      | Resolved resolvedPath =>
          OpenAt (uri_file_toString host resolvedPath)
                 (Z.max 0 (default 1 (num_or_null (line entry)) - 1))
                 (Z.max 0 (default 1 (num_or_null (column entry)) - 1))
      end
  end.







End WithHost.

(** *** The transport server and its sessions *)

(** One entry of [state.clients]: the socket of the connection and the
    metadata of the client, [{ remote }] merged with what its [hello]
    messages carry. *)
Record Session : Type := mkSession {
  ss_socket : nat;
  ss_info : gmap string JsVal
}.

(** The two fields of the status bar item that [updateStatusBar] writes. *)
Record StatusBar : Type := mkStatusBar {
  sb_text : string;
  sb_tooltip : string
}.

(** The part of [state] that the server acts on. [server] tells whether
    [state.server] holds a server. *)
Record Sessions : Type := mkSessions {
  server : bool;
  serverHost : string;
  serverPort : Z;
  clients : gmap Z Session;
  clientSeq : Z;
  statusBar : option StatusBar
}.

Definition with_statusBar (b : option StatusBar) (s : Sessions) : Sessions :=
  {| server := server s; serverHost := serverHost s; serverPort := serverPort s;
     clients := clients s; clientSeq := clientSeq s; statusBar := b |}.

Definition with_clients (c : gmap Z Session) (s : Sessions) : Sessions :=
  {| server := server s; serverHost := serverHost s; serverPort := serverPort s;
     clients := c; clientSeq := clientSeq s; statusBar := statusBar s |}.

(** What [updateStatusBar] writes for a state. *)
Definition status_of (s : Sessions) : StatusBar :=
  if server s then
    {| sb_text := "$(debug-console) Console Samurai: " +:+ serverHost s +:+ ":"
                  +:+ num_str (serverPort s) +:+ " ("
                  +:+ num_str (Z.of_nat (size (clients s))) +:+ ")";
       sb_tooltip := "Console Samurai server is running" |}
  else
    {| sb_text := "$(debug-console) Console Samurai: stopped";
       sb_tooltip := "Console Samurai server is stopped" |}.

(** [updateStatusBar()]. *)
Definition updateStatusBar (s : Sessions) : Sessions :=
  match statusBar s with
  | None => s
  | Some _ => with_statusBar (Some (status_of s)) s
  end.

(** [startServer()], with the [host] and [port] of [state.config];
    [listens] tells whether [new WebSocket.Server] returned or threw. *)
Definition startServer (host : string) (port : Z) (listens : bool) (s : Sessions)
  : Sessions :=
  if server s then updateStatusBar s
  else
    updateStatusBar
      {| server := listens; serverHost := host; serverPort := port;
         clients := clients s; clientSeq := clientSeq s; statusBar := statusBar s |}.

(** [stopServer()]. *)
Definition stopServer (s : Sessions) : Sessions :=
  if negb (server s) then updateStatusBar s
  else
    updateStatusBar
      {| server := false; serverHost := serverHost s; serverPort := serverPort s;
         clients := ∅; clientSeq := clientSeq s; statusBar := statusBar s |}.

(** The [connection] listener of the server, with the id it assigns. What
    it sends on the new socket is [sendConfigToClient] below. *)
Definition on_connection (socket : nat) (remote : JsVal) (s : Sessions) : Sessions * Z :=
  let clientId := clientSeq s + 1 in
  (updateStatusBar
     {| server := server s; serverHost := serverHost s; serverPort := serverPort s;
        clients := <[clientId := {| ss_socket := socket;
                                    ss_info := {["remote" := remote]} |}]> (clients s);
        clientSeq := clientId; statusBar := statusBar s |},
   clientId).

(** The [close] and [error] listeners of a client socket. *)
Definition on_client_gone (clientId : Z) (s : Sessions) : Sessions :=
  updateStatusBar (with_clients (delete clientId (clients s)) s).

(** The [hello] branch of [handleClientMessage]: [client] is
    [message.client], an object, or [None] when it is missing or [null]. *)
Definition on_hello (clientId : Z) (client : option (gmap string JsVal)) (s : Sessions)
  : Sessions :=
  match clients s !! clientId with
  | Some session =>
      with_clients
        (<[clientId := {| ss_socket := ss_socket session;
                          ss_info := default ∅ client ∪ ss_info session |}]> (clients s))
        s
  | None => s
  end.

(** What happens to the server: the commands, an [error] of the server,
    and the events of the client sockets. *)
Inductive ServerEvent : Type :=
| CallStartServer (host : string) (port : Z) (listens : bool)
| CallStopServer
| ServerFails
| ClientConnects (socket : nat) (remote : JsVal)
| ClientCloses (clientId : Z)
| ClientFails (clientId : Z)
| ClientHello (clientId : Z) (client : option (gmap string JsVal)).

Definition server_step (ev : ServerEvent) (s : Sessions) : Sessions :=
  match ev with
  | CallStartServer host port listens => startServer host port listens s
  | CallStopServer | ServerFails => stopServer s
  | ClientConnects socket remote => fst (on_connection socket remote s)
  | ClientCloses clientId | ClientFails clientId => on_client_gone clientId s
  | ClientHello clientId client => on_hello clientId client s
  end.

(** A sequence of events, with the ids given to the connections. *)
Fixpoint server_run (evs : list ServerEvent) (s : Sessions) : Sessions * list Z :=
  match evs with
  | [] => (s, [])
  | ev :: rest =>
      let assigned :=
        match ev with
        | ClientConnects socket remote => [snd (on_connection socket remote s)]
        | _ => []
        end in
      let '(s', ids) := server_run rest (server_step ev s) in
      (s', assigned ++ ids)
  end.

(** *** Configuration sent to the clients *)

(** The three settings of [state.config] that the clients are sent;
    [cs_logCaptureOptions] is [None] for a setting of [null]. *)
Record CaptureSettings : Type := mkCaptureSettings {
  cs_networkEnabled : bool;
  cs_captureErrors : bool;
  cs_logCaptureOptions : option Serializer.Options
}.

(** The [config] object of a [config] message. *)
Definition config_message (settings : CaptureSettings) : Client.ConfigPatch :=
  {| Client.o_host := None; Client.o_port := None; Client.o_autoStart := None;
     Client.o_captureConsole := None;
     Client.o_captureErrors := Some (cs_captureErrors settings);
     Client.o_networkEnabled := Some (cs_networkEnabled settings);
     Client.o_logCaptureOptions := Some (cs_logCaptureOptions settings) |}.

(** [sendConfigToClient(ws)]: the message sent on the socket, if any;
    [ws_open] tells whether [ws.readyState] is [OPEN]. *)
Definition sendConfigToClient (settings : CaptureSettings) (ws_open : bool)
  : option Client.ConfigPatch :=
  if ws_open then Some (config_message settings) else None.

(** [broadcastConfig()]: the messages sent, each with its socket. *)
Definition broadcastConfig (settings : CaptureSettings) (is_open : nat -> bool)
    (s : Sessions) : list (nat * Client.ConfigPatch) :=
  omap (fun '(_, session) =>
          (fun m => (ss_socket session, m))
            <$> sendConfigToClient settings (is_open (ss_socket session)))
       (map_to_list (clients s)).

(** [toggleNetwork()], on the settings. *)
Definition toggleNetwork (settings : CaptureSettings) : CaptureSettings :=
  {| cs_networkEnabled := negb (cs_networkEnabled settings);
     cs_captureErrors := cs_captureErrors settings;
     cs_logCaptureOptions := cs_logCaptureOptions settings |}.

(** *** Notions and examples used by the properties *)

(** The payload with its [line] replaced. *)
Definition with_m_line (l : option Z) (p : Payload) : Payload :=
  {| m_type := m_type p; m_level := m_level p; m_kind := m_kind p; m_text := m_text p;
     m_values := m_values p; m_timestamp := m_timestamp p; m_file := m_file p;
     m_line := l; m_column := m_column p; m_stack := m_stack p; m_url := m_url p;
     m_method := m_method p; m_status := m_status p; m_durationMs := m_durationMs p;
     m_label := m_label p; m_source := m_source p |}.

(** An optional string that is absent or empty. *)
Definition missing (x : option string) : Prop := x = None \/ x = Some "".

(** The entries of the store carry increasing ids, none above the
    counter. *)
Definition ids_in_order (st : State) : Prop :=
  StronglySorted Z.lt (id <$> logs st) /\ Forall (fun e => id e <= logSeq st) (logs st).

(** Every level held by the store or by the line state is one of
    [LEVELS]. *)
Definition levels_known (st : State) : Prop :=
  Forall (fun e => level e ∈ LEVELS) (logs st)
  /\ forall uri ln d, line_state st uri ln = Some d -> level (ld_entry d) ∈ LEVELS.



(** The state with another capacity. *)
Definition with_maxLogEntries (m : Z) (st : State) : State :=
  {| logs := logs st; logSeq := logSeq st; maxLogEntries := m;
     inlineEnabled := inlineEnabled st; lineStateByUri := lineStateByUri st;
     config := config st; outputChannel := outputChannel st |}.

(** What the host shows of a state: everything but the stored entries and
    the capacity. *)
Definition shown_part (st : State) : State := with_logs [] (with_maxLogEntries 0 st).

(** Reading Markdown: a backslash makes the character after it literal. *)
Fixpoint unescape (s : string) : string :=
  match s with
  | EmptyString => EmptyString
  | String c rest =>
      if Ascii.eqb c backslash then
        match rest with
        | EmptyString => String c EmptyString
        | String d rest' => String d (unescape rest')
        end
      else String c (unescape rest)
  end.

(** Whether a character of the class stands in [s] without a backslash in
    front of it (a backslash at the very end counts). *)
Fixpoint has_bare_special (s : string) : bool :=
  match s with
  | EmptyString => false
  | String c rest =>
      if Ascii.eqb c backslash then
        match rest with
        | EmptyString => true
        | String _ rest' => has_bare_special rest'
        end
      else markdown_special c || has_bare_special rest
  end.

(** The number of characters of the class in [s]. *)
Fixpoint count_special (s : string) : nat :=
  match s with
  | EmptyString => 0
  | String c rest => (if markdown_special c then 1 else 0) + count_special rest
  end.

(** A host with one workspace folder, [/repo], that holds [src/x.js]. *)
Definition example_host : Host :=
  {| existsSync := fun p => String.eqb p "/repo/src/x.js";
     isAbsolute := String.prefix "/";
     path_join := fun a b => a +:+ "/" +:+ b;
     path_relative := fun root p =>
       String.substring (String.length root + 1)
         (String.length p - (String.length root + 1)) p;
     uri_parse_fsPath := fun _ => None;
     uri_file_toString := fun p => "file://" +:+ p;
     has_scheme := fun _ => false;
     url_pathname := fun _ => BadUrl;
     workspaceFolders := ["/repo"];
     formatTimestamp := fun _ => "12:00:00.000";
     toUpperCase := fun s => s;
     trim := fun s => s;
     stringifyValue := fun _ => "" |}.

Definition example_config : Config :=
  {| enabledLevels := LEVELS; inlineMaxTextLength := 120; inlineShowTimestamp := false;
     pathMappings := [] |}.

(** The store as [activate] leaves it, with a capacity of [capacity]. *)
Definition example_store (capacity : Z) : State :=
  {| logs := []; logSeq := 0; maxLogEntries := capacity; inlineEnabled := true;
     lineStateByUri := ∅; config := example_config; outputChannel := [] |}.

(** A [console.log] event with the given text and location. *)
Definition log_payload (text : string) (file : string) (line : Z) : Payload :=
  {| m_type := Some "log"; m_level := Some "log"; m_kind := Some "log";
     m_text := Some text; m_values := Some [JStr text]; m_timestamp := Some 1000;
     m_file := Some file; m_line := Some line; m_column := Some 1;
     m_stack := None; m_url := None; m_method := None; m_status := None;
     m_durationMs := None; m_label := None; m_source := Some "node" |}.

(** A message of a custom kind, without a level. *)
Definition custom_payload : Payload :=
  {| m_type := Some "log"; m_level := None; m_kind := Some "custom";
     m_text := Some "x"; m_values := None; m_timestamp := Some 1000;
     m_file := None; m_line := None; m_column := None;
     m_stack := None; m_url := None; m_method := None; m_status := None;
     m_durationMs := None; m_label := None; m_source := None |}.

(** A message whose timestamp is beyond the range of [Date]. *)
Definition late_payload : Payload :=
  {| m_type := Some "log"; m_level := Some "log"; m_kind := Some "log";
     m_text := Some "late"; m_values := None; m_timestamp := Some 8640000000000001;
     m_file := Some "/repo/src/x.js"; m_line := Some 10; m_column := Some 1;
     m_stack := None; m_url := None; m_method := None; m_status := None;
     m_durationMs := None; m_label := None; m_source := None |}.

Definition first_event : Entry := make_entry (log_payload "first" "/repo/src/x.js" 10) 1 0 1.
Definition second_event : Entry := make_entry (log_payload "second" "src/x.js" 10) 1 0 2.



End Extension.

(** ** The wire between a client and the host *)

Module Wire.
Import Serializer.

Section Frames.

(** What [JSON.stringify] writes in a frame for a value of the program that
    the payload holds as it is, read back by [JSON.parse]; [None] when it
    leaves the value out ([undefined], a function, a symbol). *)
Variable raw_json : Value -> option Extension.JsVal.

(** [JSON.parse(JSON.stringify(v))] for a serialized value in a frame that
    was written: a value that [JSON.stringify] leaves out becomes [null]
    as an array element and is dropped as a property. *)
Fixpoint to_json (v : SafeValue) : Extension.JsVal :=
  match v with
  | SNull | SUndefined => Extension.JNull
  | SNumber n => Extension.JNum n
  | SBoolean b => Extension.JBool b
  | SString s => Extension.JStr s
  | SRaw x => default Extension.JNull (raw_json x)
  | SArray items => Extension.JArr (List.map to_json items)
  | SObject props =>
      Extension.JObj
        ((fix props_to_json (ps : list (string * SafeValue)) :=
            match ps with
            | [] => []
            | (_, SUndefined) :: rest => props_to_json rest
            | (key, SRaw x) :: rest =>
                match raw_json x with
                | Some j => (key, j) :: props_to_json rest
                | None => props_to_json rest
                end
            | (key, x) :: rest => (key, to_json x) :: props_to_json rest
            end) props)
  end.

(** The [log] message that the host parses from the frame that [send]
    writes for a payload built at a capture point: [type] is ['log'], and
    a field that the payload holds as [null] or does not have is absent. *)
Definition log_message (l : Client.LogPayload) : Extension.Payload :=
  {| Extension.m_type := Some "log";
     Extension.m_level := Some (Client.p_level l);
     Extension.m_kind := Some (Client.p_kind l);
     Extension.m_text := Some (Client.p_text l);
     Extension.m_values := List.map to_json <$> Client.p_values l;
     Extension.m_timestamp := Some (Client.p_timestamp l);
     Extension.m_file := Client.p_file l;
     Extension.m_line := Client.p_line l;
     Extension.m_column := Client.p_column l;
     Extension.m_stack := Client.p_stack l;
     Extension.m_url := Client.p_url l;
     Extension.m_method := Client.p_method l;
     Extension.m_status := Client.p_status l;
     Extension.m_durationMs := Client.p_durationMs l;
     Extension.m_label := Client.p_label l;
     Extension.m_source := Some (Client.p_source l) |}.

End Frames.

End Wire.

(** * Properties *)

(** ** The value serializer *)

Section SerializerFacts.
Import Serializer.

Lemma serialize_elems_total ser vs arr seen :
  ser_total ser -> exists r, serialize_elems ser vs arr seen = Some r.
Proof.
  intros Ht. revert arr seen.
  induction vs as [|v vs IH]; intros arr seen; simpl; [eauto|].
  destruct (Ht v seen) as ([[out s']|] & ->); [apply IH|eauto].
Qed.

Lemma serialize_props_total ser ps obj seen :
  ser_total ser -> exists r, serialize_props ser ps obj seen = Some r.
Proof.
  intros Ht. revert obj seen.
  induction ps as [|[k v] ps IH]; intros obj seen; simpl; [eauto|].
  destruct (Ht v seen) as ([[out s']|] & ->); [apply IH|eauto].
Qed.

Lemma serialize_elems_returns ser vs arr seen :
  ser_returns ser ->
  exists arr' seen', serialize_elems ser vs arr seen = Some (Returned (arr', seen')).
Proof.
  intros Ht. revert arr seen.
  induction vs as [|v vs IH]; intros arr seen; simpl; [eauto|].
  destruct (Ht v seen) as (out & s' & ->). apply IH.
Qed.

Lemma serialize_props_returns ser ps obj seen :
  ser_returns ser ->
  exists obj' seen', serialize_props ser ps obj seen = Some (Returned (obj', seen')).
Proof.
  intros Ht. revert obj seen.
  induction ps as [|[k v] ps IH]; intros obj seen; simpl; [eauto|].
  destruct (Ht v seen) as (out & s' & ->). apply IH.
Qed.

Lemma serialize_elems_grows ser vs arr seen arr' seen' :
  ser_grows ser ->
  serialize_elems ser vs arr seen = Some (Returned (arr', seen')) -> seen ⊆ seen'.
Proof.
  intros Hg. revert arr seen.
  induction vs as [|v vs IH]; intros arr seen; simpl.
  - intros [= _ <-]. done.
  - destruct (ser v seen) as [[[out s1]|]|] eqn:E; [|done|done].
    intros H. apply IH in H. apply Hg in E. set_solver.
Qed.

Lemma serialize_props_grows ser ps obj seen obj' seen' :
  ser_grows ser ->
  serialize_props ser ps obj seen = Some (Returned (obj', seen')) -> seen ⊆ seen'.
Proof.
  intros Hg. revert obj seen.
  induction ps as [|[k v] ps IH]; intros obj seen; simpl.
  - intros [= _ <-]. done.
  - destruct (ser v seen) as [[[out s1]|]|] eqn:E; [|done|done].
    intros H. apply IH in H. apply Hg in E. set_solver.
Qed.

Lemma serialize_elems_extends ser1 ser2 vs arr seen r :
  ser_extends ser1 ser2 ->
  serialize_elems ser1 vs arr seen = Some r -> serialize_elems ser2 vs arr seen = Some r.
Proof.
  intros He. revert arr seen.
  induction vs as [|v vs IH]; intros arr seen; simpl; [done|].
  destruct (ser1 v seen) as [[[out s1]|]|] eqn:E; [| |done]; rewrite (He _ _ _ E);
    [apply IH|done].
Qed.

Lemma serialize_props_extends ser1 ser2 ps obj seen r :
  ser_extends ser1 ser2 ->
  serialize_props ser1 ps obj seen = Some r -> serialize_props ser2 ps obj seen = Some r.
Proof.
  intros He. revert obj seen.
  induction ps as [|[k v] ps IH]; intros obj seen; simpl; [done|].
  destruct (ser1 v seen) as [[[out s1]|]|] eqn:E; [| |done]; rewrite (He _ _ _ E);
    [apply IH|done].
Qed.

Lemma serialize_container_total ser options a depth seen elems props :
  ser_total ser ->
  exists r, serialize_container ser options a depth seen elems props = Some r.
Proof.
  intros Ht. unfold serialize_container.
  case_bool_decide; [eauto|].
  destruct (depth >=? maxDepth options); [destruct elems; eauto|].
  destruct elems as [l|].
  - unfold serialize_array.
    destruct (serialize_elems_total ser
                (firstn (Z.to_nat (Z.min (Z.of_nat (length l)) (maxArray options))) l)
                [] ({[a]} ∪ seen) Ht) as ([[arr s']|] & ->); [|eauto].
    destruct (_ >? _); eauto.
  - unfold serialize_object.
    destruct (serialize_props_total ser
                (firstn (Z.to_nat (Z.min (Z.of_nat (length props)) (maxProps options))) props)
                [] ({[a]} ∪ seen) Ht) as ([[obj s']|] & ->); [|eauto].
    destruct (_ >? _); eauto.
Qed.

Lemma serialize_container_returns ser options a depth seen elems props :
  ser_returns ser ->
  exists out seen',
    serialize_container ser options a depth seen elems props = Some (Returned (out, seen')).
Proof.
  intros Ht. unfold serialize_container.
  case_bool_decide; [eauto|].
  destruct (depth >=? maxDepth options); [destruct elems; eauto|].
  destruct elems as [l|].
  - unfold serialize_array.
    destruct (serialize_elems_returns ser
                (firstn (Z.to_nat (Z.min (Z.of_nat (length l)) (maxArray options))) l)
                [] ({[a]} ∪ seen) Ht) as (arr & s' & ->).
    destruct (_ >? _); eauto.
  - unfold serialize_object.
    destruct (serialize_props_returns ser
                (firstn (Z.to_nat (Z.min (Z.of_nat (length props)) (maxProps options))) props)
                [] ({[a]} ∪ seen) Ht) as (obj & s' & ->).
    destruct (_ >? _); eauto.
Qed.

Lemma serialize_container_grows ser options a depth seen elems props out seen' :
  ser_grows ser ->
  serialize_container ser options a depth seen elems props = Some (Returned (out, seen')) ->
  seen ⊆ seen'.
Proof.
  intros Hg. unfold serialize_container.
  case_bool_decide; [by intros [= _ <-]|].
  destruct (depth >=? maxDepth options); [destruct elems; by intros [= _ <-]|].
  destruct elems as [l|].
  - unfold serialize_array.
    destruct (serialize_elems _ _ _ _) as [[[arr s1]|]|] eqn:E; [|done|done].
    apply serialize_elems_grows in E; [|done].
    destruct (_ >? _); intros [= _ <-]; set_solver.
  - unfold serialize_object.
    destruct (serialize_props _ _ _ _) as [[[obj s1]|]|] eqn:E; [|done|done].
    apply serialize_props_grows in E; [|done].
    destruct (_ >? _); intros [= _ <-]; set_solver.
Qed.

Lemma serialize_container_extends ser1 ser2 options a depth seen elems props r :
  ser_extends ser1 ser2 ->
  serialize_container ser1 options a depth seen elems props = Some r ->
  serialize_container ser2 options a depth seen elems props = Some r.
Proof.
  intros He. unfold serialize_container.
  case_bool_decide; [done|].
  destruct (depth >=? maxDepth options); [done|].
  destruct elems as [l|].
  - unfold serialize_array.
    destruct (serialize_elems ser1 _ _ _) as [c|] eqn:E; [|done].
    by rewrite (serialize_elems_extends _ _ _ _ _ _ He E).
  - unfold serialize_object.
    destruct (serialize_props ser1 _ _ _) as [c|] eqn:E; [|done].
    by rewrite (serialize_props_extends _ _ _ _ _ _ He E).
Qed.

(** The descent is never entered at or below the depth limit, so the
    recursive call is not even consulted there. *)
Lemma serialize_container_at_limit ser options a depth seen elems props :
  maxDepth options <= depth ->
  exists out,
    serialize_container ser options a depth seen elems props = Some (Returned (out, seen)).
Proof.
  intros Hd. unfold serialize_container.
  case_bool_decide; [eauto|].
  destruct (depth >=? maxDepth options) eqn:E; [destruct elems; eauto|lia].
Qed.

(** More fuel never changes a result. *)
Lemma serializeValue_fuel_mono fuel :
  forall fuel' h browser value options depth seen r,
    (fuel <= fuel')%nat ->
    serializeValue fuel h browser value options depth seen = Some r ->
    serializeValue fuel' h browser value options depth seen = Some r.
Proof.
  induction fuel as [|fuel IH]; intros fuel' h browser value options depth seen r Hle; [done|].
  destruct fuel' as [|fuel']; [lia|].
  assert (He : ser_extends
                 (fun v s => serializeValue fuel h browser v options (depth + 1) s)
                 (fun v s => serializeValue fuel' h browser v options (depth + 1) s)).
  { intros v s r' Hr. apply (IH fuel'); [lia|done]. }
  destruct value; simpl; try done.
  destruct (h a) as [| |t i ps|l|ps]; try done.
  - destruct browser; [done|]. by apply serialize_container_extends.
  - by apply serialize_container_extends.
  - by apply serialize_container_extends.
Qed.

(** The [seen] set only grows. *)
Lemma serializeValue_grows fuel :
  forall h browser value options depth seen out seen',
    serializeValue fuel h browser value options depth seen = Some (Returned (out, seen')) ->
    seen ⊆ seen'.
Proof.
  induction fuel as [|fuel IH]; intros h browser value options depth seen out seen'; [done|].
  assert (Hg : ser_grows (fun v s => serializeValue fuel h browser v options (depth + 1) s)).
  { intros v s o s' Hr. by eapply IH. }
  destruct value; simpl; try by intros [= _ <-].
  - destruct (_ >? _); by intros [= _ <-].
  - destruct (h a) as [| [iso|] |t i ps|l|ps]; try by intros [= _ <-].
    + destruct browser; [by intros [= _ <-]|]. by apply serialize_container_grows.
    + by apply serialize_container_grows.
    + by apply serialize_container_grows.
Qed.

(** One step of the recursion on a reference. *)
Lemma serializeValue_ref fuel h browser a options depth seen :
  serializeValue (S fuel) h browser (VRef a) options depth seen
  = match h a with
    | HError name message stack =>
        Some (Returned (SObject [("name", raw name); ("message", raw message);
                                 ("stack", raw stack)], seen))
    | HDate (Some iso) => Some (Returned (SString iso, seen))
    | HDate None => Some RangeError
    | HElement tagName id props =>
        if browser
        then Some (Returned (SString ("<" +:+ toLowerCase tagName
                                       +:+ (if String.eqb id "" then "" else "#" +:+ id)
                                       +:+ ">"), seen))
        else serialize_container
               (fun v s => serializeValue fuel h browser v options (depth + 1) s)
               options a depth seen None props
    | HArray elems =>
        serialize_container
          (fun v s => serializeValue fuel h browser v options (depth + 1) s)
          options a depth seen (Some elems) []
    | HObject props =>
        serialize_container
          (fun v s => serializeValue fuel h browser v options (depth + 1) s)
          options a depth seen None props
    end.
Proof. reflexivity. Qed.

(** [maxDepth - depth + 1] units of fuel always give a result. *)
Lemma serializeValue_total_aux n :
  forall h browser value options depth seen,
    Z.to_nat (maxDepth options - depth) = n ->
    exists r, serializeValue (S n) h browser value options depth seen = Some r.
Proof.
  induction n as [|n IH]; intros h browser value options depth seen Hn.
  - destruct value; try (simpl; eauto; fail).
    + simpl. destruct (_ >? _); eauto.
    + rewrite serializeValue_ref.
      destruct (h a) as [| [iso|] |t i ps|l|ps]; eauto.
      * destruct browser; [eauto|].
        edestruct serialize_container_at_limit as (out & ->); [|eauto]. lia.
      * edestruct serialize_container_at_limit as (out & ->); [|eauto]. lia.
      * edestruct serialize_container_at_limit as (out & ->); [|eauto]. lia.
  - assert (Ht : ser_total
                   (fun v s => serializeValue (S n) h browser v options (depth + 1) s)).
    { intros v s. apply IH. lia. }
    destruct value; try (simpl; eauto; fail).
    + simpl. destruct (_ >? _); eauto.
    + rewrite serializeValue_ref.
      destruct (h a) as [| [iso|] |t i ps|l|ps]; eauto.
      * destruct browser; [eauto|]. by apply serialize_container_total.
      * by apply serialize_container_total.
      * by apply serialize_container_total.
Qed.

Lemma serializeValue_total h browser value options depth seen :
  exists r,
    serializeValue (enough_fuel options depth) h browser value options depth seen = Some r.
Proof. by apply serializeValue_total_aux. Qed.

(** On a heap without an invalid date the call returns. *)
Lemma serializeValue_returns_aux n :
  forall h browser value options depth seen,
    dates_valid h -> Z.to_nat (maxDepth options - depth) = n ->
    exists out seen',
      serializeValue (S n) h browser value options depth seen = Some (Returned (out, seen')).
Proof.
  induction n as [|n IH]; intros h browser value options depth seen Hv Hn.
  - destruct value; try (simpl; eauto; fail).
    + simpl. destruct (_ >? _); eauto.
    + rewrite serializeValue_ref. pose proof (Hv a) as Ha.
      destruct (h a) as [| [iso|] |t i ps|l|ps]; eauto; [done| | |].
      * destruct browser; [eauto|].
        edestruct serialize_container_at_limit as (out & ->); [|eauto]. lia.
      * edestruct serialize_container_at_limit as (out & ->); [|eauto]. lia.
      * edestruct serialize_container_at_limit as (out & ->); [|eauto]. lia.
  - assert (Ht : ser_returns
                   (fun v s => serializeValue (S n) h browser v options (depth + 1) s)).
    { intros v s. apply IH; [done|lia]. }
    destruct value; try (simpl; eauto; fail).
    + simpl. destruct (_ >? _); eauto.
    + rewrite serializeValue_ref. pose proof (Hv a) as Ha.
      destruct (h a) as [| [iso|] |t i ps|l|ps]; eauto; [done| | |].
      * destruct browser; [eauto|]. by apply serialize_container_returns.
      * by apply serialize_container_returns.
      * by apply serialize_container_returns.
Qed.

Lemma serializeValue_returns h browser value options depth seen :
  dates_valid h ->
  exists out seen',
    serializeValue (enough_fuel options depth) h browser value options depth seen
    = Some (Returned (out, seen')).
Proof. intros Hv. by apply serializeValue_returns_aux. Qed.

Lemma serializeValues_returns h browser options values :
  dates_valid h ->
  exists outs, serializeValues h browser options values = Returned outs.
Proof.
  intros Hv. induction values as [|value rest [outs IH]]; cbn [serializeValues]; [eauto|].
  unfold serialize_root.
  destruct (serializeValue_returns h browser value options 0 ∅ Hv) as (out & s' & ->).
  rewrite IH. eauto.
Qed.

Lemma serializeValue_container fuel h browser a options depth seen :
  is_container browser (h a) = true ->
  serializeValue (S fuel) h browser (VRef a) options depth seen
  = serialize_container (fun v s => serializeValue fuel h browser v options (depth + 1) s)
      options a depth seen (elems_of (h a)) (props_of (h a)).
Proof.
  intros Hc. rewrite serializeValue_ref. destruct (h a) as [| |t i ps|l|ps]; try done.
  by destruct browser.
Qed.

(** A value that is in [seen] is answered by the marker at once. *)
Lemma serializeValue_seen fuel h browser a options depth seen :
  is_container browser (h a) = true -> a ∈ seen ->
  serializeValue (S fuel) h browser (VRef a) options depth seen
  = Some (Returned (SString "[Circular]", seen)).
Proof.
  intros Hc Hin. rewrite serializeValue_container by done.
  unfold serialize_container. by rewrite bool_decide_eq_true_2.
Qed.

(** A value at or below the depth limit is answered by the depth marker at
    once. *)
Lemma serializeValue_at_limit fuel h browser a options depth seen :
  is_container browser (h a) = true -> a ∉ seen -> maxDepth options <= depth ->
  serializeValue (S fuel) h browser (VRef a) options depth seen
  = Some (Returned (SString match elems_of (h a) with
                            | Some l => "[Array(" +:+ num_str (Z.of_nat (length l)) +:+ ")]"
                            | None => "[Object]"
                            end, seen)).
Proof.
  intros Hc Hn Hd. rewrite serializeValue_container by done.
  unfold serialize_container. rewrite bool_decide_eq_false_2 by done.
  destruct (depth >=? maxDepth options) eqn:E; [|lia].
  by destruct (elems_of (h a)).
Qed.

(** A value the descent enters is in [seen] afterwards. *)
Lemma serialize_container_adds ser options a depth seen elems props out seen' :
  ser_grows ser -> a ∉ seen -> depth < maxDepth options ->
  serialize_container ser options a depth seen elems props = Some (Returned (out, seen')) ->
  a ∈ seen'.
Proof.
  intros Hg Hn Hd. unfold serialize_container.
  rewrite bool_decide_eq_false_2 by done.
  destruct (depth >=? maxDepth options) eqn:E; [lia|].
  destruct elems as [l|].
  - unfold serialize_array.
    destruct (serialize_elems _ _ _ _) as [[[arr s1]|]|] eqn:E1; [|done|done].
    apply serialize_elems_grows in E1; [|done].
    destruct (_ >? _); intros [= _ <-]; set_solver.
  - unfold serialize_object.
    destruct (serialize_props _ _ _ _) as [[[obj s1]|]|] eqn:E1; [|done|done].
    apply serialize_props_grows in E1; [|done].
    destruct (_ >? _); intros [= _ <-]; set_solver.
Qed.

(** The loop pushes one output per element, in order. *)
Lemma serialize_elems_acc ser vs arr seen :
  serialize_elems ser vs arr seen
  = match serialize_elems ser vs [] seen with
    | Some (Returned (items, seen')) => Some (Returned (arr ++ items, seen'))
    | Some RangeError => Some RangeError
    | None => None
    end.
Proof.
  revert arr seen.
  induction vs as [|v vs IH]; intros arr seen; simpl.
  - by rewrite app_nil_r.
  - destruct (ser v seen) as [[[out s1]|]|]; [|done|done].
    rewrite (IH (arr ++ [out])), (IH [out]).
    destruct (serialize_elems ser vs [] s1) as [[[items s2]|]|]; [|done|done].
    by rewrite <- app_assoc.
Qed.

Lemma serialize_elems_length ser vs seen items seen' :
  serialize_elems ser vs [] seen = Some (Returned (items, seen')) ->
  length items = length vs.
Proof.
  revert seen items.
  induction vs as [|v vs IH]; intros seen items; simpl.
  - by intros [= <- _].
  - destruct (ser v seen) as [[[out s1]|]|]; [|done|done].
    rewrite serialize_elems_acc.
    destruct (serialize_elems ser vs [] s1) as [[[rest s2]|]|] eqn:E; [|done|done].
    intros [= <- <-]. simpl. f_equal. by eapply IH.
Qed.

(** Each element is serialized with a [seen] set that contains the one the
    loop started with, and its output sits at the element's index. *)
Lemma serialize_elems_lookup ser vs seen items seen' i v :
  ser_grows ser ->
  serialize_elems ser vs [] seen = Some (Returned (items, seen')) ->
  vs !! i = Some v ->
  exists s out s', seen ⊆ s /\ ser v s = Some (Returned (out, s')) /\ items !! i = Some out.
Proof.
  intros Hg. revert seen items i.
  induction vs as [|w vs IH]; intros seen items i; simpl; [done|].
  destruct (ser w seen) as [[[out s1]|]|] eqn:E; [|done|done].
  rewrite serialize_elems_acc.
  destruct (serialize_elems ser vs [] s1) as [[[rest s2]|]|] eqn:Hrun; [|done|done].
  intros [= <- <-] Hi. destruct i as [|i]; simpl in Hi.
  - injection Hi as <-. exists seen, out, s1. done.
  - destruct (IH _ _ _ Hrun Hi) as (s & o & s' & Hsub & Hser & Hlook).
    exists s, o, s'. split; [|done]. apply Hg in E. set_solver.
Qed.

Lemma set_own_get_eq key v obj : obj_get key (set_own key v obj) = Some v.
Proof.
  induction obj as [|[k w] obj IH]; simpl.
  - by rewrite String.eqb_refl.
  - destruct (String.eqb k key) eqn:E; simpl; by rewrite E.
Qed.

Lemma set_own_get_ne key key' v obj :
  key <> key' -> obj_get key (set_own key' v obj) = obj_get key obj.
Proof.
  intros Hne. induction obj as [|[k w] obj IH]; simpl.
  - destruct (String.eqb key' key) eqn:E; [|done].
    apply String.eqb_eq in E. congruence.
  - destruct (String.eqb k key') eqn:E; simpl.
    + apply String.eqb_eq in E. subst k.
      destruct (String.eqb key' key) eqn:E'; [|done].
      apply String.eqb_eq in E'. congruence.
    + by rewrite IH.
Qed.

(** An assignment is read back under its key, unless the key is
    [__proto__]. *)
Lemma obj_get_set_eq key v obj :
  key <> "__proto__" -> obj_get key (obj_set key v obj) = Some v.
Proof.
  intros Hp. unfold obj_set. destruct (String.eqb key "__proto__") eqn:E.
  - by apply String.eqb_eq in E.
  - apply set_own_get_eq.
Qed.

Lemma obj_get_set_ne key key' v obj :
  key <> key' -> obj_get key (obj_set key' v obj) = obj_get key obj.
Proof.
  intros Hne. unfold obj_set. destruct (String.eqb key' "__proto__"); [done|].
  by apply set_own_get_ne.
Qed.

(** An assignment to [__proto__] changes no own property. *)
Lemma obj_set_proto v obj : obj_set "__proto__" v obj = obj.
Proof. reflexivity. Qed.

(** Keys the loop does not visit keep their value. *)
Lemma serialize_props_other ser ps obj seen obj' seen' key :
  key ∉ ps.*1 ->
  serialize_props ser ps obj seen = Some (Returned (obj', seen')) ->
  obj_get key obj' = obj_get key obj.
Proof.
  revert obj seen.
  induction ps as [|[k v] ps IH]; intros obj seen Hnot; simpl.
  - by intros [= <- _].
  - destruct (ser v seen) as [[[out s1]|]|]; [|done|done].
    simpl in Hnot. apply not_elem_of_cons in Hnot as [Hne Hrest].
    intros H. rewrite (IH _ _ Hrest H).
    by apply obj_get_set_ne.
Qed.

(** Each visited property is serialized with a [seen] set that contains
    the one the loop started with, and its output is stored at its key,
    unless the key is [__proto__]. *)
Lemma serialize_props_lookup ser ps obj seen obj' seen' i key v :
  ser_grows ser -> NoDup ps.*1 ->
  serialize_props ser ps obj seen = Some (Returned (obj', seen')) ->
  ps !! i = Some (key, v) ->
  exists s out s',
    seen ⊆ s /\ ser v s = Some (Returned (out, s'))
    /\ (key <> "__proto__" -> obj_get key obj' = Some out).
Proof.
  intros Hg. revert obj seen i.
  induction ps as [|[k w] ps IH]; intros obj seen i Hnd; simpl; [done|].
  apply NoDup_cons in Hnd as [Hk Hnd]. simpl in Hk.
  destruct (ser w seen) as [[[out s1]|]|] eqn:E; [|done|done].
  intros H Hi. destruct i as [|i]; simpl in Hi.
  - injection Hi as <- <-. exists seen, out, s1. split; [done|]. split; [done|].
    intros Hp. rewrite (serialize_props_other _ _ _ _ _ _ _ Hk H).
    by apply obj_get_set_eq.
  - destruct (IH _ _ _ Hnd H Hi) as (s & o & s' & Hsub & Hser & Hlook).
    exists s, o, s'. split; [|done]. apply Hg in E. set_solver.
Qed.

Lemma serializeValue_ser_total h browser options depth n :
  Z.to_nat (maxDepth options - (depth + 1)) = n ->
  ser_total (fun v s => serializeValue (S n) h browser v options (depth + 1) s).
Proof. intros Hn v s. by apply serializeValue_total_aux. Qed.

Lemma serializeValue_ser_grows h browser options depth n :
  ser_grows (fun v s => serializeValue n h browser v options (depth + 1) s).
Proof. intros v s out s' H. by eapply serializeValue_grows. Qed.

Lemma enough_fuel_descend options depth :
  depth < maxDepth options ->
  enough_fuel options depth = S (enough_fuel options (depth + 1)).
Proof. intros Hd. unfold enough_fuel. f_equal. lia. Qed.

(** The descent into an array that is not in [seen], above the depth limit. *)
Lemma serializeValue_array h browser a elems options depth seen :
  h a = HArray elems -> a ∉ seen -> depth < maxDepth options ->
  serializeValue (enough_fuel options depth) h browser (VRef a) options depth seen
  = serialize_array
      (fun v s => serializeValue (enough_fuel options (depth + 1)) h browser v options
                    (depth + 1) s)
      options elems ({[a]} ∪ seen).
Proof.
  intros Ha Hn Hd. rewrite enough_fuel_descend by done.
  rewrite serializeValue_container by (by rewrite Ha).
  unfold serialize_container. rewrite bool_decide_eq_false_2 by done.
  destruct (depth >=? maxDepth options) eqn:E; [lia|]. by rewrite Ha.
Qed.

(** The descent into a plain object that is not in [seen], above the depth
    limit. *)
Lemma serializeValue_object h browser a props options depth seen :
  h a = HObject props -> a ∉ seen -> depth < maxDepth options ->
  serializeValue (enough_fuel options depth) h browser (VRef a) options depth seen
  = serialize_object
      (fun v s => serializeValue (enough_fuel options (depth + 1)) h browser v options
                    (depth + 1) s)
      options props ({[a]} ∪ seen).
Proof.
  intros Ha Hn Hd. rewrite enough_fuel_descend by done.
  rewrite serializeValue_container by (by rewrite Ha).
  unfold serialize_container. rewrite bool_decide_eq_false_2 by done.
  destruct (depth >=? maxDepth options) eqn:E; [lia|]. by rewrite Ha.
Qed.

(** Two elements of one loop: the later one is serialized with a [seen]
    set that contains the set the earlier one left. *)
Lemma serialize_elems_siblings ser vs :
  forall seen items seen' i j v w,
    ser_grows ser ->
    serialize_elems ser vs [] seen = Some (Returned (items, seen')) ->
    (i < j)%nat -> vs !! i = Some v -> vs !! j = Some w ->
    exists s_i out_i s_i' s_j out_j s_j',
      seen ⊆ s_i /\ ser v s_i = Some (Returned (out_i, s_i')) /\ s_i' ⊆ s_j
      /\ ser w s_j = Some (Returned (out_j, s_j'))
      /\ items !! i = Some out_i /\ items !! j = Some out_j.
Proof.
  induction vs as [|x vs IH]; intros seen items seen' i j v w Hg; simpl; [done|].
  destruct (ser x seen) as [[[o s1]|]|] eqn:E; [|done|done].
  rewrite serialize_elems_acc.
  destruct (serialize_elems ser vs [] s1) as [[[rest s2]|]|] eqn:Hrun; [|done|done].
  intros [= <- <-] Hij Hi Hj.
  destruct j as [|j]; [lia|]. simpl in Hj.
  destruct i as [|i]; simpl in Hi.
  - injection Hi as <-.
    destruct (serialize_elems_lookup _ _ _ _ _ _ _ Hg Hrun Hj)
      as (s & out & s' & Hsub & Hser & Hout).
    exists seen, o, s1, s, out, s'. done.
  - destruct (IH _ _ _ i j v w Hg Hrun ltac:(lia) Hi Hj)
      as (s_i & out_i & s_i' & s_j & out_j & s_j' & H1 & H2 & H3 & H4 & H5 & H6).
    exists s_i, out_i, s_i', s_j, out_j, s_j'.
    split; [|done]. apply Hg in E. etransitivity; [exact E|exact H1].
Qed.

Lemma serialize_props_siblings ser ps :
  forall obj seen obj' seen' i j ki kj v w,
    ser_grows ser -> NoDup ps.*1 ->
    serialize_props ser ps obj seen = Some (Returned (obj', seen')) ->
    (i < j)%nat -> ps !! i = Some (ki, v) -> ps !! j = Some (kj, w) ->
    exists s_i out_i s_i' s_j out_j s_j',
      seen ⊆ s_i /\ ser v s_i = Some (Returned (out_i, s_i')) /\ s_i' ⊆ s_j
      /\ ser w s_j = Some (Returned (out_j, s_j'))
      /\ (ki <> "__proto__" -> obj_get ki obj' = Some out_i)
      /\ (kj <> "__proto__" -> obj_get kj obj' = Some out_j).
Proof.
  induction ps as [|[k x] ps IH]; intros obj seen obj' seen' i j ki kj v w Hg Hnd;
    simpl; [done|].
  apply NoDup_cons in Hnd as [Hk Hnd]. simpl in Hk.
  destruct (ser x seen) as [[[o s1]|]|] eqn:E; [|done|done].
  intros Hrun Hij Hi Hj.
  destruct j as [|j]; [lia|]. simpl in Hj.
  destruct i as [|i]; simpl in Hi.
  - injection Hi as <- <-.
    destruct (serialize_props_lookup _ _ _ _ _ _ _ _ _ Hg Hnd Hrun Hj)
      as (s & out & s' & Hsub & Hser & Hout).
    exists seen, o, s1, s, out, s'.
    split; [done|]. split; [done|]. split; [done|]. split; [done|]. split; [|done].
    intros Hp. rewrite (serialize_props_other _ _ _ _ _ _ _ Hk Hrun).
    by apply obj_get_set_eq.
  - destruct (IH _ _ _ _ i j ki kj v w Hg Hnd Hrun ltac:(lia) Hi Hj)
      as (s_i & out_i & s_i' & s_j & out_j & s_j' & H1 & H2 & H3 & H4 & H5 & H6).
    exists s_i, out_i, s_i', s_j, out_j, s_j'.
    split; [|done]. apply Hg in E. etransitivity; [exact E|exact H1].
Qed.

Lemma set_own_length key v obj : (length (set_own key v obj) <= S (length obj))%nat.
Proof.
  induction obj as [|[k w] obj IH]; simpl; [lia|].
  destruct (String.eqb k key); simpl; lia.
Qed.

Lemma obj_set_length key v obj : (length (obj_set key v obj) <= S (length obj))%nat.
Proof.
  unfold obj_set. destruct (String.eqb key "__proto__"); [lia|]. apply set_own_length.
Qed.

Lemma serialize_props_length ser ps :
  forall obj seen obj' seen',
    serialize_props ser ps obj seen = Some (Returned (obj', seen')) ->
    (length obj' <= length obj + length ps)%nat.
Proof.
  induction ps as [|[k x] ps IH]; intros obj seen obj' seen'; simpl.
  - intros [= <- _]. lia.
  - destruct (ser x seen) as [[[o s1]|]|]; [|done|done].
    intros H. apply IH in H. pose proof (obj_set_length k o obj). lia.
Qed.

(** The descent into an array: at most [maxArray] elements and one marker
    come out, and each visited element is serialized by a call one level
    deeper whose [seen] set contains the array and all that [seen] held. *)
Lemma array_children h browser a elems options depth seen out seen' :
  h a = HArray elems -> a ∉ seen -> depth < maxDepth options ->
  serializeValue (enough_fuel options depth) h browser (VRef a) options depth seen
  = Some (Returned (out, seen')) ->
  exists items,
    out = SArray items
    /\ Z.of_nat (length items) <= Z.max 0 (maxArray options) + 1
    /\ forall i v,
        elems !! i = Some v -> Z.of_nat i < maxArray options ->
        exists s o s',
          {[a]} ∪ seen ⊆ s
          /\ serializeValue (enough_fuel options (depth + 1)) h browser v options
               (depth + 1) s = Some (Returned (o, s'))
          /\ items !! i = Some o.
Proof.
  intros Ha Hn Hd.
  rewrite (serializeValue_array _ _ _ _ _ _ _ Ha Hn Hd). unfold serialize_array.
  set (ser := fun v s => serializeValue _ h browser v options (depth + 1) s).
  set (k := Z.to_nat (Z.min (Z.of_nat (length elems)) (maxArray options))).
  assert (Hg : ser_grows ser) by apply serializeValue_ser_grows.
  destruct (serialize_elems ser (take k elems) [] ({[a]} ∪ seen))
    as [[[arr s1]|]|] eqn:Hrun; [|done|done].
  pose proof (serialize_elems_length _ _ _ _ _ Hrun) as Hlen.
  rewrite length_take in Hlen.
  assert (Hchild : forall i v,
             elems !! i = Some v -> Z.of_nat i < maxArray options ->
             exists s o s',
               {[a]} ∪ seen ⊆ s /\ ser v s = Some (Returned (o, s')) /\ arr !! i = Some o).
  { intros i v Hi Hlim.
    assert (Hik : (i < k)%nat) by (apply lookup_lt_Some in Hi; unfold k; lia).
    assert (Hl : take k elems !! i = Some v) by (by rewrite lookup_take_lt).
    apply (serialize_elems_lookup _ _ _ _ _ _ _ Hg Hrun Hl). }
  destruct (_ >? _); intros [= <- _]; eexists; (split; [done|]); split.
  - rewrite length_app. simpl. unfold k in Hlen. lia.
  - intros i v Hi Hlim. destruct (Hchild i v Hi Hlim) as (s & o & s' & H1 & H2 & H3).
    exists s, o, s'. split; [done|]. split; [done|].
    rewrite lookup_app_l; [done|]. by apply lookup_lt_Some in H3.
  - unfold k in Hlen. lia.
  - done.
Qed.

(** The descent into a plain object, in the same terms. *)
Lemma object_children h browser a props options depth seen out seen' :
  h a = HObject props -> NoDup props.*1 -> a ∉ seen -> depth < maxDepth options ->
  serializeValue (enough_fuel options depth) h browser (VRef a) options depth seen
  = Some (Returned (out, seen')) ->
  exists obj,
    out = SObject obj
    /\ Z.of_nat (length obj) <= Z.max 0 (maxProps options) + 1
    /\ forall i key v,
        props !! i = Some (key, v) -> Z.of_nat i < maxProps options ->
        key <> "__truncated__" -> key <> "__proto__" ->
        exists s o s',
          {[a]} ∪ seen ⊆ s
          /\ serializeValue (enough_fuel options (depth + 1)) h browser v options
               (depth + 1) s = Some (Returned (o, s'))
          /\ obj_get key obj = Some o.
Proof.
  intros Ha Hnd Hn Hd.
  rewrite (serializeValue_object _ _ _ _ _ _ _ Ha Hn Hd). unfold serialize_object.
  set (ser := fun v s => serializeValue _ h browser v options (depth + 1) s).
  set (k := Z.to_nat (Z.min (Z.of_nat (length props)) (maxProps options))).
  assert (Hg : ser_grows ser) by apply serializeValue_ser_grows.
  destruct (serialize_props ser (take k props) [] ({[a]} ∪ seen))
    as [[[obj s1]|]|] eqn:Hrun; [|done|done].
  pose proof (serialize_props_length _ _ _ _ _ _ Hrun) as Hlen.
  rewrite length_take in Hlen. simpl in Hlen.
  assert (Hnd' : NoDup (take k props).*1).
  { rewrite fmap_take. eapply sublist_NoDup; [done|]. apply sublist_take. }
  assert (Hchild : forall i key v,
             props !! i = Some (key, v) -> Z.of_nat i < maxProps options ->
             key <> "__proto__" ->
             exists s o s',
               {[a]} ∪ seen ⊆ s /\ ser v s = Some (Returned (o, s'))
               /\ obj_get key obj = Some o).
  { intros i key v Hi Hlim Hp.
    assert (Hik : (i < k)%nat) by (apply lookup_lt_Some in Hi; unfold k; lia).
    assert (Hl : take k props !! i = Some (key, v)) by (by rewrite lookup_take_lt).
    destruct (serialize_props_lookup _ _ _ _ _ _ _ _ _ Hg Hnd' Hrun Hl)
      as (s & o & s' & H1 & H2 & H3).
    exists s, o, s'. auto. }
  destruct (_ >? _); intros [= <- _]; eexists; (split; [done|]); split.
  - pose proof (obj_set_length "__truncated__"
                  (SString (num_str (Z.of_nat (length props)
                                     - Z.min (Z.of_nat (length props)) (maxProps options))
                            +:+ " more keys")) obj).
    unfold k in Hlen. lia.
  - intros i key v Hi Hlim Hkey Hp.
    destruct (Hchild i key v Hi Hlim Hp) as (s & o & s' & H1 & H2 & H3).
    exists s, o, s'. split; [done|]. split; [done|]. by rewrite obj_get_set_ne.
  - unfold k in Hlen. lia.
  - intros i key v Hi Hlim Hkey Hp. by apply (Hchild i).
Qed.

(** An element of a visited array that refers to a value in [seen] (the
    array itself, or one of its ancestors) comes out as the marker. *)
Lemma array_edge_to_seen h browser a elems options depth seen i target out seen' :
  h a = HArray elems -> a ∉ seen -> depth < maxDepth options ->
  elems !! i = Some (VRef target) -> Z.of_nat i < maxArray options ->
  is_container browser (h target) = true -> target ∈ ({[a]} ∪ seen : Seen) ->
  serializeValue (enough_fuel options depth) h browser (VRef a) options depth seen
  = Some (Returned (out, seen')) ->
  exists items, out = SArray items /\ items !! i = Some (SString "[Circular]").
Proof.
  intros Ha Hn Hd Hi Hlim Hc Hin Hres.
  destruct (array_children h browser a elems options depth seen out seen' Ha Hn Hd Hres)
    as (items & -> & _ & Hchild).
  exists items. split; [done|].
  destruct (Hchild i _ Hi Hlim) as (s & o & s' & Hsub & Hser & Hout).
  assert (Hts : target ∈ s) by (by apply Hsub).
  unfold enough_fuel in Hser. rewrite serializeValue_seen in Hser by done.
  by injection Hser as <- <-.
Qed.

(** A property of a visited object that refers to a value in [seen] (the
    object itself, or one of its ancestors) comes out as the marker. *)
Lemma object_edge_to_seen h browser a props options depth seen i key target out seen' :
  h a = HObject props -> NoDup props.*1 -> a ∉ seen -> depth < maxDepth options ->
  props !! i = Some (key, VRef target) -> Z.of_nat i < maxProps options ->
  key <> "__truncated__" -> key <> "__proto__" ->
  is_container browser (h target) = true -> target ∈ ({[a]} ∪ seen : Seen) ->
  serializeValue (enough_fuel options depth) h browser (VRef a) options depth seen
  = Some (Returned (out, seen')) ->
  exists obj, out = SObject obj /\ obj_get key obj = Some (SString "[Circular]").
Proof.
  intros Ha Hnd Hn Hd Hi Hlim Hkey Hp Hc Hin Hres.
  destruct (object_children h browser a props options depth seen out seen' Ha Hnd Hn Hd Hres)
    as (obj & -> & _ & Hchild).
  exists obj. split; [done|].
  destruct (Hchild i _ _ Hi Hlim Hkey Hp) as (s & o & s' & Hsub & Hser & Hout).
  assert (Hts : target ∈ s) by (by apply Hsub).
  unfold enough_fuel in Hser. rewrite serializeValue_seen in Hser by done.
  by injection Hser as <- <-.
Qed.

(** C4 as amended. [serializeValue] ends for every heap (cyclic or not),
    value, options, depth and [seen] set, with fuel for
    [maxDepth - depth + 1] nested calls: it returns, or it is left by the
    [RangeError] of an invalid date, and on a heap without invalid dates it
    returns. A value that is already in [seen] is answered by the marker
    ["[Circular]"] without any recursive call (one unit of fuel is enough),
    a value at the depth limit by the depth marker, again without any
    recursive call, and [seen] only grows. In what a visited array or
    object returns, every element or property (under a key other than
    [__proto__] and [__truncated__]) that refers back to the value itself
    or to any value in [seen] is the marker. A visited array yields at
    most [maxArray] elements and one marker, a visited object at most
    [maxProps] keys and one marker, and each of their children is
    serialized by a call one level deeper whose [seen] set contains the
    parent and all that [seen] held, hence every ancestor. An [Error] is
    not descended into: its name, message and stack are put into the result
    as they are. Serializing [{a: 1, self: <itself>}] with [maxDepth = 4]
    gives [{a: 1, self: "[Circular]"}], and the two-object cycle
    [heap_chain] gives [{next: {back: "[Circular]"}}]. *)
Theorem serializeValue_cycle_safe :
  (forall h browser value options depth seen,
      exists r,
        serializeValue (enough_fuel options depth) h browser value options depth seen
        = Some r)
  /\ (forall h browser value options depth seen,
        dates_valid h ->
        exists out seen',
          serializeValue (enough_fuel options depth) h browser value options depth seen
          = Some (Returned (out, seen')))
  /\ (forall fuel h browser a options depth seen,
        is_container browser (h a) = true -> a ∈ seen ->
        serializeValue (S fuel) h browser (VRef a) options depth seen
        = Some (Returned (SString "[Circular]", seen)))
  /\ (forall fuel h browser a options depth seen,
        is_container browser (h a) = true -> a ∉ seen -> maxDepth options <= depth ->
        serializeValue (S fuel) h browser (VRef a) options depth seen
        = Some (Returned (SString match elems_of (h a) with
                                  | Some l =>
                                      "[Array(" +:+ num_str (Z.of_nat (length l)) +:+ ")]"
                                  | None => "[Object]"
                                  end, seen)))
  /\ (forall fuel h browser value options depth seen out seen',
        serializeValue fuel h browser value options depth seen
        = Some (Returned (out, seen')) ->
        seen ⊆ seen')
  /\ (forall h browser a elems options depth seen i target out seen',
        h a = HArray elems -> a ∉ seen -> depth < maxDepth options ->
        elems !! i = Some (VRef target) -> Z.of_nat i < maxArray options ->
        is_container browser (h target) = true -> target ∈ ({[a]} ∪ seen : Seen) ->
        serializeValue (enough_fuel options depth) h browser (VRef a) options depth seen
        = Some (Returned (out, seen')) ->
        exists items, out = SArray items /\ items !! i = Some (SString "[Circular]"))
  /\ (forall h browser a props options depth seen i key target out seen',
        h a = HObject props -> NoDup props.*1 -> a ∉ seen -> depth < maxDepth options ->
        props !! i = Some (key, VRef target) -> Z.of_nat i < maxProps options ->
        key <> "__truncated__" -> key <> "__proto__" ->
        is_container browser (h target) = true -> target ∈ ({[a]} ∪ seen : Seen) ->
        serializeValue (enough_fuel options depth) h browser (VRef a) options depth seen
        = Some (Returned (out, seen')) ->
        exists obj, out = SObject obj /\ obj_get key obj = Some (SString "[Circular]"))
  /\ (forall h browser a elems options depth seen out seen',
        h a = HArray elems -> a ∉ seen -> depth < maxDepth options ->
        serializeValue (enough_fuel options depth) h browser (VRef a) options depth seen
        = Some (Returned (out, seen')) ->
        exists items,
          out = SArray items
          /\ Z.of_nat (length items) <= Z.max 0 (maxArray options) + 1
          /\ forall i v,
              elems !! i = Some v -> Z.of_nat i < maxArray options ->
              exists s o s',
                {[a]} ∪ seen ⊆ s
                /\ serializeValue (enough_fuel options (depth + 1)) h browser v options
                     (depth + 1) s = Some (Returned (o, s'))
                /\ items !! i = Some o)
  /\ (forall h browser a props options depth seen out seen',
        h a = HObject props -> NoDup props.*1 -> a ∉ seen -> depth < maxDepth options ->
        serializeValue (enough_fuel options depth) h browser (VRef a) options depth seen
        = Some (Returned (out, seen')) ->
        exists obj,
          out = SObject obj
          /\ Z.of_nat (length obj) <= Z.max 0 (maxProps options) + 1
          /\ forall i key v,
              props !! i = Some (key, v) -> Z.of_nat i < maxProps options ->
              key <> "__truncated__" -> key <> "__proto__" ->
              exists s o s',
                {[a]} ∪ seen ⊆ s
                /\ serializeValue (enough_fuel options (depth + 1)) h browser v options
                     (depth + 1) s = Some (Returned (o, s'))
                /\ obj_get key obj = Some o)
  /\ (forall fuel h browser a name message stack options depth seen,
        h a = HError name message stack ->
        serializeValue (S fuel) h browser (VRef a) options depth seen
        = Some (Returned (SObject [("name", raw name); ("message", raw message);
                                   ("stack", raw stack)], seen)))
  /\ serialize_root heap_self false DEFAULTS_logCaptureOptions (VRef 0%nat)
     = Returned (SObject [("a", SNumber 1); ("self", SString "[Circular]")])
  /\ serialize_root heap_chain false DEFAULTS_logCaptureOptions (VRef 0%nat)
     = Returned (SObject [("next", SObject [("back", SString "[Circular]")])]).
Proof.
  split; [apply serializeValue_total|].
  split; [apply serializeValue_returns|].
  split; [apply serializeValue_seen|].
  split; [apply serializeValue_at_limit|].
  split; [apply serializeValue_grows|].
  split; [apply array_edge_to_seen|].
  split; [apply object_edge_to_seen|].
  split; [apply array_children|].
  split; [apply object_children|].
  split.
  { intros fuel h browser a name message stack options depth seen Ha.
    by rewrite serializeValue_ref, Ha. }
  split; vm_compute; reflexivity.
Qed.

(** The self-referential object of the scenario, through the general
    statement about properties that refer back. *)
Lemma serializeValue_cycle_safe_witness :
  exists out seen',
    serializeValue (enough_fuel DEFAULTS_logCaptureOptions 0) heap_self false
      (VRef 0%nat) DEFAULTS_logCaptureOptions 0 ∅
    = Some (Returned (out, seen'))
    /\ exists obj, out = SObject obj /\ obj_get "self" obj = Some (SString "[Circular]").
Proof.
  destruct serializeValue_cycle_safe as (_ & Hret & _ & _ & _ & _ & Hobj & _).
  destruct (Hret heap_self false (VRef 0%nat) DEFAULTS_logCaptureOptions 0 ∅)
    as (out & seen' & Hrun).
  { intros a. discriminate. }
  exists out, seen'. split; [exact Hrun|].
  apply (Hobj heap_self false 0%nat
           [("a", VNumber 1); ("self", VRef 0%nat)] DEFAULTS_logCaptureOptions 0 ∅
           1%nat "self" 0%nat out seen').
  - reflexivity.
  - simpl. apply NoDup_cons. split; [|apply NoDup_singleton].
    intros H. apply list_elem_of_singleton in H. discriminate.
  - apply not_elem_of_empty.
  - simpl. lia.
  - reflexivity.
  - simpl. lia.
  - discriminate.
  - discriminate.
  - reflexivity.
  - apply elem_of_union_l. by apply elem_of_singleton.
  - exact Hrun.
Defined.

(** C4 as stated fails. In the error [e] with [e.message = e], the edge
    from [e] to itself is a cycle of the input; the result holds [e] itself
    under [message], no marker. In the object [o] whose own key [__proto__]
    refers to [o], the cyclic edge is left out of the result, which holds
    no marker either. *)
Lemma cyclic_edge_counterexample :
  heap_raw 0%nat = HError (VString "Error") (VRef 0%nat) (VString "Error at main.js:1:1")
  /\ serialize_root heap_raw false DEFAULTS_logCaptureOptions (VRef 0%nat)
     = Returned (SObject [("name", SString "Error"); ("message", SRaw (VRef 0%nat));
                          ("stack", SString "Error at main.js:1:1")])
  /\ heap_raw 3%nat = HObject [("a", VNumber 1); ("__proto__", VRef 3%nat)]
  /\ serialize_root heap_raw false DEFAULTS_logCaptureOptions (VRef 3%nat)
     = Returned (SObject [("a", SNumber 1)]).
Proof. repeat split; vm_compute; reflexivity. Qed.

(** An array that holds an invalid date gives no result: the call is left
    by the [RangeError] of [toISOString]. *)
Example invalid_date_throws :
  heap_invalid_date 0%nat = HArray [VNumber 1; VRef 1%nat]
  /\ heap_invalid_date 1%nat = HDate None
  /\ serialize_root heap_invalid_date false DEFAULTS_logCaptureOptions (VRef 0%nat)
     = RangeError
  /\ serializeValues heap_invalid_date false DEFAULTS_logCaptureOptions
       [VString "x"; VRef 0%nat]
     = RangeError.
Proof. repeat split; vm_compute; reflexivity. Qed.

Lemma substring_length n s :
  (n <= String.length s)%nat -> String.length (String.substring 0 n s) = n.
Proof.
  revert s. induction n as [|n IH]; intros s Hn.
  - by destruct s.
  - destruct s as [|c s]; simpl in *; [lia|]. f_equal. apply IH. lia.
Qed.

Lemma substring_prefix n s : String.prefix (String.substring 0 n s) s = true.
Proof.
  revert s. induction n as [|n IH]; intros s.
  - by destruct s.
  - destruct s as [|c s]; simpl; [done|].
    destruct (Ascii.ascii_dec c c); [apply IH|done].
Qed.

(** A value the call descends into is in the [seen] set it returns. *)
Lemma serializeValue_adds fuel h browser a options depth seen out seen' :
  is_container browser (h a) = true -> a ∉ seen -> depth < maxDepth options ->
  serializeValue fuel h browser (VRef a) options depth seen = Some (Returned (out, seen')) ->
  a ∈ seen'.
Proof.
  intros Hc Hn Hd. destruct fuel as [|fuel]; [done|].
  rewrite serializeValue_container by done.
  apply serialize_container_adds; [|done..].
  apply serializeValue_ser_grows.
Qed.

(** A container reached by a call one level below the depth limit is in
    the [seen] set that call leaves, whether it was there before or not. *)
Lemma serializeValue_leaves_seen h browser target options depth s out s' :
  is_container browser (h target) = true -> depth < maxDepth options ->
  serializeValue (enough_fuel options depth) h browser (VRef target) options depth s
  = Some (Returned (out, s')) ->
  target ∈ s'.
Proof.
  intros Hc Hd Hser. destruct (decide (target ∈ s)) as [Hin|Hnot].
  - apply serializeValue_grows in Hser. by apply Hser.
  - by eapply serializeValue_adds.
Qed.

(** Two elements of a visited array that refer to the same array or
    object: the later one comes out as the marker. *)
Lemma array_second_occurrence h browser a elems options depth seen i j shared out seen' :
  h a = HArray elems -> a ∉ seen -> depth + 1 < maxDepth options ->
  (i < j)%nat -> elems !! i = Some (VRef shared) -> elems !! j = Some (VRef shared) ->
  Z.of_nat j < maxArray options -> is_container browser (h shared) = true ->
  serializeValue (enough_fuel options depth) h browser (VRef a) options depth seen
  = Some (Returned (out, seen')) ->
  exists items, out = SArray items /\ items !! j = Some (SString "[Circular]").
Proof.
  intros Ha Hn Hd Hij Hi Hj Hlim Hc.
  assert (Hd0 : depth < maxDepth options) by lia.
  rewrite (serializeValue_array _ _ _ _ _ _ _ Ha Hn Hd0). unfold serialize_array.
  set (ser := fun v s => serializeValue _ h browser v options (depth + 1) s).
  set (k := Z.to_nat (Z.min (Z.of_nat (length elems)) (maxArray options))).
  assert (Hg : ser_grows ser) by apply serializeValue_ser_grows.
  destruct (serialize_elems ser (take k elems) [] ({[a]} ∪ seen))
    as [[[arr s1]|]|] eqn:Hrun; [|done|done].
  assert (Hjk : (j < k)%nat) by (apply lookup_lt_Some in Hj; unfold k; lia).
  assert (Hli : take k elems !! i = Some (VRef shared))
    by (rewrite lookup_take_lt; [done|lia]).
  assert (Hlj : take k elems !! j = Some (VRef shared)) by (by rewrite lookup_take_lt).
  destruct (serialize_elems_siblings _ _ _ _ _ _ _ _ _ Hg Hrun Hij Hli Hlj)
    as (s_i & out_i & s_i' & s_j & out_j & s_j' & H1 & H2 & H3 & H4 & H5 & H6).
  assert (Hin : shared ∈ s_j).
  { apply H3. by apply (serializeValue_leaves_seen h browser shared options (depth + 1)
                          s_i out_i). }
  unfold ser, enough_fuel in H4. rewrite serializeValue_seen in H4 by done.
  injection H4 as <- <-.
  destruct (_ >? _); intros [= <- _]; eexists; (split; [done|]); [|done].
  rewrite lookup_app_l; [done|]. by apply lookup_lt_Some in H6.
Qed.

(** Two properties of a visited object that refer to the same array or
    object: the later one comes out as the marker. *)
Lemma object_second_occurrence h browser a props options depth seen i j ki kj shared
    out seen' :
  h a = HObject props -> NoDup props.*1 -> a ∉ seen -> depth + 1 < maxDepth options ->
  (i < j)%nat ->
  props !! i = Some (ki, VRef shared) -> props !! j = Some (kj, VRef shared) ->
  Z.of_nat j < maxProps options -> kj <> "__truncated__" -> kj <> "__proto__" ->
  is_container browser (h shared) = true ->
  serializeValue (enough_fuel options depth) h browser (VRef a) options depth seen
  = Some (Returned (out, seen')) ->
  exists obj, out = SObject obj /\ obj_get kj obj = Some (SString "[Circular]").
Proof.
  intros Ha Hnd Hn Hd Hij Hi Hj Hlim Hkey Hp Hc.
  assert (Hd0 : depth < maxDepth options) by lia.
  rewrite (serializeValue_object _ _ _ _ _ _ _ Ha Hn Hd0). unfold serialize_object.
  set (ser := fun v s => serializeValue _ h browser v options (depth + 1) s).
  set (k := Z.to_nat (Z.min (Z.of_nat (length props)) (maxProps options))).
  assert (Hg : ser_grows ser) by apply serializeValue_ser_grows.
  destruct (serialize_props ser (take k props) [] ({[a]} ∪ seen))
    as [[[obj s1]|]|] eqn:Hrun; [|done|done].
  assert (Hjk : (j < k)%nat) by (apply lookup_lt_Some in Hj; unfold k; lia).
  assert (Hli : take k props !! i = Some (ki, VRef shared))
    by (rewrite lookup_take_lt; [done|lia]).
  assert (Hlj : take k props !! j = Some (kj, VRef shared)) by (by rewrite lookup_take_lt).
  assert (Hnd' : NoDup (take k props).*1).
  { rewrite fmap_take. eapply sublist_NoDup; [done|]. apply sublist_take. }
  destruct (serialize_props_siblings _ _ _ _ _ _ _ _ _ _ _ _ Hg Hnd' Hrun Hij Hli Hlj)
    as (s_i & out_i & s_i' & s_j & out_j & s_j' & H1 & H2 & H3 & H4 & H5 & H6).
  assert (Hin : shared ∈ s_j).
  { apply H3. by apply (serializeValue_leaves_seen h browser shared options (depth + 1)
                          s_i out_i). }
  unfold ser, enough_fuel in H4. rewrite serializeValue_seen in H4 by done.
  injection H4 as <- <-. specialize (H6 Hp).
  destruct (_ >? _); intros [= <- _]; eexists; (split; [done|]); [|done].
  by rewrite obj_get_set_ne.
Qed.

(** What a call that descends into a container returns is an array or an
    object. *)
Lemma serializeValue_descends h browser a options depth seen out seen' :
  is_container browser (h a) = true -> a ∉ seen -> depth < maxDepth options ->
  serializeValue (enough_fuel options depth) h browser (VRef a) options depth seen
  = Some (Returned (out, seen')) ->
  (exists items, out = SArray items) \/ (exists props, out = SObject props).
Proof.
  intros Hc Hn Hd. unfold enough_fuel. rewrite serializeValue_container by done.
  unfold serialize_container. rewrite bool_decide_eq_false_2 by done.
  destruct (depth >=? maxDepth options) eqn:E; [lia|].
  destruct (elems_of (h a)).
  - unfold serialize_array.
    destruct (serialize_elems _ _ _ _) as [[[arr s1]|]|]; [|done|done].
    destruct (_ >? _); intros [= <- _]; left; eauto.
  - unfold serialize_object.
    destruct (serialize_props _ _ _ _) as [[[obj s1]|]|]; [|done|done].
    destruct (_ >? _); intros [= <- _]; right; eauto.
Qed.

(** C2 as amended. [serializeValue] adds every array or object it descends
    into to [seen] and never removes it: the [seen] set a call returns
    contains the set it was given, and the value itself when the call
    descended into it. It therefore holds every value visited so far, not
    only the ancestors of the current path. When one array or object is
    referred to by the two properties of an object (neither named
    [__proto__]) that the call descends into, at a depth that leaves room
    for one more level and with [maxProps] at least 2, the first
    occurrence is serialized in full and the second comes out as the marker
    ["[Circular]"]; if serializing the first throws, so does the call. More
    generally, of two elements or properties of one visited container that
    refer to the same array or object, the later one comes out as the
    marker in what the call returns, provided the depth leaves room for one
    more level, the later one is among the first [maxArray] elements or
    [maxProps] keys, and its key is neither [__truncated__] nor
    [__proto__]. *)
Theorem seen_set_accumulates :
  (forall fuel h browser value options depth seen out seen',
      serializeValue fuel h browser value options depth seen = Some (Returned (out, seen')) ->
      seen ⊆ seen')
  /\ (forall fuel h browser a options depth seen out seen',
        is_container browser (h a) = true -> a ∉ seen -> depth < maxDepth options ->
        serializeValue fuel h browser (VRef a) options depth seen
        = Some (Returned (out, seen')) ->
        a ∈ seen')
  /\ (forall h browser p k1 k2 shared options depth seen,
        h p = HObject [(k1, VRef shared); (k2, VRef shared)] ->
        k1 <> k2 -> k1 <> "__proto__" -> k2 <> "__proto__" ->
        p <> shared -> is_container browser (h shared) = true ->
        p ∉ seen -> shared ∉ seen ->
        depth + 1 < maxDepth options -> 2 <= maxProps options ->
        exists r,
          serializeValue (enough_fuel options (depth + 1)) h browser (VRef shared) options
            (depth + 1) ({[p]} ∪ seen) = Some r
          /\ serializeValue (enough_fuel options depth) h browser (VRef p) options depth seen
             = Some match r with
                    | Returned (full, seen1) =>
                        Returned (SObject [(k1, full); (k2, SString "[Circular]")], seen1)
                    | RangeError => RangeError
                    end
          /\ forall full seen1,
              r = Returned (full, seen1) ->
              (exists items, full = SArray items) \/ (exists props, full = SObject props))
  /\ (forall h browser a props options depth seen i j ki kj shared out seen',
        h a = HObject props -> NoDup props.*1 -> a ∉ seen -> depth + 1 < maxDepth options ->
        (i < j)%nat ->
        props !! i = Some (ki, VRef shared) -> props !! j = Some (kj, VRef shared) ->
        Z.of_nat j < maxProps options -> kj <> "__truncated__" -> kj <> "__proto__" ->
        is_container browser (h shared) = true ->
        serializeValue (enough_fuel options depth) h browser (VRef a) options depth seen
        = Some (Returned (out, seen')) ->
        exists obj, out = SObject obj /\ obj_get kj obj = Some (SString "[Circular]"))
  /\ (forall h browser a elems options depth seen i j shared out seen',
        h a = HArray elems -> a ∉ seen -> depth + 1 < maxDepth options ->
        (i < j)%nat -> elems !! i = Some (VRef shared) -> elems !! j = Some (VRef shared) ->
        Z.of_nat j < maxArray options -> is_container browser (h shared) = true ->
        serializeValue (enough_fuel options depth) h browser (VRef a) options depth seen
        = Some (Returned (out, seen')) ->
        exists items, out = SArray items /\ items !! j = Some (SString "[Circular]")).
Proof.
  split; [apply serializeValue_grows|]. split; [apply serializeValue_adds|].
  split; [|split; [apply object_second_occurrence|apply array_second_occurrence]].
  intros h browser p k1 k2 shared options depth seen Hp Hk Hk1 Hk2 Hps Hc Hpn Hsn Hd Hmax.
  assert (Hd0 : depth < maxDepth options) by lia.
  destruct (serializeValue_total h browser (VRef shared) options (depth + 1)
              ({[p]} ∪ seen)) as (r & Hfull).
  exists r. split; [done|].
  assert (Hsn' : shared ∉ ({[p]} ∪ seen : Seen)).
  { intros [H%elem_of_singleton|H]%elem_of_union; congruence. }
  split.
  - rewrite (serializeValue_object _ _ _ _ _ _ _ Hp Hpn Hd0). unfold serialize_object.
    replace (Z.to_nat (Z.min (Z.of_nat (length [(k1, VRef shared); (k2, VRef shared)]))
                         (maxProps options))) with 2%nat by (simpl; lia).
    cbn [take serialize_props]. rewrite Hfull.
    destruct r as [[full seen1]|]; [|done].
    assert (Hshared : shared ∈ seen1).
    { eapply serializeValue_adds; [exact Hc|exact Hsn'|exact Hd|exact Hfull]. }
    unfold enough_fuel at 1. rewrite serializeValue_seen by done.
    change (Z.of_nat (length [(k1, VRef shared); (k2, VRef shared)])) with 2.
    destruct (2 >? Z.min 2 (maxProps options)) eqn:E2; [lia|].
    unfold obj_set.
    destruct (String.eqb k1 "__proto__") eqn:E1; [by apply String.eqb_eq in E1|].
    destruct (String.eqb k2 "__proto__") eqn:E3; [by apply String.eqb_eq in E3|].
    simpl. destruct (String.eqb k1 k2) eqn:E; [apply String.eqb_eq in E; done|done].
  - intros full seen1 ->.
    by eapply serializeValue_descends; [exact Hc|exact Hsn'|exact Hd|exact Hfull].
Qed.

(** The graph [{ left: s, right: s }] with [s = { x: 1 }]. *)
Lemma seen_set_accumulates_witness :
  exists full seen1,
    serializeValue (enough_fuel DEFAULTS_logCaptureOptions (0 + 1)) heap_shared false
      (VRef 1%nat) DEFAULTS_logCaptureOptions (0 + 1) ({[0%nat]} ∪ ∅)
    = Some (Returned (full, seen1))
    /\ ((exists items, full = SArray items) \/ (exists props, full = SObject props))
    /\ serializeValue (enough_fuel DEFAULTS_logCaptureOptions 0) heap_shared false
         (VRef 0%nat) DEFAULTS_logCaptureOptions 0 ∅
       = Some (Returned (SObject [("left", full); ("right", SString "[Circular]")], seen1)).
Proof.
  destruct seen_set_accumulates as (_ & _ & Hsib & _).
  destruct (Hsib heap_shared false 0%nat "left" "right" 1%nat DEFAULTS_logCaptureOptions 0 ∅)
    as (r & Hfull & Hres & Hshape).
  - reflexivity.
  - discriminate.
  - discriminate.
  - discriminate.
  - discriminate.
  - reflexivity.
  - apply not_elem_of_empty.
  - apply not_elem_of_empty.
  - simpl. lia.
  - simpl. lia.
  - destruct r as [[full seen1]|].
    + exists full, seen1. split; [exact Hfull|]. split; [by eapply Hshape|exact Hres].
    + exfalso. vm_compute in Hfull. discriminate Hfull.
Defined.

(** C2 as stated fails. After serializing [s = { x: 1 }] from an empty
    [seen] set, [s] is still in the set; and in the acyclic graph
    [{ left: s, right: s }] the second occurrence of [s] comes out as the
    cycle marker instead of [{ x: 1 }]. *)
Lemma visiting_set_counterexample :
  (exists out seen',
      serializeValue (enough_fuel DEFAULTS_logCaptureOptions 0) heap_shared false
        (VRef 1%nat) DEFAULTS_logCaptureOptions 0 ∅ = Some (Returned (out, seen'))
      /\ 1%nat ∈ seen')
  /\ serialize_root heap_shared false DEFAULTS_logCaptureOptions (VRef 1%nat)
     = Returned (SObject [("x", SNumber 1)])
  /\ serialize_root heap_shared false DEFAULTS_logCaptureOptions (VRef 0%nat)
     = Returned (SObject [("left", SObject [("x", SNumber 1)]);
                          ("right", SString "[Circular]")]).
Proof.
  split; [|split; vm_compute; reflexivity].
  destruct (serializeValue_returns heap_shared false (VRef 1%nat)
              DEFAULTS_logCaptureOptions 0 ∅) as (out & seen' & H).
  { intros a. by destruct a. }
  exists out, seen'. split; [done|].
  apply (serializeValue_adds (enough_fuel DEFAULTS_logCaptureOptions 0) heap_shared false
           1%nat DEFAULTS_logCaptureOptions 0 ∅ out seen').
  - reflexivity.
  - apply not_elem_of_empty.
  - simpl. lia.
  - exact H.
Qed.

(** C8 as amended. A string longer than [maxStringLength] (a non-negative
    limit) is serialized, at any depth, to its first [maxStringLength]
    characters followed by ["..."]. An array longer than [maxArray] (a
    non-negative limit) that [serializeValue] descends into, that is, one
    that is not in [seen] and lies above the depth limit, is serialized to
    the serializations of its first [maxArray] elements followed by the one
    element ["... (N more)"], [N] being the number of elements left out;
    when the serialization of one of those elements throws, that of the
    array throws. *)
Theorem truncation_of_strings_and_arrays :
  (forall fuel h browser s options depth seen,
      0 <= maxStringLength options -> str_len s > maxStringLength options ->
      serializeValue (S fuel) h browser (VString s) options depth seen
      = Some (Returned
                (SString (String.substring 0 (Z.to_nat (maxStringLength options)) s +:+ "..."),
                 seen))
      /\ String.length (String.substring 0 (Z.to_nat (maxStringLength options)) s)
         = Z.to_nat (maxStringLength options)
      /\ String.prefix (String.substring 0 (Z.to_nat (maxStringLength options)) s) s = true)
  /\ (forall h browser a elems options depth seen,
        h a = HArray elems ->
        0 <= maxArray options -> Z.of_nat (length elems) > maxArray options ->
        a ∉ seen -> depth < maxDepth options ->
        exists r,
          serialize_elems
            (fun v s => serializeValue (enough_fuel options (depth + 1)) h browser v
                          options (depth + 1) s)
            (take (Z.to_nat (maxArray options)) elems) [] ({[a]} ∪ seen)
          = Some r
          /\ serializeValue (enough_fuel options depth) h browser (VRef a) options depth seen
             = Some match r with
                    | Returned (items, seen') =>
                        Returned
                          (SArray (items ++
                                     [SString ("... ("
                                               +:+ num_str (Z.of_nat (length elems)
                                                            - maxArray options)
                                               +:+ " more)")]), seen')
                    | RangeError => RangeError
                    end
          /\ forall items seen',
              r = Returned (items, seen') -> length items = Z.to_nat (maxArray options)).
Proof.
  split.
  - intros fuel h browser s options depth seen Hmax Hlen. unfold str_len in Hlen.
    split; [|split].
    + simpl. unfold str_len, slice0, str_len.
      destruct (_ >? _) eqn:E; [|lia].
      destruct (maxStringLength options <? 0) eqn:E2; [lia|].
      by rewrite Z.min_l by lia.
    + apply substring_length. lia.
    + apply substring_prefix.
  - intros h browser a elems options depth seen Ha Hmax Hlen Hn Hd.
    rewrite (serializeValue_array _ _ _ _ _ _ _ Ha Hn Hd). unfold serialize_array.
    rewrite Z.min_r by lia.
    set (ser := fun v s => serializeValue _ h browser v options (depth + 1) s).
    assert (Ht : ser_total ser) by (by apply serializeValue_ser_total).
    destruct (serialize_elems_total ser (take (Z.to_nat (maxArray options)) elems) []
                ({[a]} ∪ seen) Ht) as (r & Hrun).
    exists r. split; [exact Hrun|]. rewrite Hrun. split.
    + destruct r as [[items s1]|]; [|done]. destruct (_ >? _) eqn:E; [done|lia].
    + intros items seen' ->.
      rewrite (serialize_elems_length _ _ _ _ _ Hrun), length_take. lia.
Qed.

(** A string of eleven characters with a limit of four, and the array
    [[1, 2, 3]] with a limit of two. *)
Lemma truncation_of_strings_and_arrays_witness :
  (serializeValue 1 heap_nested false (VString "hello world") options_small 0 ∅
   = Some (Returned (SString (String.substring 0 (Z.to_nat (maxStringLength options_small))
                                "hello world" +:+ "..."), ∅))
   /\ String.length (String.substring 0 (Z.to_nat (maxStringLength options_small))
                       "hello world")
      = Z.to_nat (maxStringLength options_small)
   /\ String.prefix (String.substring 0 (Z.to_nat (maxStringLength options_small))
                       "hello world") "hello world" = true)
  /\ exists items seen',
      serializeValue (enough_fuel options_small 0) heap_nested false (VRef 1%nat)
        options_small 0 ∅
      = Some (Returned
                (SArray (items ++
                           [SString ("... ("
                                     +:+ num_str (Z.of_nat (length [VNumber 1; VNumber 2;
                                                                    VNumber 3])
                                                  - maxArray options_small)
                                     +:+ " more)")]), seen'))
      /\ length items = Z.to_nat (maxArray options_small)
      /\ serialize_elems
           (fun v s => serializeValue (enough_fuel options_small (0 + 1)) heap_nested false v
                         options_small (0 + 1) s)
           (take (Z.to_nat (maxArray options_small)) [VNumber 1; VNumber 2; VNumber 3]) []
           ({[1%nat]} ∪ ∅)
         = Some (Returned (items, seen')).
Proof.
  destruct truncation_of_strings_and_arrays as (Hstr & Harr). split.
  - apply (Hstr 0%nat heap_nested false "hello world" options_small 0 ∅).
    + simpl. lia.
    + vm_compute. reflexivity.
  - destruct (Harr heap_nested false 1%nat [VNumber 1; VNumber 2; VNumber 3]
                options_small 0 ∅) as (r & Hrun & Hres & Hlen).
    + reflexivity.
    + simpl. lia.
    + simpl. lia.
    + apply not_elem_of_empty.
    + simpl. lia.
    + destruct r as [[items seen']|].
      * exists items, seen'. split; [exact Hres|]. split; [by eapply Hlen|exact Hrun].
      * exfalso. vm_compute in Hrun. discriminate Hrun.
Defined.

(** C8 as stated fails for arrays. In [[ [1, 2, 3] ]] with [maxDepth = 1]
    and [maxArray = 2], the inner array has three elements, more than
    [maxArray], and [serializeValue] is called on it at depth 1: it returns
    the string ["[Array(3)]"], not two elements and a marker. *)
Lemma array_truncation_counterexample :
  heap_nested 1%nat = HArray [VNumber 1; VNumber 2; VNumber 3]
  /\ Z.of_nat (length [VNumber 1; VNumber 2; VNumber 3]) > maxArray options_small
  /\ serializeValue (enough_fuel options_small 1) heap_nested false (VRef 1%nat)
       options_small 1 {[0%nat]}
     = Some (Returned (SString "[Array(3)]", {[0%nat]}))
  /\ serialize_root heap_nested false options_small (VRef 0%nat)
     = Returned (SArray [SString "[Array(3)]"]).
Proof.
  split; [reflexivity|]. split; [simpl; lia|]. split; vm_compute; reflexivity.
Qed.

(** *** The size of the output *)

Lemma forallb_Forall {A} (f : A -> bool) l :
  forallb f l = true <-> Forall (fun x => f x = true) l.
Proof.
  induction l as [|x l IH]; simpl.
  - split; [constructor|done].
  - rewrite andb_true_iff, IH, Forall_cons. done.
Qed.

Lemma serialize_elems_Forall (P : SafeValue -> Prop) ser vs :
  forall arr seen arr' seen',
    (forall v s out s', ser v s = Some (Returned (out, s')) -> P out) ->
    Forall P arr ->
    serialize_elems ser vs arr seen = Some (Returned (arr', seen')) -> Forall P arr'.
Proof.
  induction vs as [|v vs IH]; intros arr seen arr' seen' Hser Harr; simpl.
  - by intros [= <- _].
  - destruct (ser v seen) as [[[out s1]|]|] eqn:E; [|done|done].
    apply IH; [done|]. apply Forall_app. split; [done|].
    apply Forall_singleton. by eapply Hser.
Qed.

Lemma set_own_Forall (P : SafeValue -> Prop) key v obj :
  P v -> Forall (fun kv => P kv.2) obj -> Forall (fun kv => P kv.2) (set_own key v obj).
Proof.
  intros Hv. induction obj as [|[k w] obj IH]; simpl; intros Hobj.
  - by apply Forall_singleton.
  - apply Forall_cons in Hobj as [Hw Hobj].
    destruct (String.eqb k key); apply Forall_cons; auto.
Qed.

Lemma obj_set_Forall (P : SafeValue -> Prop) key v obj :
  P v -> Forall (fun kv => P kv.2) obj -> Forall (fun kv => P kv.2) (obj_set key v obj).
Proof.
  intros Hv Hobj. unfold obj_set. destruct (String.eqb key "__proto__"); [done|].
  by apply set_own_Forall.
Qed.

Lemma serialize_props_Forall (P : SafeValue -> Prop) ser ps :
  forall obj seen obj' seen',
    (forall v s out s', ser v s = Some (Returned (out, s')) -> P out) ->
    Forall (fun kv => P kv.2) obj ->
    serialize_props ser ps obj seen = Some (Returned (obj', seen')) ->
    Forall (fun kv => P kv.2) obj'.
Proof.
  induction ps as [|[k v] ps IH]; intros obj seen obj' seen' Hser Hobj; simpl.
  - by intros [= <- _].
  - destruct (ser v seen) as [[[out s1]|]|] eqn:E; [|done|done].
    apply IH; [done|]. apply obj_set_Forall; [|done]. by eapply Hser.
Qed.

(** What a container yields is within the bounds if what its children
    yield is within the bounds one level down. *)
Lemma serialize_container_within ser options a depth seen elems props out seen' d wa wo :
  (Z.to_nat (maxArray options) + 1 <= wa)%nat ->
  (Z.to_nat (maxProps options) + 1 <= wo)%nat ->
  (depth < maxDepth options -> exists d', d = S d' /\
     forall v s o s', ser v s = Some (Returned (o, s')) -> within d' wa wo o = true) ->
  serialize_container ser options a depth seen elems props = Some (Returned (out, seen')) ->
  within d wa wo out = true.
Proof.
  intros Hwa Hwo Hrec. unfold serialize_container.
  case_bool_decide; [by intros [= <- _]; destruct d|].
  destruct (depth >=? maxDepth options) eqn:E.
  { destruct elems; intros [= <- _]; by destruct d. }
  destruct Hrec as (d' & -> & Hser); [lia|].
  destruct elems as [l|].
  - unfold serialize_array.
    destruct (serialize_elems _ _ _ _) as [[[arr s1]|]|] eqn:Hrun; [|done|done].
    pose proof (serialize_elems_length _ _ _ _ _ Hrun) as Hlen.
    rewrite length_take in Hlen.
    pose proof (serialize_elems_Forall (fun o => within d' wa wo o = true)
                  _ _ _ _ _ _ Hser (Forall_nil_2 _) Hrun) as Hall.
    destruct (_ >? _); intros [= <- _]; simpl; apply andb_true_iff; split.
    + apply Nat.leb_le. rewrite length_app. simpl. lia.
    + apply forallb_Forall, Forall_app. split; [done|].
      apply Forall_singleton. by destruct d'.
    + apply Nat.leb_le. lia.
    + by apply forallb_Forall.
  - unfold serialize_object.
    destruct (serialize_props _ _ _ _) as [[[obj s1]|]|] eqn:Hrun; [|done|done].
    pose proof (serialize_props_length _ _ _ _ _ _ Hrun) as Hlen.
    rewrite length_take in Hlen. simpl in Hlen.
    pose proof (serialize_props_Forall (fun o => within d' wa wo o = true)
                  _ _ _ _ _ _ Hser (Forall_nil_2 _) Hrun) as Hall.
    destruct (_ >? _); intros [= <- _]; simpl; apply andb_true_iff; split.
    + apply Nat.leb_le.
      match goal with |- (length (obj_set ?k ?v obj) <= _)%nat =>
        pose proof (obj_set_length k v obj) end. lia.
    + apply forallb_Forall. apply (obj_set_Forall (fun o => within d' wa wo o = true)); [|done].
      by destruct d'.
    + apply Nat.leb_le. lia.
    + by apply forallb_Forall.
Qed.

(** A field of an [Error] that is not an object is within every bound. *)
Lemma within_raw d wa wo v : is_ref v = false -> within d wa wo (raw v) = true.
Proof. intros Hv. destruct v; try done; by destruct d. Qed.

(** The bounds on what [serializeValue] returns: [e] is the level that an
    [Error] object adds below the depth limit. *)
Lemma serializeValue_within fuel :
  forall h browser value options depth seen out seen' e wa wo,
    ((1 <= e)%nat /\ (3 <= wo)%nat /\ errors_hold_primitives h) \/ error_free h ->
    (Z.to_nat (maxArray options) + 1 <= wa)%nat ->
    (Z.to_nat (maxProps options) + 1 <= wo)%nat ->
    serializeValue fuel h browser value options depth seen = Some (Returned (out, seen')) ->
    within (Z.to_nat (maxDepth options - depth) + e) wa wo out = true.
Proof.
  induction fuel as [|fuel IH];
    intros h browser value options depth seen out seen' e wa wo He Hwa Hwo; [done|].
  set (d := (Z.to_nat (maxDepth options - depth) + e)%nat).
  assert (Hrec : depth < maxDepth options -> exists d', d = S d' /\
            forall v s o s',
              serializeValue fuel h browser v options (depth + 1) s
              = Some (Returned (o, s')) ->
              within d' wa wo o = true).
  { intros Hd. exists (Z.to_nat (maxDepth options - (depth + 1)) + e)%nat.
    split; [unfold d; lia|]. intros v s o s' Hr. by eapply IH. }
  destruct value; try (simpl; intros [= <- _]; by destruct d).
  - simpl. destruct (_ >? _); intros [= <- _]; by destruct d.
  - rewrite serializeValue_ref.
    pose proof (fun p => serialize_container_within _ options a depth seen (Some p) []
                           out seen' d wa wo Hwa Hwo Hrec) as Harr.
    pose proof (fun p => serialize_container_within _ options a depth seen None p
                           out seen' d wa wo Hwa Hwo Hrec) as Hobj.
    destruct (h a) as [n m st| [iso|] |t i ps|l|ps] eqn:Ha;
      try (intros [= <- _]; by destruct d).
    + destruct He as [(He & Hw & Hprim)|He]; [|by specialize (He a); rewrite Ha in He].
      destruct (Hprim a n m st Ha) as (Hn & Hm & Hst).
      intros [= <- _]. unfold d. destruct (Z.to_nat _ + e)%nat eqn:En; [lia|].
      cbn [within length forallb snd]. apply andb_true_iff. split; [apply Nat.leb_le; lia|].
      by rewrite !within_raw.
    + destruct browser; [intros [= <- _]; by destruct d|]. apply Hobj.
    + apply Harr.
    + apply Hobj.
Qed.

(** Whatever the input, the call ends, and on a heap in which the name,
    the message and the stack of every [Error] are not objects what it
    returns is bounded by the options. Arrays and objects nest at most
    [maxDepth - depth + 1] levels deep, every array holds at most
    [maxArray + 1] items and every object at most [maxProps + 1] keys
    (three for the rendering of an [Error]). The extra level comes from
    [Error] objects only, which are expanded to [{ name, message, stack }]
    at any depth: on a heap without them the nesting is at most
    [maxDepth - depth] levels. *)
Theorem serialized_output_is_bounded :
  forall h browser value options depth seen,
    exists r,
      serializeValue (enough_fuel options depth) h browser value options depth seen
      = Some r
      /\ forall out seen',
          r = Returned (out, seen') ->
          (errors_hold_primitives h ->
           within (Z.to_nat (maxDepth options - depth) + 1)
             (Z.to_nat (maxArray options) + 1)
             (Nat.max 3 (Z.to_nat (maxProps options) + 1)) out = true)
          /\ (error_free h ->
              within (Z.to_nat (maxDepth options - depth))
                (Z.to_nat (maxArray options) + 1) (Z.to_nat (maxProps options) + 1) out
              = true).
Proof.
  intros h browser value options depth seen.
  destruct (serializeValue_total h browser value options depth seen) as (r & Hrun).
  exists r. split; [done|]. intros out seen' ->. split.
  - intros Hprim.
    eapply serializeValue_within; [left; split; [done|split; [lia|done]]|lia|lia|exact Hrun].
  - intros Hfree. rewrite <- (Nat.add_0_r (Z.to_nat _)).
    eapply serializeValue_within; [by right|lia|lia|exact Hrun].
Qed.

(** The self-referential object of [heap_self], with the default options. *)
Lemma serialized_output_is_bounded_witness :
  exists out seen',
    serializeValue (enough_fuel DEFAULTS_logCaptureOptions 0) heap_self false (VRef 0%nat)
      DEFAULTS_logCaptureOptions 0 ∅ = Some (Returned (out, seen'))
    /\ within 4 51 51 out = true.
Proof.
  destruct (serialized_output_is_bounded heap_self false (VRef 0%nat)
              DEFAULTS_logCaptureOptions 0 ∅) as (r & Hrun & Hbound).
  destruct r as [[out seen']|].
  - exists out, seen'. split; [exact Hrun|].
    destruct (Hbound out seen' eq_refl) as [_ Hfree]. apply Hfree. intros a. exact I.
  - exfalso. vm_compute in Hrun. discriminate Hrun.
Defined.

(** The bound needs the condition on the errors: the error [e] with
    [e.message = e] is rendered with [e] itself inside, which no option
    bounds. *)
Example raw_error_field_is_unbounded :
  serialize_root heap_raw false DEFAULTS_logCaptureOptions (VRef 0%nat)
  = Returned (SObject [("name", SString "Error"); ("message", SRaw (VRef 0%nat));
                       ("stack", SString "Error at main.js:1:1")])
  /\ forall d wa wo,
      within d wa wo (SObject [("name", SString "Error"); ("message", SRaw (VRef 0%nat));
                               ("stack", SString "Error at main.js:1:1")]) = false.
Proof.
  split; [vm_compute; reflexivity|].
  intros [|d] wa wo; [done|]. cbn [within forallb snd].
  destruct d; simpl; by rewrite andb_false_r.
Qed.

(** *** Truncation of objects *)

Lemma set_own_keys_new key v obj :
  key ∉ obj.*1 -> (set_own key v obj).*1 = obj.*1 ++ [key].
Proof.
  induction obj as [|[k w] obj IH]; simpl; intros Hnot; [done|].
  apply not_elem_of_cons in Hnot as [Hne Hnot].
  destruct (String.eqb k key) eqn:E.
  - apply String.eqb_eq in E. congruence.
  - simpl. f_equal. by apply IH.
Qed.

Lemma set_own_keys_old key v obj :
  key ∈ obj.*1 -> (set_own key v obj).*1 = obj.*1.
Proof.
  induction obj as [|[k w] obj IH]; simpl; intros Hin.
  - by apply elem_of_nil in Hin.
  - destruct (String.eqb k key) eqn:E; [done|]. simpl. f_equal. apply IH.
    apply elem_of_cons in Hin as [->|Hin]; [|done].
    by rewrite String.eqb_refl in E.
Qed.

Lemma obj_set_keys_new key v obj :
  key ∉ obj.*1 -> (obj_set key v obj).*1 = obj.*1 ++ own_keys [key].
Proof.
  intros Hnot. unfold obj_set, own_keys. simpl.
  destruct (String.eqb key "__proto__"); simpl; [by rewrite app_nil_r|].
  by apply set_own_keys_new.
Qed.

Lemma own_keys_app l1 l2 : own_keys (l1 ++ l2) = own_keys l1 ++ own_keys l2.
Proof. apply List.filter_app. Qed.

Lemma elem_of_own_keys key l : key ∈ own_keys l <-> key ∈ l /\ key <> "__proto__".
Proof.
  unfold own_keys. rewrite !list_elem_of_In, List.filter_In, negb_true_iff.
  split; intros [H1 H2]; (split; [done|]).
  - intros ->. by rewrite String.eqb_refl in H2.
  - destruct (String.eqb key "__proto__") eqn:E; [|done]. by apply String.eqb_eq in E.
Qed.

(** With distinct keys the loop lists the keys in the order of the source
    object, without [__proto__]. *)
Lemma serialize_props_keys ser ps :
  forall obj seen obj' seen',
    NoDup (obj.*1 ++ ps.*1) ->
    serialize_props ser ps obj seen = Some (Returned (obj', seen')) ->
    obj'.*1 = obj.*1 ++ own_keys ps.*1.
Proof.
  induction ps as [|[k v] ps IH]; intros obj seen obj' seen' Hnd; simpl.
  - intros [= <- _]. by rewrite app_nil_r.
  - destruct (ser v seen) as [[[out s1]|]|]; [|done|done].
    simpl in Hnd. apply NoDup_app in Hnd as (Hobj & Hdisj & Hps).
    assert (Hk : k ∉ obj.*1).
    { intros Hin. apply (Hdisj k Hin). left. }
    apply NoDup_cons in Hps as [Hkps Hps].
    intros Hrun. apply IH in Hrun.
    + rewrite Hrun, obj_set_keys_new by done.
      rewrite <- app_assoc. f_equal. unfold own_keys at 1. simpl.
      by destruct (negb _).
    + rewrite obj_set_keys_new by done. apply NoDup_app. split; [|split; [|done]].
      * apply NoDup_app. split; [done|]. split.
        -- intros x Hx Hx'. apply elem_of_own_keys in Hx' as [Hx' _].
           apply list_elem_of_singleton in Hx'. by subst x.
        -- unfold own_keys. simpl. destruct (negb _); [apply NoDup_singleton|apply NoDup_nil_2].
      * intros x Hx Hx'. apply elem_of_app in Hx as [Hx|Hx].
        -- apply (Hdisj x Hx). by right.
        -- apply elem_of_own_keys in Hx as [Hx _].
           apply list_elem_of_singleton in Hx. by subst x.
Qed.

(** An object that [serializeValue] descends into (not in [seen], above
    the depth limit), with distinct keys as [Object.keys] lists them and a
    non-negative [maxProps]. The call ends, and in what it returns the
    keys are those of the object, in their order, without [__proto__]: an
    assignment to that key creates no property. If the object has more
    than [maxProps] keys, the result holds the first [maxProps] of them,
    again without [__proto__], followed by the key [__truncated__] whose
    value is ["N more keys"] for the [N] keys left out; if one of the
    first [maxProps] keys is itself named [__truncated__], no key is added
    and the marker takes the place of that property's value. *)
Theorem truncation_of_objects :
  forall h browser a props options depth seen,
    h a = HObject props -> NoDup props.*1 -> a ∉ seen ->
    depth < maxDepth options -> 0 <= maxProps options ->
    exists r,
      serializeValue (enough_fuel options depth) h browser (VRef a) options depth seen
      = Some r
      /\ forall out seen',
          r = Returned (out, seen') ->
          exists obj,
            out = SObject obj
            /\ (Z.of_nat (length props) > maxProps options ->
                obj_get "__truncated__" obj
                = Some (SString (num_str (Z.of_nat (length props) - maxProps options)
                                 +:+ " more keys"))
                /\ ("__truncated__" ∉ take (Z.to_nat (maxProps options)) props.*1 ->
                    obj.*1 = own_keys (take (Z.to_nat (maxProps options)) props.*1)
                             ++ ["__truncated__"])
                /\ ("__truncated__" ∈ take (Z.to_nat (maxProps options)) props.*1 ->
                    obj.*1 = own_keys (take (Z.to_nat (maxProps options)) props.*1)))
            /\ (Z.of_nat (length props) <= maxProps options -> obj.*1 = own_keys props.*1).
Proof.
  intros h browser a props options depth seen Ha Hnd Hn Hd Hmax.
  destruct (serializeValue_total h browser (VRef a) options depth seen) as (r & Hr).
  exists r. split; [exact Hr|]. intros out seen' ->. revert Hr.
  rewrite (serializeValue_object _ _ _ _ _ _ _ Ha Hn Hd). unfold serialize_object.
  set (ser := fun v s => serializeValue _ h browser v options (depth + 1) s).
  set (k := Z.to_nat (Z.min (Z.of_nat (length props)) (maxProps options))).
  destruct (serialize_props ser (take k props) [] ({[a]} ∪ seen))
    as [[[obj s1]|]|] eqn:Hrun; [|done|done].
  assert (Hkeys : obj.*1 = own_keys (take k props.*1)).
  { rewrite <- fmap_take. apply (serialize_props_keys _ _ _ _ _ _) in Hrun; [done|].
    simpl. rewrite fmap_take. eapply sublist_NoDup; [done|]. apply sublist_take. }
  destruct (_ >? _) eqn:Hgt; intros [= <- _]; eexists; (split; [done|]); split.
  - intros Hlen. assert (Hk : k = Z.to_nat (maxProps options)) by (unfold k; lia).
    rewrite <- Hk.
    replace (Z.min (Z.of_nat (length props)) (maxProps options))
      with (maxProps options) by lia.
    split; [by apply obj_get_set_eq|]. split; intros Hin.
    + change (obj_set "__truncated__" ?v obj) with (set_own "__truncated__" v obj).
      rewrite set_own_keys_new; rewrite Hkeys; [done|].
      intros Hin'. apply elem_of_own_keys in Hin' as [Hin' _]. done.
    + change (obj_set "__truncated__" ?v obj) with (set_own "__truncated__" v obj).
      rewrite set_own_keys_old; rewrite Hkeys; [done|].
      by apply elem_of_own_keys.
  - intros Hlen. lia.
  - intros Hlen. lia.
  - intros Hlen. rewrite Hkeys. f_equal. apply take_ge. rewrite length_fmap. unfold k. lia.
Qed.

(** Three keys with [maxProps = 2]: the keys of the result are [k1], [k2]
    and [__truncated__], the last with the value ["1 more keys"]. *)
Lemma truncation_of_objects_witness :
  exists obj seen',
    serializeValue (enough_fuel options_two_props 0) heap_three_keys false (VRef 0%nat)
      options_two_props 0 ∅ = Some (Returned (SObject obj, seen'))
    /\ obj_get "__truncated__" obj = Some (SString "1 more keys")
    /\ obj.*1 = ["k1"; "k2"; "__truncated__"].
Proof.
  destruct (truncation_of_objects heap_three_keys false 0%nat
              [("k1", VNumber 1); ("k2", VNumber 2); ("k3", VNumber 3)]
              options_two_props 0 ∅)
    as (r & Hrun & Hshape).
  - reflexivity.
  - apply (bool_decide_unpack _). vm_compute. exact I.
  - apply not_elem_of_empty.
  - reflexivity.
  - vm_compute. discriminate.
  - destruct r as [[out seen']|]; [|exfalso; vm_compute in Hrun; discriminate Hrun].
    destruct (Hshape out seen' eq_refl) as (obj & -> & Hmore & _).
    destruct Hmore as (Hget & Hnew & _); [reflexivity|].
    exists obj, seen'. split; [exact Hrun|]. split; [exact Hget|].
    apply Hnew. apply (bool_decide_unpack _). vm_compute. exact I.
Defined.

(** The object that [JSON.parse] gives for
    ['{"a": 1, "__proto__": {"b": 2}}'] comes out with the key [a] only. *)
Example own_proto_key_is_dropped :
  serialize_root heap_raw false DEFAULTS_logCaptureOptions (VRef 1%nat)
  = Returned (SObject [("a", SNumber 1)]).
Proof. vm_compute. reflexivity. Qed.

(** *** Values rendered without loss *)

Lemma obj_set_new key v obj :
  key <> "__proto__" -> key ∉ obj.*1 -> obj_set key v obj = obj ++ [(key, v)].
Proof.
  intros Hp. unfold obj_set. destruct (String.eqb key "__proto__") eqn:E.
  { by apply String.eqb_eq in E. }
  clear E. induction obj as [|[k w] obj IH]; simpl; intros Hnot; [done|].
  apply not_elem_of_cons in Hnot as [Hne Hnot].
  destruct (String.eqb k key) eqn:E.
  - apply String.eqb_eq in E. congruence.
  - f_equal. by apply IH.
Qed.

Lemma serializeValue_plain h browser options :
  (forall depth v addrs out,
      plain h options depth v addrs out ->
      forall seen, addrs ## seen ->
        serializeValue (enough_fuel options depth) h browser v options depth seen
        = Some (Returned (out, addrs ∪ seen)))
  /\ (forall depth vs addrs items,
        plain_elems h options depth vs addrs items ->
        forall arr seen, addrs ## seen ->
          serialize_elems
            (fun v s => serializeValue (enough_fuel options depth) h browser v options depth s)
            vs arr seen
          = Some (Returned (arr ++ items, addrs ∪ seen)))
  /\ (forall depth ps addrs obj,
        plain_props h options depth ps addrs obj ->
        forall acc seen, addrs ## seen -> NoDup (acc.*1 ++ ps.*1) -> "__proto__" ∉ ps.*1 ->
          serialize_props
            (fun v s => serializeValue (enough_fuel options depth) h browser v options depth s)
            ps acc seen
          = Some (Returned (acc ++ obj, addrs ∪ seen))).
Proof.
  apply plain_mutual.
  - intros depth seen _. simpl. by rewrite (left_id_L ∅ (∪)).
  - intros depth seen _. simpl. by rewrite (left_id_L ∅ (∪)).
  - intros depth n seen _. simpl. by rewrite (left_id_L ∅ (∪)).
  - intros depth b seen _. simpl. by rewrite (left_id_L ∅ (∪)).
  - intros depth s Hlen seen _. simpl.
    destruct (str_len s >? maxStringLength options) eqn:E; [lia|].
    by rewrite (left_id_L ∅ (∪)).
  - intros depth a elems addrs items Ha Hd Hlen _ IH Hnot seen Hdisj.
    assert (Hn : a ∉ seen).
    { intros Hin. apply (Hdisj a); [|done]. apply elem_of_union_l. by apply elem_of_singleton. }
    rewrite (serializeValue_array _ _ _ _ _ _ _ Ha Hn Hd). unfold serialize_array.
    replace (Z.to_nat (Z.min (Z.of_nat (length elems)) (maxArray options)))
      with (length elems) by lia.
    rewrite firstn_all, (IH [] ({[a]} ∪ seen)).
    + destruct (_ >? _) eqn:E; [lia|]. simpl. do 3 f_equal.
      rewrite !(assoc_L (∪)). f_equal. apply (comm_L (∪)).
    + intros x Hx Hx'. apply elem_of_union in Hx' as [Hx'|Hx'].
      * apply elem_of_singleton in Hx'. by subst x.
      * apply (Hdisj x); [|done]. by apply elem_of_union_r.
  - intros depth a props addrs obj Ha Hd Hlen Hnd Hproto _ IH Hnot seen Hdisj.
    assert (Hn : a ∉ seen).
    { intros Hin. apply (Hdisj a); [|done]. apply elem_of_union_l. by apply elem_of_singleton. }
    rewrite (serializeValue_object _ _ _ _ _ _ _ Ha Hn Hd). unfold serialize_object.
    replace (Z.to_nat (Z.min (Z.of_nat (length props)) (maxProps options)))
      with (length props) by lia.
    rewrite firstn_all, (IH [] ({[a]} ∪ seen)).
    + destruct (_ >? _) eqn:E; [lia|]. simpl. do 3 f_equal.
      rewrite !(assoc_L (∪)). f_equal. apply (comm_L (∪)).
    + intros x Hx Hx'. apply elem_of_union in Hx' as [Hx'|Hx'].
      * apply elem_of_singleton in Hx'. by subst x.
      * apply (Hdisj x); [|done]. by apply elem_of_union_r.
    + done.
    + done.
  - intros depth arr seen _. simpl. by rewrite app_nil_r, (left_id_L ∅ (∪)).
  - intros depth v vs addrs1 addrs2 out outs _ IHv _ IHvs Hsep arr seen Hdisj.
    cbn [serialize_elems]. rewrite IHv.
    + rewrite IHvs.
      * rewrite <- app_assoc. simpl. do 3 f_equal.
        rewrite !(assoc_L (∪)). f_equal. apply (comm_L (∪)).
      * intros x Hx Hx'. apply elem_of_union in Hx' as [Hx'|Hx'].
        -- by apply (Hsep x).
        -- apply (Hdisj x); [|done]. by apply elem_of_union_r.
    + intros x Hx Hx'. apply (Hdisj x); [|done]. by apply elem_of_union_l.
  - intros depth acc seen _ _ _. simpl. by rewrite app_nil_r, (left_id_L ∅ (∪)).
  - intros depth key v ps addrs1 addrs2 out obj _ IHv _ IHps Hsep acc seen Hdisj Hnd Hproto.
    cbn [serialize_props]. simpl in Hnd. simpl in Hproto.
    apply not_elem_of_cons in Hproto as [Hkp Hproto].
    assert (Hkey : key ∉ acc.*1).
    { apply NoDup_app in Hnd as (_ & Hd & _). intros Hin. apply (Hd key Hin). left. }
    rewrite IHv.
    + rewrite obj_set_new by done. rewrite IHps.
      * rewrite <- app_assoc. simpl. do 3 f_equal.
        rewrite !(assoc_L (∪)). f_equal. apply (comm_L (∪)).
      * intros x Hx Hx'. apply elem_of_union in Hx' as [Hx'|Hx'].
        -- by apply (Hsep x).
        -- apply (Hdisj x); [|done]. by apply elem_of_union_r.
      * rewrite fmap_app, <- app_assoc. exact Hnd.
      * done.
    + intros x Hx Hx'. apply (Hdisj x); [|done]. by apply elem_of_union_l.
Qed.

(** Within the limits nothing is lost. A finite tree of arrays and plain
    objects over [null], [undefined], numbers, booleans and strings, in
    which no array or object occurs twice, no object has an own key
    [__proto__], every string is at most [maxStringLength] long, every
    array has at most [maxArray] elements, every object at most [maxProps]
    keys, and the nesting stays below [maxDepth], is serialized to its
    structural copy: the call returns, with no marker, no truncation, keys
    and elements in their order. The call adds exactly the arrays and
    objects of the tree to [seen]. *)
Theorem plain_values_are_copied :
  forall h browser options depth v addrs out seen,
    plain h options depth v addrs out -> addrs ## seen ->
    serializeValue (enough_fuel options depth) h browser v options depth seen
    = Some (Returned (out, addrs ∪ seen)).
Proof.
  intros h browser options depth v addrs out seen Hplain Hdisj.
  by apply (proj1 (serializeValue_plain h browser options)).
Qed.

(** [[ [1, 2, 3] ]] with the default options. *)
Lemma plain_values_are_copied_witness :
  exists seen',
    serializeValue (enough_fuel DEFAULTS_logCaptureOptions 0) heap_nested false (VRef 0%nat)
      DEFAULTS_logCaptureOptions 0 ∅
    = Some (Returned (SArray [SArray [SNumber 1; SNumber 2; SNumber 3]], seen')).
Proof.
  eexists.
  apply (plain_values_are_copied heap_nested false DEFAULTS_logCaptureOptions 0
           (VRef 0%nat) ({[0%nat]} ∪ (({[1%nat]} ∪ (∅ ∪ (∅ ∪ (∅ ∪ ∅)))) ∪ ∅))).
  - apply (plain_array heap_nested _ 0 0%nat [VRef 1%nat]); [reflexivity|reflexivity| |
      |apply (bool_decide_unpack _); vm_compute; exact I].
    + vm_compute. discriminate.
    + apply plain_elems_cons; [|apply plain_elems_nil
        |apply (bool_decide_unpack _); vm_compute; exact I].
      apply (plain_array heap_nested _ 1 1%nat [VNumber 1; VNumber 2; VNumber 3]);
        [reflexivity|reflexivity| | |apply (bool_decide_unpack _); vm_compute; exact I].
      * vm_compute. discriminate.
      * repeat (apply plain_elems_cons;
                [apply plain_number| |apply (bool_decide_unpack _); vm_compute; exact I]).
        apply plain_elems_nil.
  - apply (bool_decide_unpack _). vm_compute. exact I.
Defined.

End SerializerFacts.

(** ** The transport client *)

Section ClientFacts.
Import Serializer Client.

(** [connect()] with a socket registered does nothing. *)
Lemma connect_registered rt id : ws (rstate rt) = Some id -> connect rt = rt.
Proof. intros H. unfold connect. by rewrite H. Qed.

(** C7 fails on the code. The [close] listener clears [state.ws] and arms
    a reconnect timer whichever socket closed. A client is stopped and
    started again, and the new socket opens; when the [close] event of the
    stopped socket arrives, [state.ws] is cleared although the new
    connection is live, and the timer then opens a second connection
    beside it. Likewise, of the two timers armed by two [close] events,
    the second opens one more connection when the connection opened by the
    first has failed in between: two closes give two attempts. When
    nothing closes between the timers, the second timer is skipped: the
    guard of the timer callback and of [connect] does hold back a
    reconnection while a socket is registered in [state.ws]. *)
Theorem reconnect_opens_duplicates :
  (fmap readyState ∘ sockets
     <$> run false [SocketOpen 0%nat; CallStop; CallStart None; SocketOpen 1%nat;
                    SocketClose 0%nat] started)
  = Some [CLOSED; OPEN]
  /\ (ws ∘ rstate
        <$> run false [SocketOpen 0%nat; CallStop; CallStart None; SocketOpen 1%nat;
                       SocketClose 0%nat] started)
     = Some None
  /\ (fmap readyState ∘ sockets
        <$> run false [SocketOpen 0%nat; CallStop; CallStart None; SocketOpen 1%nat;
                       SocketClose 0%nat; TimerFires] started)
     = Some [CLOSED; OPEN; CONNECTING]
  /\ (attempts <$> two_live_sockets) = Some 2%nat
  /\ (attempts
        <$> (two_live_sockets
               ≫= run false [SocketClose 0%nat; SocketClose 1%nat; TimerFires; TimerFires]))
     = Some 3%nat
  /\ (attempts
        <$> (two_live_sockets
               ≫= run false [SocketClose 0%nat; SocketClose 1%nat; TimerFires;
                             SocketClose 2%nat; TimerFires]))
     = Some 4%nat
  /\ (forall rt id,
        ws (rstate rt) = Some id ->
        connect rt = rt /\ sockets (retry_timer_fires rt) = sockets rt).
Proof.
  do 6 (split; [vm_compute; reflexivity|]).
  intros rt id Hws. split; [by apply (connect_registered rt id)|].
  unfold retry_timer_fires. simpl. by rewrite Hws.
Qed.

(** C3 fails on the code. A started client whose connection opened is
    stopped: [stop] closes the socket and clears [state.ws]. The socket's
    own [close] listener then runs, arms the reconnect timer, and the timer
    finds no socket registered and opens a second connection, with no call
    of [start] in between. Likewise a timer armed before [stop] was called
    (the connection had failed) still fires and reconnects. *)
Theorem stop_then_reconnect :
  (attempts <$> run false [SocketOpen 0%nat; CallStop] started) = Some 1%nat
  /\ (attempts <$> run false [SocketOpen 0%nat; CallStop; SocketClose 0%nat; TimerFires]
                     started) = Some 2%nat
  /\ (ws ∘ rstate <$> run false [SocketOpen 0%nat; CallStop; SocketClose 0%nat; TimerFires]
                        started) = Some (Some 1%nat)
  /\ (attempts <$> run false [SocketClose 0%nat; CallStop; TimerFires] started)
     = Some 2%nat.
Proof. repeat split; vm_compute; reflexivity. Qed.

(** *** Flushing the queue *)

Lemma lookup_alter_socket (f : Socket -> Socket) (id : SocketId) (l : list Socket) sk :
  l !! id = Some sk -> alter f id l !! id = Some (f sk).
Proof.
  intros H. etransitivity; [apply list_lookup_alter_eq|].
  etransitivity; [apply (f_equal (fmap f) H)|reflexivity].
Qed.

Lemma can_send_push payload rt id :
  ws (rstate rt) = Some id ->
  can_send (set_sockets (alter (push_sent payload) id) rt) = can_send rt.
Proof.
  intros Hws. unfold can_send, ws_readyState. simpl. rewrite Hws. simpl.
  rewrite list_lookup_alter_eq. unfold SocketId in *.
  destruct (sockets rt !! id) eqn:E; reflexivity.
Qed.

(** While the client can send, the loop of [flushQueue] transmits the
    queue in order on the registered socket, dropping nothing but falsy
    payloads, and empties it, when [JSON.stringify] writes every payload. *)
Lemma flush_loop_fifo fuel :
  forall rt id sk,
    (length (queue (rstate rt)) <= fuel)%nat ->
    can_send rt = true -> ws (rstate rt) = Some id -> sockets rt !! id = Some sk ->
    forallb (writable rt) (queue (rstate rt)) = true ->
    exists rt',
      flush_loop fuel rt = Some (false, rt')
      /\ queue (rstate rt') = []
      /\ ws (rstate rt') = Some id
      /\ connected (rstate rt') = connected (rstate rt)
      /\ sockets rt' !! id
         = Some {| url := url sk; readyState := readyState sk;
                   sent := sent sk ++ List.filter payload_truthy (queue (rstate rt)) |}.
Proof.
  induction fuel as [|fuel IH]; intros rt id sk Hlen Hcan Hws Hsk Hall.
  - destruct (queue (rstate rt)) as [|p rest] eqn:Hq; simpl in Hlen; [|lia].
    exists rt. simpl. rewrite Hq. simpl. rewrite app_nil_r, Hsk.
    repeat split; try done. by destruct sk.
  - destruct (queue (rstate rt)) as [|p rest] eqn:Hq.
    + exists rt. simpl. rewrite Hq. simpl. rewrite app_nil_r, Hsk.
      repeat split; try done. by destruct sk.
    + simpl. rewrite Hq. simpl in Hlen.
      cbn [forallb] in Hall. apply andb_true_iff in Hall as [Hp Hall].
      set (rt0 := set_state (with_queue rest) rt).
      assert (Hcan0 : can_send rt0 = true) by exact Hcan.
      unfold writable in Hp. change (payload_throws rt p) with (payload_throws rt0 p) in Hp.
      unfold send_throws, send. rewrite Hcan0.
      destruct (payload_truthy p) eqn:Htruthy; cbn [andb negb] in *.
      * apply negb_true_iff in Hp. rewrite Hp.
        change (ws (rstate rt0)) with (ws (rstate rt)). rewrite Hws.
        set (rt1 := set_sockets (alter (push_sent p) id) rt0).
        destruct (IH rt1 id (push_sent p sk)) as (rt' & Hrun & Hq' & Hw' & Hc' & Hs').
        { simpl. lia. }
        { unfold rt1. by rewrite can_send_push. }
        { done. }
        { exact (lookup_alter_socket _ _ _ _ Hsk). }
        { exact Hall. }
        exists rt'. rewrite Hrun. repeat split; try done.
        rewrite Hs'. simpl. by rewrite <- app_assoc.
      * destruct (IH rt0 id sk) as (rt' & Hrun & Hq' & Hw' & Hc' & Hs'); try done.
        { simpl. lia. }
        exists rt'. rewrite Hrun. repeat split; done.
Qed.

(** The loop ends at the first payload that [JSON.stringify] cannot write:
    what came before it was transmitted, the payload itself is gone, and
    what came after it stays in the queue. *)
Lemma flush_loop_aborts fuel :
  forall rt id sk good bad rest,
    queue (rstate rt) = good ++ bad :: rest -> (length good < fuel)%nat ->
    can_send rt = true -> ws (rstate rt) = Some id -> sockets rt !! id = Some sk ->
    forallb (writable rt) good = true -> writable rt bad = false ->
    exists rt',
      flush_loop fuel rt = Some (true, rt')
      /\ queue (rstate rt') = rest
      /\ sockets rt' !! id
         = Some {| url := url sk; readyState := readyState sk;
                   sent := sent sk ++ List.filter payload_truthy good |}.
Proof.
  induction fuel as [|fuel IH]; intros rt id sk good bad rest Hq Hlen Hcan Hws Hsk Hall Hbad;
    [lia|].
  destruct good as [|p good]; simpl in Hq; simpl; rewrite Hq.
  - set (rt0 := set_state (with_queue rest) rt).
    assert (Hcan0 : can_send rt0 = true) by exact Hcan.
    unfold writable in Hbad. apply negb_false_iff, andb_true_iff in Hbad as [Ht Hthrows].
    change (payload_throws rt bad) with (payload_throws rt0 bad) in Hthrows.
    unfold send_throws. rewrite Ht, Hcan0, Hthrows. cbn [andb].
    exists rt0. split; [done|]. split; [done|].
    change (sockets rt0) with (sockets rt). rewrite Hsk, app_nil_r. by destruct sk.
  - cbn [forallb] in Hall. apply andb_true_iff in Hall as [Hp Hall].
    set (rt0 := set_state (with_queue (good ++ bad :: rest)) rt).
    assert (Hcan0 : can_send rt0 = true) by exact Hcan.
    unfold writable in Hp. change (payload_throws rt p) with (payload_throws rt0 p) in Hp.
    unfold send_throws, send. rewrite Hcan0.
    destruct (payload_truthy p) eqn:Htruthy; cbn [andb negb] in *.
    + apply negb_true_iff in Hp. rewrite Hp.
        change (ws (rstate rt0)) with (ws (rstate rt)). rewrite Hws.
      set (rt1 := set_sockets (alter (push_sent p) id) rt0).
      destruct (IH rt1 id (push_sent p sk) good bad rest) as (rt' & Hrun & Hq' & Hs').
      { done. }
      { simpl in Hlen. lia. }
      { unfold rt1. by rewrite can_send_push. }
      { done. }
      { exact (lookup_alter_socket _ _ _ _ Hsk). }
      { exact Hall. }
      { exact Hbad. }
      exists rt'. rewrite Hrun. repeat split; try done.
      rewrite Hs'. simpl. by rewrite <- app_assoc.
    + destruct (IH rt0 id sk good bad rest) as (rt' & Hrun & Hq' & Hs'); try done.
      { simpl in Hlen. lia. }
      exists rt'. rewrite Hrun. repeat split; done.
Qed.

(** Queue ordering. When the socket that is registered in [state.ws]
    opens, everything queued while the client was disconnected is
    transmitted on it in the order it was queued, followed by the [hello]
    handshake, and the queue is left empty, provided [JSON.stringify]
    writes every queued payload. At the first queued payload that it
    cannot write, [send] throws and the exception leaves the [open]
    listener: by then the payloads queued before it were transmitted, that
    payload is dropped, the payloads queued after it are still in the
    queue, and the handshake is not sent. *)
Theorem queue_is_flushed_in_order :
  forall browser id rt sk,
    ws (rstate rt) = Some id -> sockets rt !! id = Some sk ->
    (forallb (writable rt) (queue (rstate rt)) = true ->
     exists rt',
       on_open browser id rt = Some (false, rt')
       /\ queue (rstate rt') = []
       /\ sent <$> sockets rt' !! id
          = Some (sent sk ++ List.filter payload_truthy (queue (rstate rt))
                    ++ [PHello (if browser then "browser" else "node")]))
    /\ (forall good bad rest,
          queue (rstate rt) = good ++ bad :: rest ->
          forallb (writable rt) good = true -> writable rt bad = false ->
          exists rt',
            on_open browser id rt = Some (true, rt')
            /\ queue (rstate rt') = rest
            /\ sent <$> sockets rt' !! id
               = Some (sent sk ++ List.filter payload_truthy good)).
Proof.
  intros browser id rt sk Hws Hsk. unfold on_open, flushQueue.
  set (rt0 := set_state (with_connected true)
                (set_sockets (alter (set_readyState OPEN) id) rt)).
  assert (Hsk0 : sockets rt0 !! id = Some (set_readyState OPEN sk)).
  { exact (lookup_alter_socket _ _ _ _ Hsk). }
  assert (Hcan0 : can_send rt0 = true).
  { unfold can_send, ws_readyState. change (ws (rstate rt0)) with (ws (rstate rt)).
    rewrite Hws. simpl. by rewrite (lookup_alter_socket _ _ _ _ Hsk). }
  split.
  - intros Hall.
    destruct (flush_loop_fifo (length (queue (rstate rt0))) rt0 id (set_readyState OPEN sk))
      as (rt1 & Hrun & Hq1 & Hw1 & Hc1 & Hs1); try done.
    rewrite Hrun. simpl. eexists. split; [reflexivity|].
    assert (Hcan1 : can_send rt1 = true).
    { unfold can_send, ws_readyState. rewrite Hc1, Hw1. simpl. by rewrite Hs1. }
    unfold send. simpl. rewrite Hcan1, Hw1. simpl. split; [done|].
    rewrite (lookup_alter_socket _ _ _ _ Hs1). simpl. by rewrite <- app_assoc.
  - intros good bad rest Hq Hall Hbad.
    destruct (flush_loop_aborts (length (queue (rstate rt0))) rt0 id (set_readyState OPEN sk)
                good bad rest) as (rt1 & Hrun & Hq1 & Hs1); try done.
    { change (queue (rstate rt0)) with (queue (rstate rt)). rewrite Hq, length_app.
      simpl. lia. }
    rewrite Hrun. simpl. eexists. split; [reflexivity|]. split; [done|].
    by rewrite Hs1.
Qed.

(** Two events queued before the first connection opens. *)
Lemma queue_is_flushed_in_order_witness :
  exists rt',
    on_open false 0%nat (send (PUser true 2) (send (PUser true 1) started))
    = Some (false, rt')
    /\ queue (rstate rt') = []
    /\ sent <$> sockets rt' !! 0%nat
       = Some ([] ++ List.filter payload_truthy [PUser true 1; PUser true 2]
                 ++ [PHello "node"]).
Proof.
  apply (queue_is_flushed_in_order false 0%nat
           (send (PUser true 2) (send (PUser true 1) started))
           {| url := ws_url DEFAULTS; readyState := CONNECTING; sent := [] |});
    reflexivity.
Defined.

(** An event that holds a BigInt, queued between two others: when the
    socket opens, the first is transmitted and the exception leaves the
    listener; the event is gone, the third is still in the queue and no
    handshake was sent. *)
Example flush_stops_at_a_bigint :
  (fun r => (r.1, queue (rstate r.2), sent <$> sockets r.2 !! 0%nat))
    <$> on_open false 0%nat
          (send (PUser true 2) (send bigint_event (send (PUser true 1) started)))
  = Some (true, [PUser true 2], Some [PUser true 1]).
Proof. vm_compute. reflexivity. Qed.

(** *** Capture points *)

(** [send] leaves the heap, the configuration and what the built-ins
    decide alone. *)
Lemma send_heap payload rt :
  heap (send payload rt) = heap rt /\ config (rstate (send payload rt)) = config (rstate rt).
Proof.
  unfold send. destruct (negb (payload_truthy payload)); [done|].
  destruct (negb (can_send rt)); [done|].
  destruct (payload_throws rt payload); [done|]. by destruct (ws (rstate rt)).
Qed.

Lemma send_engine payload rt :
  json_throws (send payload rt) = json_throws rt
  /\ app_throws (send payload rt) = app_throws rt
  /\ url_valid (send payload rt) = url_valid rt.
Proof.
  unfold send. destruct (negb (payload_truthy payload)); [done|].
  destruct (negb (can_send rt)); [done|].
  destruct (payload_throws rt payload); [done|]. by destruct (ws (rstate rt)).
Qed.

(** [send] at a capture point, for a log event with the values
    [values]. *)
Lemma send_call_log typeError (l : LogPayload) values rt :
  p_values l = Some values ->
  send_call typeError (PLog l) rt
  = if can_send rt && existsb (stringify_throws (json_throws rt)) values
    then (Throws (typeError rt), rt)
    else (Returns tt, send (PLog l) rt).
Proof.
  intros Hv. unfold send_call, send_throws, send, payload_throws. rewrite Hv.
  change (default [] (Some values)) with values. cbn [payload_truthy andb negb].
  destruct (can_send rt); cbn [andb negb]; [|done].
  by destruct (existsb _ values).
Qed.

Lemma settle_heap rangeError durationText typeError p o rt :
  heap (snd (settle rangeError durationText typeError p o rt)) = heap rt
  /\ config (rstate (snd (settle rangeError durationText typeError p o rt)))
     = config (rstate rt)
  /\ json_throws (snd (settle rangeError durationText typeError p o rt)) = json_throws rt.
Proof.
  induction p as [tag|p IH start method url]; [done|]. cbn [settle].
  destruct (settle rangeError durationText typeError p o rt) as [[r|e'] rt'] eqn:E;
    cbn [snd] in *.
  - destruct (send_heap (network_payload durationText method url (inl (resp_status r))
                           (elapsed start rt') None rt') rt') as [-> ->].
    destruct (send_engine (network_payload durationText method url (inl (resp_status r))
                             (elapsed start rt') None rt') rt') as (-> & _). exact IH.
  - destruct (serializeValues (heap rt') true (capture_options rt') [e']) as [values|];
      cbn [snd]; [|exact IH].
    unfold send_call.
    set (payload := network_payload durationText method url (inr "ERR")
                      (elapsed start rt') (Some values) rt').
    destruct (send_heap payload rt') as [Hh Hc].
    destruct (send_engine payload rt') as (Hj & _).
    destruct (send_throws payload rt'); cbn [snd]; rewrite Hh, Hc, Hj; exact IH.
Qed.

(** The promise a wrapped [fetch] returns fulfils with the response of the
    original promise. *)
Lemma settle_fulfilled rangeError durationText typeError p response rt :
  fst (settle rangeError durationText typeError p (Fulfilled response) rt)
  = Fulfilled response.
Proof.
  induction p as [tag|p IH start method url]; [done|]. cbn [settle].
  destruct (settle rangeError durationText typeError p (Fulfilled response) rt)
    as [[r|e'] rt'] eqn:E; cbn [fst] in *; [congruence|discriminate].
Qed.

(** The promise a wrapped [fetch] returns rejects with what the original
    promise rejects with, when that value can be serialized for the event
    and the event can be written. *)
Lemma settle_rejected rangeError durationText typeError p e rt values :
  serializeValues (heap rt) true (capture_options rt) [e] = Returned values ->
  existsb (stringify_throws (json_throws rt)) values = false ->
  fst (settle rangeError durationText typeError p (Rejected e) rt) = Rejected e.
Proof.
  intros Hser Hjson. induction p as [tag|p IH start method url]; [done|]. cbn [settle].
  pose proof (settle_heap rangeError durationText typeError p (Rejected e) rt)
    as (Hh & Hc & Hj).
  destruct (settle rangeError durationText typeError p (Rejected e) rt)
    as [[r|e'] rt'] eqn:E; cbn [fst snd] in *; [discriminate|].
  injection IH as ->. unfold capture_options. rewrite Hh, Hc.
  unfold capture_options in Hser. rewrite Hser.
  unfold network_payload. erewrite (send_call_log typeError); [|reflexivity].
  by rewrite Hj, Hjson, andb_false_r.
Qed.




(** The capture itself can throw: [console.log(new Date(NaN))] on a started
    client, around an original that returns, throws the [RangeError] of
    [toISOString] and queues nothing. *)
Example console_capture_throws :
  patched_console false no_stack no_stack no_location no_preview example_rangeError
    example_typeError "log"
    (Some (fun _ rt => (Returns tt, rt))) [VRef 1%nat] invalid_date_logged
  = (Throws (example_rangeError invalid_date_logged), invalid_date_logged).
Proof. reflexivity. Qed.

(** So can the transmission: [console.log(e)] with [e.message = 1n] queues
    the event while the client is not connected, and throws the
    [TypeError] of [JSON.stringify] once it is. *)
Example console_send_throws :
  fst (patched_console false no_stack no_stack no_location no_preview example_rangeError
         example_typeError "log"
         (Some (fun _ rt => (Returns tt, rt))) [VRef 0%nat] bigint_error_logged)
  = Returns tt
  /\ (fun rt => fst (patched_console false no_stack no_stack no_location no_preview
                       example_rangeError example_typeError "log"
                       (Some (fun _ rt => (Returns tt, rt))) [VRef 0%nat] rt))
       <$> bigint_error_connected
     = Some (Throws (VString "TypeError: Do not know how to serialize a BigInt")).
Proof. split; vm_compute; reflexivity. Qed.

(** *** A flush that cannot send *)

(** While the client cannot send, [send] puts every truthy payload that
    the loop shifts back at the end of the queue, so the queue never
    empties: no number of iterations ends the loop. *)
Lemma flush_loop_stuck fuel :
  forall rt,
    can_send rt = false -> existsb payload_truthy (queue (rstate rt)) = true ->
    flush_loop fuel rt = None.
Proof.
  induction fuel as [|fuel IH]; intros rt Hcan Hex.
  - simpl. destruct (queue (rstate rt)); [discriminate|reflexivity].
  - simpl. destruct (queue (rstate rt)) as [|p rest] eqn:Hq; [discriminate|].
    simpl in Hex. unfold send_throws.
    change (can_send (set_state (with_queue rest) rt)) with (can_send rt).
    rewrite Hcan, andb_false_r. cbn [andb]. apply IH.
    + unfold send. destruct (payload_truthy p); simpl; [|exact Hcan].
      change (can_send (set_state (with_queue rest) rt)) with (can_send rt).
      rewrite Hcan. exact Hcan.
    + unfold send. destruct (payload_truthy p) eqn:Hp; simpl; [|exact Hex].
      change (can_send (set_state (with_queue rest) rt)) with (can_send rt).
      rewrite Hcan. simpl. rewrite existsb_app. simpl.
      by rewrite Hp, orb_true_r.
Qed.


(** [flushQueue] does not return when it is entered while the client
    cannot send (not connected, no socket registered, or the registered
    socket not open) and the queue holds a truthy payload: however many
    iterations the loop is given, it has not ended. *)
Theorem flushQueue_never_returns :
  forall fuel rt,
    can_send rt = false -> existsb payload_truthy (queue (rstate rt)) = true ->
    flush_loop fuel rt = None.
Proof. intros fuel rt. apply flush_loop_stuck. Qed.

(** A run that leads there. The first connection opens, the program calls
    [stop()], then [start()], which opens socket 1, and logs once; the
    [close] event of socket 0 then clears [state.ws]. When socket 1 opens,
    its listener sets [state.connected] and enters [flushQueue] with no
    socket registered. *)
Lemma flushQueue_never_returns_witness :
  exists rt,
    run false [SocketOpen 0%nat; CallStop; CallStart None; CallSend (PUser true 1);
               SocketClose 0%nat] started = Some rt
    /\ enabled (SocketOpen 1%nat) rt = true
    /\ queue (rstate rt) = [PUser true 1]
    /\ ws (rstate rt) = None
    /\ on_open false 1%nat rt = None
    /\ forall fuel,
        flush_loop fuel
          (set_state (with_connected true)
             (set_sockets (alter (set_readyState OPEN) 1%nat) rt)) = None.
Proof.
  eexists. split; [vm_compute; reflexivity|].
  split; [reflexivity|]. split; [reflexivity|]. split; [reflexivity|].
  split; [reflexivity|].
  intros fuel. apply flushQueue_never_returns; reflexivity.
Defined.

(** *** Nothing is lost on the way to the socket *)

Lemma transmitted_alter (f : Socket -> Socket) (id : SocketId) rt :
  (forall sk, sent (f sk) = sent sk) ->
  transmitted (set_sockets (alter f id) rt) = transmitted rt.
Proof.
  intros Hf. unfold transmitted. simpl. f_equal.
  generalize (sockets rt). intros l. revert id.
  induction l as [|sk l IH]; intros [|id]; simpl; try done.
  - by rewrite Hf.
  - f_equal. apply IH.
Qed.

Lemma transmitted_push (id : SocketId) p rt sk :
  sockets rt !! id = Some sk ->
  transmitted (set_sockets (alter (push_sent p) id) rt) ≡ₚ transmitted rt ++ [p].
Proof.
  unfold transmitted. simpl. generalize (sockets rt). intros l. revert id.
  induction l as [|sk' l IH]; intros [|id]; simpl; try done.
  - intros _. rewrite <- !app_assoc. apply Permutation_app_head.
    apply Permutation_app_comm.
  - intros Hl. rewrite (IH _ Hl). by rewrite app_assoc.
Qed.

Lemma transmitted_connect rt : transmitted (connect rt) = transmitted rt.
Proof.
  unfold connect. destruct (ws (rstate rt)); [done|].
  destruct (url_valid rt _); [|done].
  unfold transmitted. simpl. rewrite fmap_app, concat_app. simpl.
  by rewrite app_nil_r.
Qed.

Lemma queue_connect rt : queue (rstate (connect rt)) = queue (rstate rt).
Proof.
  unfold connect. destruct (ws (rstate rt)); [done|]. by destruct (url_valid rt _).
Qed.

(** What is waiting or was transmitted: the truthy payloads of the queue,
    then everything handed to a socket. A payload handed to [send] is
    added to them unless [send] throws. *)
Lemma send_conserves p rt :
  List.filter payload_truthy (queue (rstate (send p rt))) ++ transmitted (send p rt)
  ≡ₚ List.filter payload_truthy (queue (rstate rt)) ++ transmitted rt
     ++ (if payload_truthy p && negb (send_throws p rt) then [p] else []).
Proof.
  unfold send, send_throws. destruct (payload_truthy p) eqn:Hp; simpl.
  - destruct (can_send rt) eqn:Hcan; simpl.
    + destruct (payload_throws rt p); simpl; [by rewrite app_nil_r|].
      unfold can_send, ws_readyState in Hcan.
      apply andb_true_iff in Hcan as [_ Hcan].
      destruct (ws (rstate rt)) as [id|] eqn:Hws; [|done]. simpl in Hcan.
      destruct (sockets rt !! id) as [sk|] eqn:Hsk; [|done].
      apply Permutation_app_head. by eapply transmitted_push.
    + rewrite List.filter_app. simpl. rewrite Hp.
      rewrite <- !app_assoc. apply Permutation_app_head.
      apply Permutation_app_comm.
  - by rewrite !app_nil_r.
Qed.

(** A flush that ends without an exception empties the queue and loses
    nothing. *)
Lemma flush_loop_conserves fuel :
  forall rt r,
    flush_loop fuel rt = Some (false, r) ->
    queue (rstate r) = []
    /\ List.filter payload_truthy (queue (rstate r)) ++ transmitted r
       ≡ₚ List.filter payload_truthy (queue (rstate rt)) ++ transmitted rt.
Proof.
  induction fuel as [|fuel IH]; intros rt r; simpl.
  - destruct (queue (rstate rt)) eqn:Hq; [|done]. intros [= <-]. by rewrite Hq.
  - destruct (queue (rstate rt)) as [|p rest] eqn:Hq;
      [intros [= <-]; by rewrite Hq|].
    set (rt1 := set_state (with_queue rest) rt) in *.
    destruct (send_throws p rt1) eqn:Hno; [done|]. intros Hrun.
    destruct (IH _ _ Hrun) as (H1 & H2). split; [done|].
    rewrite H2, send_conserves, Hno. simpl.
    change (transmitted rt1) with (transmitted rt).
    destruct (payload_truthy p); simpl; [|by rewrite app_nil_r].
    rewrite app_assoc. apply (Permutation_app_comm _ [p]).
Qed.

Lemma handle_conserves browser ev rt rt' :
  handle browser ev rt = Some rt' ->
  List.filter payload_truthy (queue (rstate rt')) ++ transmitted rt'
  ≡ₚ List.filter payload_truthy (queue (rstate rt)) ++ transmitted rt
     ++ offered browser ev.
Proof.
  destruct ev as [options| |payload|id|id message|id|id|]; simpl.
  - destruct (start_throws options rt); [done|]. intros [= <-]. unfold start.
    set (rt1 := install _).
    assert (H1 : queue (rstate rt1) = queue (rstate rt) /\ transmitted rt1 = transmitted rt).
    { unfold rt1, install. clear. by destruct options; simpl; destruct (installed (rstate rt)). }
    destruct H1 as (Hq & Ht).
    by rewrite queue_connect, transmitted_connect, app_nil_r, Hq, Ht.
  - intros [= <-]. rewrite app_nil_r. unfold stop.
    destruct (ws (rstate rt)); [|done]. simpl.
    change (transmitted (set_state (with_ws None) ?r)) with (transmitted r).
    rewrite transmitted_alter; [done|]. intros sk. unfold socket_close.
    by destruct (readyState sk).
  - destruct (send_throws payload rt) eqn:Hno; [done|]. intros [= <-].
    rewrite send_conserves, Hno. by destruct (payload_truthy payload).
  - unfold on_open, flushQueue.
    set (rt0 := set_state _ _).
    destruct (flush_loop _ rt0) as [[[|] rt1]|] eqn:Hrun; [done| |done].
    intros [= <-].
    destruct (flush_loop_conserves _ _ _ Hrun) as (H1 & H2).
    rewrite send_conserves.
    assert (Hno : send_throws (PHello (if browser then "browser" else "node")) rt1 = false).
    { unfold send_throws. simpl. by rewrite andb_false_r. }
    rewrite Hno. simpl.
    rewrite app_assoc, H2, <- app_assoc.
    unfold rt0.
    change (transmitted (set_state (with_connected true) ?r)) with (transmitted r).
    by rewrite transmitted_alter.
  - intros [= <-]. rewrite app_nil_r. by destruct message.
  - intros [= <-]. rewrite app_nil_r. unfold on_close, retryConnect.
    change (transmitted (set_pendingTimers S (set_state ?f ?r))) with (transmitted r).
    by rewrite transmitted_alter.
  - intros [= <-]. by rewrite app_nil_r.
  - destruct (retry_timer_throws rt); [done|]. intros [= <-].
    rewrite app_nil_r. unfold retry_timer_fires. simpl.
    destruct (ws (rstate rt)); [done|].
    by rewrite queue_connect, transmitted_connect.
Qed.

(** Along every run that completes, nothing that was handed to the
    transport is lost or duplicated: the truthy payloads that wait in the
    queue together with everything handed to a socket are, up to their
    order, those from before the run together with every truthy payload
    that [send] was called with and one handshake for every socket that
    opened. Neither [stop()], nor a [close] or [error] event, nor a
    reconnection drops a queued payload. A run in which a handler is left
    by an exception does not complete. *)
Theorem payloads_are_conserved :
  forall browser evs rt rt',
    run browser evs rt = Some rt' ->
    List.filter payload_truthy (queue (rstate rt')) ++ transmitted rt'
    ≡ₚ List.filter payload_truthy (queue (rstate rt)) ++ transmitted rt
       ++ concat (offered browser <$> evs).
Proof.
  intros browser evs. induction evs as [|ev evs IH]; intros rt rt'; simpl.
  - intros [= <-]. by rewrite app_nil_r.
  - destruct (enabled ev rt); [|done].
    destruct (handle browser ev rt) as [rt1|] eqn:Hh; [|done]. simpl.
    intros Hrun.
    rewrite (IH _ _ Hrun), app_assoc, (handle_conserves _ _ _ _ Hh).
    by rewrite <- !app_assoc.
Qed.

(** Two payloads sent before the first connection opens, one after a
    [stop()]. *)
Lemma payloads_are_conserved_witness :
  exists rt',
    run false [CallSend (PUser true 1); CallSend (PUser true 2); SocketOpen 0%nat;
               CallStop; CallSend (PUser true 3)] started = Some rt'
    /\ List.filter payload_truthy (queue (rstate rt')) ++ transmitted rt'
       ≡ₚ List.filter payload_truthy (queue (rstate started)) ++ transmitted started
          ++ [PUser true 1; PUser true 2; PHello "node"; PUser true 3].
Proof.
  eexists. split; [vm_compute; reflexivity|].
  apply (payloads_are_conserved false
           [CallSend (PUser true 1); CallSend (PUser true 2); SocketOpen 0%nat;
            CallStop; CallSend (PUser true 3)] started).
  vm_compute; reflexivity.
Defined.

(** A run in which [send] throws does not complete: an event that holds a
    BigInt is queued, and when the socket opens [JSON.stringify] throws on
    it in the [open] listener. *)
Example unwritable_payload_ends_the_run :
  run false [CallSend bigint_event; SocketOpen 0%nat] started = None.
Proof. vm_compute. reflexivity. Qed.

(** *** [stop()] and the queue *)

(** [stop()] unregisters the socket and touches neither the queue nor what
    was transmitted; it leaves [state.connected] as it was. From then on
    every truthy payload handed to [send] is put at the end of the queue,
    whatever [state.connected] says, until a socket is registered again.
    Calling [stop()] twice is calling it once. *)
Theorem stop_keeps_the_queue :
  forall rt,
    ws (rstate (stop rt)) = None
    /\ queue (rstate (stop rt)) = queue (rstate rt)
    /\ connected (rstate (stop rt)) = connected (rstate rt)
    /\ sent <$> sockets (stop rt) = sent <$> sockets rt
    /\ stop (stop rt) = stop rt
    /\ forall payloads,
        forallb payload_truthy payloads = true ->
        foldl (fun r p => send p r) (stop rt) payloads
        = set_state (fun s => with_queue (queue s ++ payloads) s) (stop rt).
Proof.
  intros rt.
  assert (Hws : ws (rstate (stop rt)) = None).
  { unfold stop. destruct (ws (rstate rt)) eqn:E; [done|exact E]. }
  split; [exact Hws|]. split; [|split; [|split; [|split]]].
  - unfold stop. by destruct (ws (rstate rt)).
  - unfold stop. by destruct (ws (rstate rt)).
  - unfold stop. destruct (ws (rstate rt)) as [id|]; [|done]. simpl.
    generalize (sockets rt). intros l. revert id.
    induction l as [|sk l IH]; intros [|id]; simpl; try done.
    + f_equal. unfold socket_close. by destruct (readyState sk).
    + f_equal. apply IH.
  - unfold stop at 1. by rewrite Hws.
  - generalize (stop rt) Hws. intros r Hr payloads. revert r Hr.
    induction payloads as [|p ps IH]; intros r Hr Hall; simpl.
    + destruct r as [[]]. unfold set_state, with_queue. simpl. by rewrite app_nil_r.
    + simpl in Hall. apply andb_true_iff in Hall as [Hp Hall].
      assert (Hs : send p r = set_state (fun s => with_queue (queue s ++ [p]) s) r).
      { unfold send. rewrite Hp. simpl.
        unfold can_send, ws_readyState. rewrite Hr. simpl.
        by rewrite andb_false_r. }
      rewrite Hs, IH; [|done|done].
      unfold set_state, with_queue. simpl. by rewrite <- app_assoc.
Qed.

(** *** Configuration updates *)


(** Configuration updates compose. An update overrides the keys it
    carries and keeps the others, so the empty update changes nothing,
    applying one update twice is applying it once, and applying two updates
    in a row is applying their merge, in which the later one wins. A
    [config] message delivered twice leaves the client as one delivery
    does, and a message never touches the socket, the queue or the
    timers. *)
Theorem config_updates_compose :
  (forall c, assign_config c no_patch = c)
  /\ (forall c p, assign_config (assign_config c p) p = assign_config c p)
  /\ (forall c p q,
        assign_config (assign_config c p) q = assign_config c (patch_then p q))
  /\ (forall id p rt,
        on_message id (Some p) (on_message id (Some p) rt) = on_message id (Some p) rt)
  /\ (forall id message rt,
        ws (rstate (on_message id message rt)) = ws (rstate rt)
        /\ queue (rstate (on_message id message rt)) = queue (rstate rt)
        /\ connected (rstate (on_message id message rt)) = connected (rstate rt)
        /\ sockets (on_message id message rt) = sockets rt
        /\ pendingTimers (on_message id message rt) = pendingTimers rt).
Proof.
  assert (Hidem : forall c p, assign_config (assign_config c p) p = assign_config c p).
  { intros c [h po a cc ce ne lo]. unfold assign_config. simpl.
    destruct h, po, a, cc, ce, ne, lo; reflexivity. }
  split; [by intros []|]. split; [exact Hidem|]. split; [|split].
  - intros c [h po a cc ce ne lo] [h' po' a' cc' ce' ne' lo'].
    unfold assign_config, patch_then. simpl.
    destruct h', po', a', cc', ce', ne', lo'; reflexivity.
  - intros id p rt. unfold on_message, set_state, with_config. simpl.
    by rewrite Hidem.
  - intros id [p|] rt; done.
Qed.

(** *** Console timers *)

(** [console.time(label)] records the time under [label || 'default'],
    also when the original [console.time] throws. From then on
    [console.timeLog(label)] sends one [time] event with the time elapsed
    since and keeps the timer, and [console.timeEnd(label)] sends the same
    event and removes the timer; both then call the original. Once the
    timer is removed, [timeLog] and [timeEnd] for that label send nothing
    and only call the original. Timers under other labels stay as they
    are, and an absent label and the empty label name the same timer. *)
Theorem timers_measure_since_time
    browser captureStack extractLocation durationText :
  forall originalTime original label timers rt0 rt1 rt2,
    let key := timer_key label in
    let running := (patched_time originalTime label timers rt0).1.2 in
    let payload :=
      timer_payload browser captureStack extractLocation durationText key (clock rt0) rt1 in
    running = <[key := clock rt0]> timers
    /\ patched_timeLog browser captureStack extractLocation durationText
         original label running rt1
       = call_original original label running (send payload rt1)
    /\ patched_timeEnd browser captureStack extractLocation durationText
         original label running rt1
       = call_original original label (delete key timers) (send payload rt1)
    /\ (exists l, payload = PLog l /\ p_durationMs l = Some (clock rt1 - clock rt0)
                  /\ p_label l = Some key /\ p_kind l = "time" /\ p_level l = "time")
    /\ patched_timeEnd browser captureStack extractLocation durationText
         original label (delete key timers) rt2
       = call_original original label (delete key timers) rt2
    /\ patched_timeLog browser captureStack extractLocation durationText
         original label (delete key timers) rt2
       = call_original original label (delete key timers) rt2
    /\ (forall other, other <> key -> running !! other = timers !! other)
    /\ timer_key None = timer_key (Some "").
Proof.
  intros originalTime original label timers rt0 rt1 rt2 key running payload.
  assert (Hrun : running = <[key := clock rt0]> timers).
  { unfold running, patched_time, call_original.
    destruct originalTime as [f|]; [|done]. by destruct (f label rt0). }
  split; [exact Hrun|]. rewrite Hrun. unfold Timers in *.
  split; [|split; [|split; [|split; [|split; [|split]]]]].
  - unfold patched_timeLog, Timers. fold key. by rewrite lookup_insert_eq.
  - unfold patched_timeEnd, Timers. fold key.
    by rewrite lookup_insert_eq, delete_insert_eq.
  - eexists. split; [reflexivity|]. done.
  - unfold patched_timeEnd, Timers. fold key.
    by rewrite lookup_delete_eq, delete_id by apply lookup_delete_eq.
  - unfold patched_timeLog, Timers. fold key. by rewrite lookup_delete_eq.
  - intros other Hne. by rewrite lookup_insert_ne.
  - reflexivity.
Qed.

(** *** The location of a capture *)





(** *** One event for each request *)

Lemma network_payload_clock durationText method url status d values rt rt' :
  clock rt' = clock rt ->
  network_payload durationText method url status d values rt'
  = network_payload durationText method url status d values rt.
Proof. intros Hc. unfold network_payload. by rewrite Hc. Qed.

Lemma clock_send p rt : clock (send p rt) = clock rt.
Proof.
  unfold send. destruct (negb _); [done|]. destruct (negb _); [done|].
  destruct (payload_throws rt p); [done|]. by destruct (ws (rstate rt)).
Qed.

(** [JSON.stringify] writes every event of a request. *)
Lemma network_payload_written durationText method url status d rt rt' :
  send_throws (network_payload durationText method url status d None rt') rt = false.
Proof. unfold send_throws. simpl. apply andb_false_r. Qed.

Lemma fire_listeners durationText ls :
  forall rest this rt,
    loadend this = ls ++ rest ->
    let res := foldl (fun '(x, r) '(start, method, url) =>
                        xhr_onDone durationText start method url x r)
                     (this, rt) ls in
    loadend res.1 = rest
    /\ xhr_status res.1 = xhr_status this
    /\ clock res.2 = clock rt
    /\ List.filter payload_truthy (queue (rstate res.2)) ++ transmitted res.2
       ≡ₚ List.filter payload_truthy (queue (rstate rt)) ++ transmitted rt
          ++ (loadend_event durationText (xhr_status this) rt <$> ls).
Proof.
  induction ls as [|[[start method] url] ls IH]; intros rest this rt Hl; simpl.
  - repeat split; try done. by rewrite app_nil_r.
  - destruct (xhr_onDone durationText start method url this rt) as [this1 rt1] eqn:E.
    unfold xhr_onDone in E. injection E as Hthis Hrt.
    assert (Hl1 : loadend this1 = ls ++ rest).
    { rewrite <- Hthis. simpl. rewrite Hl. simpl. by rewrite bool_decide_eq_true_2. }
    assert (Hs1 : xhr_status this1 = xhr_status this) by (by rewrite <- Hthis).
    assert (Hc1 : clock rt1 = clock rt) by (rewrite <- Hrt; apply clock_send).
    destruct (IH rest this1 rt1 Hl1) as (H1 & H2 & H3 & H4).
    split; [exact H1|]. split; [by rewrite H2|]. split; [by rewrite H3|].
    rewrite H4, app_assoc. rewrite <- Hrt at 1 2.
    rewrite send_conserves, network_payload_written. simpl.
    rewrite <- !app_assoc. do 2 apply Permutation_app_head. simpl.
    unfold elapsed, now. apply Permutation_cons; [done|].
    erewrite list_fmap_ext; [reflexivity|]. intros i [[s m] u] _. simpl.
    rewrite Hs1, Hc1. by apply network_payload_clock.
Qed.


(** Each call of [send] is reported once. [send] registers one [loadend]
    listener on the request; when the request completes, every listener
    registered on it sends one [network] event, with the status of the
    request and the time elapsed since its own [send], and removes itself.
    No listener is left on the request, so a request object that is used
    again reports the next request once, not twice. *)
Theorem xhr_reports_each_request_once :
  forall durationText this rt0 rt,
    let request := xhr_add_listener (xhr_listener this rt0) this in
    let completed := fire_loadend durationText request rt in
    loadend completed.1 = []
    /\ xhr_status completed.1 = xhr_status this
    /\ List.filter payload_truthy (queue (rstate completed.2)) ++ transmitted completed.2
       ≡ₚ List.filter payload_truthy (queue (rstate rt)) ++ transmitted rt
          ++ (loadend_event durationText (xhr_status this) rt
                <$> (loadend this ++ [xhr_listener this rt0])).
Proof.
  intros durationText this rt0 rt request completed.
  destruct (fire_listeners durationText (loadend request) [] request rt)
    as (H1 & H2 & _ & H4).
  { by rewrite app_nil_r. }
  split; [exact H1|]. split; [exact H2|]. exact H4.
Qed.

(** *** Starting twice *)

Lemma start_installed options rt : installed (rstate (start options rt)) = true.
Proof.
  unfold start, connect, install.
  destruct options as [patch|]; simpl;
    destruct (installed (rstate rt)) eqn:Hi; simpl;
    destruct (ws (rstate rt)); simpl; rewrite ?Hi; try done;
    destruct (url_valid rt _); simpl; by rewrite ?Hi.
Qed.

Lemma ws_start options rt :
  start_throws options rt = false -> is_Some (ws (rstate (start options rt))).
Proof.
  unfold start, start_throws, connect, connect_throws.
  set (rt1 := install _).
  destruct (ws (rstate rt1)) eqn:E; [by rewrite E|].
  destruct (url_valid rt1 _); [by eexists|done].
Qed.

Lemma start_settled options rt :
  ws (rstate (start options rt)) = None ->
  url_valid (start options rt) (ws_url (config (rstate (start options rt)))) = false.
Proof.
  unfold start, connect. set (rt1 := install _).
  destruct (ws (rstate rt1)) eqn:E; [by rewrite E|].
  by destruct (url_valid rt1 _) eqn:Hu.
Qed.

(** [start()] on a client that was started is harmless: the hooks are
    installed once and no second connection is opened, so that [start()]
    without options changes nothing. A second [start] with options updates
    the configuration, but the socket that is registered stays the one
    that was opened with the address of the first call; a new host or port
    is used only by the next connection, and is not even parsed by this
    call, which therefore cannot throw. [start] itself throws when no
    socket is registered and the configured address does not parse: the
    hooks are then installed, and no socket is constructed or
    registered. *)
Theorem start_twice_connects_once :
  forall options rt,
    installed (rstate (start options rt)) = true
    /\ (attempts (start options rt) <= S (attempts rt))%nat
    /\ start None (start options rt) = start options rt
    /\ (start_throws options rt = true ->
        ws (rstate rt) = None
        /\ ws (rstate (start options rt)) = None
        /\ sockets (start options rt) = sockets rt)
    /\ (start_throws options rt = false ->
        is_Some (ws (rstate (start options rt)))
        /\ forall again,
            start_throws again (start options rt) = false
            /\ sockets (start again (start options rt)) = sockets (start options rt)
            /\ ws (rstate (start again (start options rt))) = ws (rstate (start options rt))
            /\ queue (rstate (start again (start options rt)))
               = queue (rstate (start options rt))
            /\ config (rstate (start again (start options rt)))
               = match again with
                 | Some p => assign_config (config (rstate (start options rt))) p
                 | None => config (rstate (start options rt))
                 end).
Proof.
  intros options rt.
  pose proof (start_installed options rt) as Hinst.
  split; [exact Hinst|]. split; [|split; [|split]].
  - unfold start, connect, attempts. set (rt1 := install _).
    assert (Hs : sockets rt1 = sockets rt).
    { unfold rt1, install. clear. by destruct options; simpl; destruct (installed (rstate rt)). }
    destruct (ws (rstate rt1)); [rewrite Hs; lia|].
    destruct (url_valid rt1 _); [|rewrite Hs; lia].
    simpl. rewrite length_app, Hs. simpl. lia.
  - pose proof (start_settled options rt) as Hset.
    revert Hinst Hset. generalize (start options rt). intros r Hi Hset.
    unfold start, install, connect. rewrite Hi.
    destruct (ws (rstate r)) eqn:Hw; [done|].
    by rewrite Hset.
  - unfold start_throws, start, connect_throws, connect. set (rt1 := install _).
    assert (Hs : sockets rt1 = sockets rt /\ ws (rstate rt1) = ws (rstate rt)).
    { unfold rt1, install. clear. by destruct options; simpl; destruct (installed (rstate rt)). }
    destruct Hs as [Hs Hw]. rewrite <- Hw.
    destruct (ws (rstate rt1)) eqn:E; [done|].
    destruct (url_valid rt1 _); [done|]. intros _. by rewrite E.
  - intros Hok. pose proof (ws_start options rt Hok) as Hws.
    split; [exact Hws|]. intros again.
    revert Hinst Hws. generalize (start options rt). intros r Hi [id Hw].
    unfold start_throws, start, install, connect_throws, connect.
    destruct again as [patch|]; simpl; rewrite Hi; simpl; rewrite Hw; done.
Qed.

(** A started client whose address the [WebSocket] constructor accepts is
    started again with a port that is out of range: nothing is thrown, the
    socket stays, the configuration is updated. Started from the module
    as loaded with such a port, [start] throws. *)
Lemma start_twice_connects_once_witness :
  start_throws None (loaded heap_empty) = false
  /\ is_Some (ws (rstate started))
  /\ start_throws (Some port_out_of_range) started = false
  /\ sockets (start (Some port_out_of_range) started) = sockets started
  /\ port (config (rstate (start (Some port_out_of_range) started))) = 70000
  /\ start_throws (Some port_out_of_range)
       (loaded heap_empty) = true.
Proof.
  destruct (start_twice_connects_once None (loaded heap_empty))
    as (_ & _ & _ & _ & Hok).
  destruct (Hok eq_refl) as [Hws Hagain].
  destruct (Hagain (Some port_out_of_range)) as (Hno & Hs & _ & _ & Hc).
  split; [reflexivity|]. split; [exact Hws|]. split; [exact Hno|]. split; [exact Hs|].
  split; [|reflexivity].
  change started with (start None (loaded heap_empty)).
  rewrite Hc. reflexivity.
Defined.

(** *** A wrapped [fetch] that succeeds *)

Lemma existsb_Forall {A} (f : A -> bool) l :
  existsb f l = false <-> Forall (fun x => f x = false) l.
Proof.
  induction l as [|x l IH]; simpl.
  - split; [constructor|done].
  - rewrite orb_false_iff, IH, Forall_cons. done.
Qed.

Lemma stringify_throws_object throws props :
  stringify_throws throws (SObject props)
  = existsb (fun kv => stringify_throws throws kv.2) props.
Proof.
  induction props as [|[k x] props IH]; [done|].
  cbn [existsb snd]. rewrite <- IH. reflexivity.
Qed.

(** On a heap whose [Error] objects [JSON.stringify] can write, it can
    write whatever [serializeValue] returns. *)
Lemma serializeValue_written throws fuel :
  forall h browser value options depth seen out seen',
    (forall a name message stack,
        h a = HError name message stack ->
        stringify_throws throws (raw name) = false
        /\ stringify_throws throws (raw message) = false
        /\ stringify_throws throws (raw stack) = false) ->
    serializeValue fuel h browser value options depth seen = Some (Returned (out, seen')) ->
    stringify_throws throws out = false.
Proof.
  induction fuel as [|fuel IH];
    intros h browser value options depth seen out seen' He; [done|].
  assert (Hcont : forall elems props,
             serialize_container
               (fun v s => serializeValue fuel h browser v options (depth + 1) s)
               options (match value with VRef a => a | _ => 0%nat end) depth seen elems props
             = Some (Returned (out, seen')) ->
             stringify_throws throws out = false).
  { intros elems props. unfold serialize_container.
    case_bool_decide; [by intros [= <- _]|].
    destruct (depth >=? maxDepth options); [destruct elems; by intros [= <- _]|].
    assert (Hser : forall v s o s',
               serializeValue fuel h browser v options (depth + 1) s
               = Some (Returned (o, s')) ->
               stringify_throws throws o = false).
    { intros v s o s' Hr. by eapply IH. }
    destruct elems as [l|].
    - unfold serialize_array.
      destruct (serialize_elems _ _ _ _) as [[[arr s1]|]|] eqn:Hrun; [|done|done].
      pose proof (serialize_elems_Forall (fun o => stringify_throws throws o = false)
                    _ _ _ _ _ _ Hser (Forall_nil_2 _) Hrun) as Hall.
      destruct (_ >? _); intros [= <- _]; cbn [stringify_throws]; apply existsb_Forall.
      + apply Forall_app. split; [done|]. by apply Forall_singleton.
      + done.
    - unfold serialize_object.
      destruct (serialize_props _ _ _ _) as [[[obj s1]|]|] eqn:Hrun; [|done|done].
      pose proof (serialize_props_Forall (fun o => stringify_throws throws o = false)
                    _ _ _ _ _ _ Hser (Forall_nil_2 _) Hrun) as Hall.
      destruct (_ >? _); intros [= <- _]; rewrite stringify_throws_object;
        apply existsb_Forall; [|done].
      by apply (obj_set_Forall (fun o => stringify_throws throws o = false)). }
  destruct value; try (simpl; by intros [= <- _]).
  - simpl. destruct (_ >? _); by intros [= <- _].
  - rewrite serializeValue_ref.
    destruct (h a) as [n m st| [iso|] |t i ps|l|ps] eqn:Ha; try by intros [= <- _].
    + destruct (He a n m st Ha) as (Hn & Hm & Hst). intros [= <- _].
      rewrite stringify_throws_object. cbn [existsb snd]. by rewrite Hn, Hm, Hst.
    + destruct browser; [by intros [= <- _]|]. apply Hcont.
    + apply Hcont.
    + apply Hcont.
Qed.

Lemma serializeValues_written rt browser options values outs :
  errors_can_be_written rt ->
  serializeValues (heap rt) browser options values = Returned outs ->
  existsb (stringify_throws (json_throws rt)) outs = false.
Proof.
  intros He. revert outs.
  induction values as [|value rest IH]; intros outs; cbn [serializeValues].
  - by intros [= <-].
  - unfold serialize_root.
    destruct (serializeValue _ (heap rt) browser value options 0 ∅) as [[[out s']|]|] eqn:E;
      [|done|].
    + destruct (serializeValues (heap rt) browser options rest) as [outs'|]; [|done].
      intros [= <-]. cbn [existsb]. rewrite (IH outs' eq_refl).
      by rewrite (serializeValue_written _ _ _ _ _ _ _ _ _ _ He E).
    + destruct (serializeValue_total (heap rt) browser value options 0 ∅) as [r Hr].
      congruence.
Qed.

(** When every value on the heap can be serialized and written, the
    promise of a wrapped [fetch] settles as the promise of the original
    does. *)
Lemma settle_outcome rangeError durationText typeError p o rt :
  dates_valid (heap rt) -> errors_can_be_written rt ->
  fst (settle rangeError durationText typeError p o rt) = o.
Proof.
  intros Hv He. destruct o as [response|e]; [apply settle_fulfilled|].
  destruct (serializeValues_returns (heap rt) true (capture_options rt) [e] Hv)
    as [values Hser].
  eapply settle_rejected; [exact Hser|]. by eapply serializeValues_written.
Qed.

(** With the network enabled, a wrapped [fetch] whose original returns a
    promise returns a promise that reports the request once when the
    original promise settles: one [network] event with the method
    ([init.method], or [GET]), the URL (the input string, or the [url]
    of the input object, or the empty string), the status of the response
    or ["ERR"], and the time elapsed since the call. It then settles as
    that promise does, with the same response or the same error. The
    exception is a rejection for which the [catch] callback throws before
    it has sent: its value cannot be serialized (it holds an invalid
    date), or the event cannot be written (the value is an [Error] with a
    field that [JSON.stringify] rejects, and the client can send). Nothing
    is reported then, and the promise rejects with that [RangeError] or
    [TypeError]. A response always comes through, and so does every
    rejection when the heap holds no invalid date and no such [Error]. *)
Theorem fetch_is_reported_once :
  forall rangeError durationText typeError originalFetch input init rt p rt1,
    networkEnabled (config (rstate rt)) = true ->
    originalFetch input init rt = (Returns p, rt1) ->
    exists q,
      patched_fetch originalFetch input init rt = (Returns q, rt1)
      /\ forall o rt2,
          settle rangeError durationText typeError q o rt2
          = (let rt3 := snd (settle rangeError durationText typeError p o rt2) in
             match fst (settle rangeError durationText typeError p o rt2) with
             | Fulfilled response =>
                 (Fulfilled response,
                  send (network_payload durationText (fetch_method init) (fetch_url input)
                          (inl (resp_status response)) (clock rt3 - clock rt) None rt3) rt3)
             | Rejected err =>
                 match serializeValues (heap rt3) true (capture_options rt3) [err] with
                 | Returned values =>
                     if can_send rt3 && existsb (stringify_throws (json_throws rt3)) values
                     then (Rejected (typeError rt3), rt3)
                     else
                       (Rejected err,
                        send (network_payload durationText (fetch_method init)
                                (fetch_url input) (inr "ERR") (clock rt3 - clock rt)
                                (Some values) rt3) rt3)
                 | RangeError => (Rejected (rangeError rt3), rt3)
                 end
             end)
          /\ (forall response,
                o = Fulfilled response ->
                fst (settle rangeError durationText typeError q o rt2) = o
                /\ fst (settle rangeError durationText typeError p o rt2) = o)
          /\ (dates_valid (heap rt2) -> errors_can_be_written rt2 ->
              fst (settle rangeError durationText typeError q o rt2) = o
              /\ fst (settle rangeError durationText typeError p o rt2) = o).
Proof.
  intros rangeError durationText typeError originalFetch input init rt p rt1 Hon Hcall.
  unfold patched_fetch. rewrite Hon, Hcall. cbn [negb].
  eexists. split; [reflexivity|]. intros o rt2. split; [|split].
  - cbn [settle].
    destruct (settle rangeError durationText typeError p o rt2) as [[r|e] rt3]; [done|].
    cbn [fst snd].
    destruct (serializeValues _ _ _ _) as [values|]; [|done].
    unfold network_payload. erewrite (send_call_log typeError); [|reflexivity].
    by destruct (_ && _).
  - intros response ->. split; apply settle_fulfilled.
  - intros Hv He. split; by apply settle_outcome.
Qed.

(** A [fetch] of [/api] that is answered with status 200. *)
Lemma fetch_is_reported_once_witness :
  networkEnabled (config (rstate started)) = true
  /\ exists q,
      patched_fetch returning_fetch (InputString "/api") None started
      = (Returns q, started)
      /\ fst (settle example_rangeError example_durationText example_typeError q
                (Fulfilled {| resp_status := 200; resp_tag := 0 |}) started)
         = Fulfilled {| resp_status := 200; resp_tag := 0 |}.
Proof.
  split; [reflexivity|].
  destruct (fetch_is_reported_once example_rangeError example_durationText
              example_typeError returning_fetch
              (InputString "/api") None started (OriginalPromise 0) started)
    as (q & Hcall & Hsettle); [reflexivity|reflexivity|].
  exists q. split; [exact Hcall|].
  destruct (Hsettle (Fulfilled {| resp_status := 200; resp_tag := 0 |}) started)
    as (_ & Hresponse & _).
  exact (proj1 (Hresponse _ eq_refl)).
Defined.

End ClientFacts.

(** ** The log store and the inline annotation state *)

Section ExtensionFacts.
Import Extension.

Variable host : Host.

(** *** What each step of [addLogEntry] leaves alone *)

Lemma trimLogs_logSeq st : logSeq (trimLogs st) = logSeq st.
Proof. unfold trimLogs. by destruct (_ <=? _). Qed.

Lemma trimLogs_maxLogEntries st : maxLogEntries (trimLogs st) = maxLogEntries st.
Proof. unfold trimLogs. by destruct (_ <=? _). Qed.

Lemma trimLogs_lineStateByUri st : lineStateByUri (trimLogs st) = lineStateByUri st.
Proof. unfold trimLogs. by destruct (_ <=? _). Qed.

Lemma trimLogs_config st : config (trimLogs st) = config st.
Proof. unfold trimLogs. by destruct (_ <=? _). Qed.

(** [trimLogs] drops the oldest entries, all of the overflow at once. *)
Lemma trimLogs_logs st :
  0 <= maxLogEntries st ->
  logs (trimLogs st)
  = drop (length (logs st) - Z.to_nat (maxLogEntries st)) (logs st).
Proof.
  intros Hmax. unfold trimLogs.
  destruct (_ <=? _) eqn:E.
  - replace (length (logs st) - Z.to_nat (maxLogEntries st))%nat with 0%nat by lia.
    by rewrite drop_0.
  - simpl. f_equal. lia.
Qed.

Lemma updateInlineForEntry_frame entry st :
  logs (updateInlineForEntry host entry st) = logs st
  /\ logSeq (updateInlineForEntry host entry st) = logSeq st
  /\ maxLogEntries (updateInlineForEntry host entry st) = maxLogEntries st
  /\ config (updateInlineForEntry host entry st) = config st.
Proof. unfold updateInlineForEntry. by destruct (resolveEntryPath _ _ _). Qed.

(** [appendOutput] writes one line, when it returns. *)
Lemma appendOutput_frame entry st st' :
  appendOutput host entry st = Some st' ->
  logs st' = logs st
  /\ logSeq st' = logSeq st
  /\ maxLogEntries st' = maxLogEntries st
  /\ config st' = config st
  /\ inlineEnabled st' = inlineEnabled st
  /\ lineStateByUri st' = lineStateByUri st
  /\ outputChannel st' = outputChannel st ++ [output_line host entry]
  /\ valid_time (timestamp entry) = true.
Proof.
  unfold appendOutput. destruct (valid_time _); [|done]. by intros [= <-].
Qed.

(** The store after [addLogEntry]: the new entry appended, then trimmed. *)
Lemma addLogEntry_store payload clientId now st :
  logs (addLogEntry host payload clientId now st)
  = logs (trimLogs (with_logs (logs st ++ [make_entry payload clientId now (logSeq st + 1)])
                      (with_logSeq (logSeq st + 1) st)))
  /\ logSeq (addLogEntry host payload clientId now st) = logSeq st + 1
  /\ maxLogEntries (addLogEntry host payload clientId now st) = maxLogEntries st
  /\ config (addLogEntry host payload clientId now st) = config st.
Proof.
  unfold addLogEntry. cbv zeta.
  set (entry := make_entry payload clientId now (logSeq st + 1)).
  set (st1 := trimLogs _).
  assert (H1 : logSeq st1 = logSeq st + 1) by (unfold st1; by rewrite trimLogs_logSeq).
  assert (H2 : maxLogEntries st1 = maxLogEntries st)
    by (unfold st1; by rewrite trimLogs_maxLogEntries).
  assert (H3 : config st1 = config st) by (unfold st1; by rewrite trimLogs_config).
  case_bool_decide; [|done].
  destruct (appendOutput host entry st1) as [st2|] eqn:E; [|done].
  destruct (appendOutput_frame entry st1 st2 E) as (E1 & E2 & E3 & E4 & _).
  destruct (inlineEnabled st2); [|by rewrite E1, E2, E3, E4].
  destruct (updateInlineForEntry_frame entry st2) as (-> & -> & -> & ->).
  by rewrite E1, E2, E3, E4.
Qed.

(** [addLogEntry] by cases: the entry is shown when its level is enabled
    and its timestamp can be formatted. *)
Lemma addLogEntry_cases payload clientId now st :
  let entry := make_entry payload clientId now (logSeq st + 1) in
  let st1 := trimLogs (with_logs (logs st ++ [entry]) (with_logSeq (logSeq st + 1) st)) in
  addLogEntry host payload clientId now st
  = if bool_decide (level entry ∈ enabledLevels (config st))
       && valid_time (timestamp entry)
    then
      let st2 := with_outputChannel (outputChannel st1 ++ [output_line host entry]) st1 in
      if inlineEnabled st then updateInlineForEntry host entry st2 else st2
    else st1.
Proof.
  intros entry st1. unfold addLogEntry. cbv zeta. fold entry. simpl. fold st1.
  assert (H3 : config st1 = config st) by (unfold st1; by rewrite trimLogs_config).
  assert (H4 : inlineEnabled st1 = inlineEnabled st).
  { unfold st1, trimLogs. by destruct (_ <=? _). }
  rewrite H3. unfold appendOutput.
  destruct (bool_decide _); simpl; [|done].
  destruct (valid_time _); simpl; [|done]. by rewrite H4.
Qed.

Lemma keep_last_snoc {A : Type} (m : nat) (l : list A) (x : A) :
  keep_last m (keep_last m l ++ [x]) = keep_last m (l ++ [x]).
Proof.
  unfold keep_last.
  destruct (decide (length l <= m)%nat) as [Hle|Hgt].
  - replace (length l - m)%nat with 0%nat by lia. by rewrite drop_0.
  - rewrite !drop_app, drop_drop, !length_app, !length_drop. simpl.
    f_equal; f_equal; lia.
Qed.

Lemma keep_last_length {A : Type} (m : nat) (l : list A) :
  (length (keep_last m l) <= m)%nat.
Proof. unfold keep_last. rewrite length_drop. lia. Qed.

Lemma ingest_all_store calls :
  forall st,
    0 <= maxLogEntries st ->
    (length (logs st) <= Z.to_nat (maxLogEntries st))%nat ->
    logs (ingest_all host calls st)
    = keep_last (Z.to_nat (maxLogEntries st)) (logs st ++ created calls (logSeq st))
    /\ maxLogEntries (ingest_all host calls st) = maxLogEntries st
    /\ logSeq (ingest_all host calls st) = logSeq st + Z.of_nat (length calls).
Proof.
  induction calls as [|[[payload clientId] now] calls IH]; intros st Hmax Hlen.
  - simpl. rewrite app_nil_r. unfold keep_last.
    replace (length (logs st) - _)%nat with 0%nat by lia. rewrite drop_0.
    split; [done|]. split; [done|lia].
  - simpl.
    destruct (addLogEntry_store payload clientId now st) as (Hl & Hs & Hm & _).
    rewrite trimLogs_logs in Hl by done. simpl in Hl.
    fold (keep_last (Z.to_nat (maxLogEntries st))
            (logs st ++ [make_entry payload clientId now (logSeq st + 1)])) in Hl.
    destruct (IH (addLogEntry host payload clientId now st)) as (Hl' & Hm' & Hs').
    + by rewrite Hm.
    + rewrite Hl, Hm. apply keep_last_length.
    + unfold ingest_all in *. rewrite Hl', Hm', Hs', Hl, Hm, Hs.
      split; [|split; [done|lia]].
      set (m := Z.to_nat (maxLogEntries st)).
      set (e := make_entry payload clientId now (logSeq st + 1)).
      generalize (created calls (logSeq st + 1)). intros rest.
      change (logs st ++ e :: rest) with (logs st ++ [e] ++ rest).
      rewrite app_assoc. generalize (logs st ++ [e]). intros l. clear.
      revert l. induction rest as [|x rest IHr] using rev_ind; intros l.
      * rewrite !app_nil_r. unfold keep_last at 1.
        replace (length (keep_last m l) - m)%nat with 0%nat
          by (pose proof (keep_last_length m l); lia).
        by rewrite drop_0.
      * rewrite !app_assoc, <- keep_last_snoc, IHr. apply keep_last_snoc.
Qed.

Lemma created_ids calls :
  forall seq i e, created calls seq !! i = Some e -> id e = seq + Z.of_nat i + 1.
Proof.
  induction calls as [|[[payload clientId] now] calls IH]; intros seq i e; simpl; [done|].
  destruct i as [|i]; simpl.
  - intros [= <-]. simpl. lia.
  - intros H. rewrite (IH _ _ _ H). lia.
Qed.

Lemma created_length calls : forall seq, length (created calls seq) = length calls.
Proof.
  induction calls as [|[[payload clientId] now] calls IH]; intros seq; simpl; [done|].
  by rewrite IH.
Qed.

(** C5. Starting from a store within its capacity [maxLogEntries >= 0] (the
    empty store that [activate] leaves, for one), after any sequence of
    ingest calls the store holds at most [maxLogEntries] entries, and they
    are exactly the last ones of what it held followed by what the calls
    created, in the order of ingestion, each with the id it was created
    with (the [i]-th call creates id [logSeq + i]). [trimLogs] removes the
    oldest entries, the whole overflow in one [splice]. Three events
    ingested into an empty store with [maxLogEntries = 2] leave the second
    and the third, in that order, with their ids. *)
Theorem log_store_is_bounded :
  forall calls st,
    0 <= maxLogEntries st ->
    Z.of_nat (length (logs st)) <= maxLogEntries st ->
    Z.of_nat (length (logs (ingest_all host calls st))) <= maxLogEntries st
    /\ logs (ingest_all host calls st)
       = drop (length (logs st ++ created calls (logSeq st))
               - Z.to_nat (maxLogEntries st))
              (logs st ++ created calls (logSeq st))
    /\ length (created calls (logSeq st)) = length calls
    /\ (forall i e, created calls (logSeq st) !! i = Some e ->
                    id e = logSeq st + Z.of_nat i + 1)
    /\ (forall st0,
          0 <= maxLogEntries st0 ->
          logs (trimLogs st0)
          = drop (length (logs st0) - Z.to_nat (maxLogEntries st0)) (logs st0))
    /\ (forall c1 c2 c3,
          calls = [c1; c2; c3] -> logs st = [] -> maxLogEntries st = 2 ->
          logs (ingest_all host calls st)
          = [make_entry c2.1.1 c2.1.2 c2.2 (logSeq st + 2);
             make_entry c3.1.1 c3.1.2 c3.2 (logSeq st + 3)]).
Proof.
  intros calls st Hmax Hlen.
  destruct (ingest_all_store calls st Hmax) as (Hlogs & _ & _); [lia|].
  unfold keep_last in Hlogs.
  split; [|split; [done|split; [apply created_length|split; [apply created_ids|split]]]].
  - rewrite Hlogs, length_drop. lia.
  - apply trimLogs_logs.
  - intros [[p1 k1] n1] [[p2 k2] n2] [[p3 k3] n3] -> Hempty Hm.
    rewrite Hlogs, Hempty, Hm. simpl.
    by replace (logSeq st + 1 + 1) with (logSeq st + 2) by lia;
       replace (logSeq st + 2 + 1) with (logSeq st + 3) by lia.
Qed.

Lemma trimLogs_drop st : exists n, logs (trimLogs st) = drop n (logs st).
Proof.
  unfold trimLogs. destruct (_ <=? _); [by exists 0%nat|]. by eexists.
Qed.

Lemma apply_op_ids_in_order op st : ids_in_order st -> ids_in_order (apply_op host op st).
Proof.
  intros [Hs Hle]. destruct op as [payload clientId now|]; simpl.
  - destruct (addLogEntry_store payload clientId now st) as (Hlogs & Hseq & _).
    unfold ids_in_order. rewrite Hlogs, Hseq.
    set (entry := make_entry payload clientId now (logSeq st + 1)).
    destruct (trimLogs_drop (with_logs (logs st ++ [entry]) (with_logSeq (logSeq st + 1) st)))
      as (n & ->). simpl.
    assert (Hall : StronglySorted Z.lt (id <$> (logs st ++ [entry]))).
    { rewrite fmap_app. apply StronglySorted_app_2.
      - intros x1 x2 H1 H2. apply list_elem_of_singleton in H2. subst x2. simpl.
        apply list_elem_of_fmap in H1 as (e & -> & He).
        rewrite Forall_forall in Hle. specialize (Hle e He). lia.
      - done.
      - repeat constructor. }
    split.
    + rewrite fmap_drop. rewrite <- (take_drop n (id <$> (logs st ++ [entry]))) in Hall.
      by apply StronglySorted_app_1_r in Hall.
    + apply Forall_drop, Forall_app. split.
      * eapply Forall_impl; [exact Hle|]. intros e He. simpl in He. lia.
      * apply Forall_singleton. simpl. lia.
  - split; [constructor|constructor].
Qed.

Lemma run_ops_ids_in_order ops :
  forall st, ids_in_order st -> ids_in_order (fst (run_ops host ops st)).
Proof.
  induction ops as [|op ops IH]; intros st Hst; simpl; [done|].
  specialize (IH (apply_op host op st) (apply_op_ids_in_order op st Hst)).
  by destruct (run_ops host ops (apply_op host op st)).
Qed.

Lemma find_by_id (l : list Entry) e :
  StronglySorted Z.lt (id <$> l) -> e ∈ l ->
  List.find (fun item => id item =? id e) l = Some e.
Proof.
  induction l as [|x l IH]; simpl; intros Hs Hin.
  - by apply elem_of_nil in Hin.
  - apply StronglySorted_cons in Hs as [Hx Hs].
    apply elem_of_cons in Hin as [->|Hin].
    + by rewrite Z.eqb_refl.
    + destruct (id x =? id e) eqn:E; [|by apply IH].
      apply Z.eqb_eq in E. rewrite Forall_forall in Hx.
      assert (Hlt : id x < id e) by (apply Hx, list_elem_of_fmap; by exists e).
      lia.
Qed.

Lemma last_drop_snoc {A : Type} (n : nat) (l : list A) (x e : A) :
  last (drop n (l ++ [x])) = Some e -> e = x.
Proof.
  destruct (decide (n <= length l)%nat) as [Hle|Hgt].
  - rewrite drop_app_le by done. rewrite last_snoc. congruence.
  - rewrite drop_ge by (rewrite length_app; simpl; lia). done.
Qed.

(** The entry at the end of the store after [addLogEntry] is the one the
    call created, and it is there as soon as the capacity is not zero. *)
Lemma addLogEntry_last payload clientId now st :
  (forall e, last (logs (addLogEntry host payload clientId now st)) = Some e ->
             e = make_entry payload clientId now (logSeq st + 1))
  /\ (1 <= maxLogEntries st ->
      last (logs (addLogEntry host payload clientId now st))
      = Some (make_entry payload clientId now (logSeq st + 1))).
Proof.
  destruct (addLogEntry_store payload clientId now st) as (-> & _).
  set (entry := make_entry payload clientId now (logSeq st + 1)). split.
  - intros e.
    destruct (trimLogs_drop (with_logs (logs st ++ [entry]) (with_logSeq (logSeq st + 1) st)))
      as (n & ->). simpl. apply last_drop_snoc.
  - intros Hmax. unfold trimLogs. simpl. rewrite length_app. simpl.
    destruct (_ <=? _) eqn:E; simpl; [by rewrite last_snoc|].
    rewrite drop_app_le by lia. by rewrite last_snoc.
Qed.

(** What the store holds after a call was there before, or was created by
    the call. *)
Lemma apply_op_elem op st e :
  e ∈ logs (apply_op host op st) -> e ∈ logs st \/ logSeq st < id e.
Proof.
  destruct op as [payload clientId now|]; simpl; [|by intros ?%elem_of_nil].
  destruct (addLogEntry_store payload clientId now st) as (-> & _).
  set (entry := make_entry payload clientId now (logSeq st + 1)).
  destruct (trimLogs_drop (with_logs (logs st ++ [entry]) (with_logSeq (logSeq st + 1) st)))
    as (n & ->). simpl.
  intros Hin%subseteq_drop. apply elem_of_app in Hin as [Hin|Hin]; [by left|].
  apply list_elem_of_singleton in Hin. subst e. right. simpl. lia.
Qed.

Lemma apply_op_logSeq op st :
  logSeq st <= logSeq (apply_op host op st)
  /\ maxLogEntries (apply_op host op st) = maxLogEntries st.
Proof.
  destruct op as [payload clientId now|]; simpl; [|split; [lia|done]].
  destruct (addLogEntry_store payload clientId now st) as (_ & -> & -> & _).
  split; [lia|done].
Qed.

Lemma run_ops_elem ops :
  forall st e,
    e ∈ logs (fst (run_ops host ops st)) -> e ∈ logs st \/ logSeq st < id e.
Proof.
  induction ops as [|op ops IH]; intros st e; simpl; [by left|].
  specialize (IH (apply_op host op st) e).
  destruct (run_ops host ops (apply_op host op st)) as [st2 ids]. simpl in *.
  intros Hin. destruct (IH Hin) as [Hin'|Hlt].
  - by apply (apply_op_elem op).
  - right. pose proof (apply_op_logSeq op st) as [Hle _]. lia.
Qed.

Lemma run_ops_ids ops :
  forall st,
    StronglySorted Z.lt (snd (run_ops host ops st))
    /\ Forall (fun i => logSeq st < i) (snd (run_ops host ops st))
    /\ logSeq st <= logSeq (fst (run_ops host ops st))
    /\ (1 <= maxLogEntries st -> length (snd (run_ops host ops st)) = ingests ops).
Proof.
  induction ops as [|op ops IH]; intros st; simpl.
  - split; [constructor|]. split; [constructor|]. split; [lia|done].
  - destruct (IH (apply_op host op st)) as (Hs & Hf & Hle & Hlen).
    pose proof (apply_op_logSeq op st) as [Hseq Hmax]. rewrite Hmax in Hlen.
    destruct (run_ops host ops (apply_op host op st)) as [st2 ids] eqn:E.
    cbn [fst snd] in *.
    assert (Hids : Forall (fun i => logSeq st < i) ids).
    { eapply Forall_impl; [exact Hf|]. simpl. intros. lia. }
    destruct op as [payload clientId now|]; cbn [ingests List.filter length] in *.
    + destruct (addLogEntry_store payload clientId now st) as (_ & Hnew & _).
      destruct (addLogEntry_last payload clientId now st) as [Hlast Hthere].
      unfold apply_op in *.
      destruct (last (logs (addLogEntry host payload clientId now st))) as [e|] eqn:El.
      * rewrite (Hlast e eq_refl). simpl.
        split; [|split; [|split; [lia|]]].
        -- constructor; [done|]. eapply Forall_impl; [exact Hf|].
           simpl. intros. lia.
        -- constructor; [lia|done].
        -- intros H1. fold (ingests ops). f_equal. by apply Hlen.
      * simpl. split; [done|]. split; [done|]. split; [lia|].
        intros H1. by specialize (Hthere H1).
    + simpl. split; [done|]. split; [done|]. split; [lia|done].
Qed.

Lemma same_id_same_entry (l : list Entry) e1 e2 :
  StronglySorted Z.lt (id <$> l) -> e1 ∈ l -> e2 ∈ l -> id e1 = id e2 -> e1 = e2.
Proof.
  intros Hs H1 H2 Hid.
  pose proof (find_by_id l e1 Hs H1) as F1.
  pose proof (find_by_id l e2 Hs H2) as F2.
  rewrite Hid in F1. congruence.
Qed.

(** C6. Along any sequence of ingest and clear calls, the ids of the
    entries that the ingests leave in the store, read from the store after
    each call, are strictly increasing, hence never repeated, and all above
    the counter the sequence started from; with a capacity of at least one
    there is one for each ingest. The entry that an ingest leaves at the
    end of the store is the one it created, with id [logSeq + 1]. From a
    store whose ids are in increasing order and not above the counter (the
    empty store, for one), an id is never used again: an entry found in the
    store at a later moment either is an entry that was stored before, or
    carries an id above that of every entry stored before, also of those
    that were trimmed or cleared since. Neither [clearLogs] nor [trimLogs]
    touches [logSeq]. *)
Theorem ids_strictly_increase :
  forall ops st,
    StronglySorted Z.lt (snd (run_ops host ops st))
    /\ NoDup (snd (run_ops host ops st))
    /\ Forall (fun i => logSeq st < i) (snd (run_ops host ops st))
    /\ (1 <= maxLogEntries st -> length (snd (run_ops host ops st)) = ingests ops)
    /\ (ids_in_order st ->
        forall later e1 e2,
          e1 ∈ logs (fst (run_ops host ops st)) ->
          e2 ∈ logs (fst (run_ops host later (fst (run_ops host ops st)))) ->
          (id e1 = id e2 -> e1 = e2)
          /\ (e2 ∉ logs (fst (run_ops host ops st)) -> id e1 < id e2))
    /\ (forall payload clientId now,
          logSeq (addLogEntry host payload clientId now st) = logSeq st + 1
          /\ (forall e,
                last (logs (addLogEntry host payload clientId now st)) = Some e ->
                e = make_entry payload clientId now (logSeq st + 1)
                /\ id e = logSeq st + 1)
          /\ (1 <= maxLogEntries st ->
              last (logs (addLogEntry host payload clientId now st))
              = Some (make_entry payload clientId now (logSeq st + 1))))
    /\ logSeq (clearLogs st) = logSeq st
    /\ logs (clearLogs st) = []
    /\ logSeq (trimLogs st) = logSeq st.
Proof.
  intros ops st. destruct (run_ops_ids ops st) as (Hs & Hf & _ & Hlen).
  split; [done|].
  split; [|split; [done|split; [done|split; [|split; [|split; [done|split; [done|]]]]]]].
  - clear Hf Hlen. induction Hs as [|i ids Hs IH Hall]; [constructor|].
    apply NoDup_cons. split; [|done].
    intros Hin. rewrite Forall_forall in Hall.
    specialize (Hall _ Hin). lia.
  - intros Hst later e1 e2 H1 H2.
    pose proof (run_ops_ids_in_order ops st Hst) as [Hsorted Hle].
    rewrite Forall_forall in Hle. specialize (Hle e1 H1).
    destruct (run_ops_elem later _ e2 H2) as [Hin|Hlt].
    + split; [by apply (same_id_same_entry _ e1 e2 Hsorted)|done].
    + split; intros; lia.
  - intros payload clientId now.
    destruct (addLogEntry_store payload clientId now st) as (_ & Hseq & _).
    destruct (addLogEntry_last payload clientId now st) as [Hlast Hthere].
    split; [done|]. split; [|done].
    intros e He. rewrite (Hlast e He). done.
  - apply trimLogs_logSeq.
Qed.

(** *** Inline annotation state *)

Lemma string_app_assoc (a b c : string) : (a +:+ b) +:+ c = a +:+ (b +:+ c).
Proof.
  induction a as [|x a IH]; [reflexivity|].
  change (String x ((a +:+ b) +:+ c) = String x (a +:+ (b +:+ c))). by f_equal.
Qed.

Lemma line_state_default (m : gmap string (gmap Z LineData)) uri ln :
  default ∅ (m !! uri) !! ln = (lineState ← m !! uri; lineState !! ln).
Proof. destruct (m !! uri); simpl; [done|]. apply lookup_empty. Qed.

(** What [updateInlineForEntry] stores for the line of a resolved entry. *)
Lemma updateInlineForEntry_line entry st path :
  resolveEntryPath host (config st) entry = Resolved path ->
  line_state (updateInlineForEntry host entry st)
    (uri_file_toString host path) (inline_line entry)
  = Some {| ld_entry := entry;
            ld_count :=
              match line_state st (uri_file_toString host path) (inline_line entry) with
              | Some existing => ld_count existing + 1
              | None => 1
              end |}.
Proof.
  intros Hr. unfold updateInlineForEntry. rewrite Hr.
  unfold line_state. simpl. rewrite lookup_insert_eq. simpl.
  rewrite lookup_insert_eq. by rewrite line_state_default.
Qed.

(** Every other line keeps its state. *)
Lemma updateInlineForEntry_other entry st path uri ln :
  resolveEntryPath host (config st) entry = Resolved path ->
  (uri, ln) <> (uri_file_toString host path, inline_line entry) ->
  line_state (updateInlineForEntry host entry st) uri ln = line_state st uri ln.
Proof.
  intros Hr Hne. unfold updateInlineForEntry. rewrite Hr.
  unfold line_state. simpl.
  destruct (decide (uri_file_toString host path = uri)) as [<-|Hu].
  - rewrite lookup_insert_eq. simpl.
    rewrite lookup_insert_ne by congruence. apply line_state_default.
  - by rewrite lookup_insert_ne.
Qed.

(** No line loses occurrences when an entry is recorded. *)
Lemma updateInlineForEntry_monotone entry st uri ln :
  occurrenceCount st uri ln <= occurrenceCount (updateInlineForEntry host entry st) uri ln.
Proof.
  destruct (resolveEntryPath host (config st) entry) as [path| |] eqn:Hr.
  - unfold occurrenceCount.
    destruct (decide ((uri, ln) = (uri_file_toString host path, inline_line entry)))
      as [[= -> ->]|Hne].
    + rewrite (updateInlineForEntry_line _ _ _ Hr). simpl.
      destruct (line_state st _ _); lia.
    + rewrite (updateInlineForEntry_other _ _ _ _ _ Hr Hne). lia.
  - unfold updateInlineForEntry. rewrite Hr. lia.
  - unfold updateInlineForEntry. rewrite Hr. lia.
Qed.

Lemma addLogEntry_monotone payload clientId now st uri ln :
  occurrenceCount st uri ln
  <= occurrenceCount (addLogEntry host payload clientId now st) uri ln.
Proof.
  rewrite addLogEntry_cases. cbv zeta.
  set (entry := make_entry payload clientId now (logSeq st + 1)).
  set (st1 := trimLogs _).
  assert (H1 : occurrenceCount st1 uri ln = occurrenceCount st uri ln).
  { unfold occurrenceCount, line_state, st1. by rewrite trimLogs_lineStateByUri. }
  set (st2 := with_outputChannel _ st1).
  assert (H2 : occurrenceCount st2 uri ln = occurrenceCount st1 uri ln) by reflexivity.
  destruct (_ && _); [|lia].
  destruct (inlineEnabled st); [|lia].
  etransitivity; [|apply updateInlineForEntry_monotone]. lia.
Qed.

(** The suffix of the display text for a line seen twice. *)
Lemma formatInlineText_twice cfg entry :
  exists shown, formatInlineText host cfg entry 2 = shown +:+ " (+1)".
Proof.
  unfold formatInlineText. cbv zeta.
  set (prefix := if inlineShowTimestamp cfg then _ else _).
  set (shown := if _ >? _ then _ else _).
  exists (" " +:+ prefix +:+ shown).
  rewrite !string_app_assoc. reflexivity.
Qed.

(** C9. For a line [(file, line)] to which events are mapped: the first
    event stores a count of 1; every later one stores the previous count
    plus 1 and replaces the retained event; no other line changes, and no
    count ever decreases when an event is recorded or ingested, while
    [clearLogs] discards all line state. When two events land on the same
    line, the state holds the second event with a count of 2, and its
    display text ends in [" (+1)"]. *)
Theorem occurrence_count_per_line :
  forall entry st path,
    resolveEntryPath host (config st) entry = Resolved path ->
    (line_state st (uri_file_toString host path) (inline_line entry) = None ->
     line_state (updateInlineForEntry host entry st)
       (uri_file_toString host path) (inline_line entry)
     = Some {| ld_entry := entry; ld_count := 1 |})
    /\ (forall existing,
          line_state st (uri_file_toString host path) (inline_line entry) = Some existing ->
          line_state (updateInlineForEntry host entry st)
            (uri_file_toString host path) (inline_line entry)
          = Some {| ld_entry := entry; ld_count := ld_count existing + 1 |})
    /\ (forall uri ln,
          (uri, ln) <> (uri_file_toString host path, inline_line entry) ->
          line_state (updateInlineForEntry host entry st) uri ln = line_state st uri ln)
    /\ (forall entry' st' uri ln,
          occurrenceCount st' uri ln
          <= occurrenceCount (updateInlineForEntry host entry' st') uri ln)
    /\ (forall payload clientId now st' uri ln,
          occurrenceCount st' uri ln
          <= occurrenceCount (addLogEntry host payload clientId now st') uri ln)
    /\ (forall st' uri ln, occurrenceCount (clearLogs st') uri ln = 0)
    /\ (forall second,
          resolveEntryPath host (config st) second = Resolved path ->
          inline_line second = inline_line entry ->
          line_state st (uri_file_toString host path) (inline_line entry) = None ->
          line_state (updateInlineForEntry host second (updateInlineForEntry host entry st))
            (uri_file_toString host path) (inline_line entry)
          = Some {| ld_entry := second; ld_count := 2 |}
          /\ exists shown,
              formatInlineText host (config st) second 2 = shown +:+ " (+1)").
Proof.
  intros entry st path Hr.
  split; [|split; [|split; [|split; [|split; [|split]]]]].
  - intros Hnone. by rewrite (updateInlineForEntry_line _ _ _ Hr), Hnone.
  - intros existing Hsome. by rewrite (updateInlineForEntry_line _ _ _ Hr), Hsome.
  - intros uri ln Hne. by apply (updateInlineForEntry_other _ _ path).
  - apply updateInlineForEntry_monotone.
  - apply addLogEntry_monotone.
  - intros st' uri ln. unfold occurrenceCount, line_state, clearLogs. simpl.
    by rewrite lookup_empty.
  - intros second Hr2 Hline Hnone. split; [|apply formatInlineText_twice].
    assert (Hcfg : config (updateInlineForEntry host entry st) = config st)
      by apply updateInlineForEntry_frame.
    rewrite <- Hcfg in Hr2. rewrite <- Hline.
    rewrite (updateInlineForEntry_line _ _ _ Hr2), Hline.
    by rewrite (updateInlineForEntry_line _ _ _ Hr), Hnone.
Qed.

(** *** Normalisation at ingestion *)

Lemma str_or_else_missing x dflt : missing x -> str_or_else x dflt = dflt.
Proof. by intros [-> | ->]. Qed.

(** C10 as amended. The entry that [addLogEntry] creates and appends to
    the store holds [null] for a [line], [column], [status] or
    [durationMs] that arrived as 0 and the empty string for a [text] that
    is missing or empty; a missing [level] falls back to the payload's
    [kind] when that is one of [LEVELS], and to ["log"] when the [kind] is
    missing too or is not one of [LEVELS]. A payload with [line = 0]
    creates the same entry, and leaves the same state, as the payload
    without a [line]: its inline position is the first line of the
    file. *)
Theorem falsy_fields_are_normalized :
  forall payload clientId now newId,
    (m_line payload = Some 0 -> line (make_entry payload clientId now newId) = None)
    /\ (m_column payload = Some 0 -> column (make_entry payload clientId now newId) = None)
    /\ (m_status payload = Some (inl 0) ->
        status (make_entry payload clientId now newId) = None)
    /\ (m_durationMs payload = Some 0 ->
        durationMs (make_entry payload clientId now newId) = None)
    /\ (missing (m_text payload) -> text (make_entry payload clientId now newId) = "")
    /\ (missing (m_level payload) ->
        level (make_entry payload clientId now newId)
        = sanitizeLevel (str_or_else (m_kind payload) "log")
        /\ (forall k, m_kind payload = Some k -> k ∈ LEVELS ->
                      level (make_entry payload clientId now newId) = k)
        /\ (forall k, m_kind payload = Some k -> k ∉ LEVELS ->
                      level (make_entry payload clientId now newId) = "log")
        /\ (missing (m_kind payload) ->
            level (make_entry payload clientId now newId) = "log"))
    /\ (forall st,
          logs (addLogEntry host payload clientId now st)
          = logs (trimLogs
                    (with_logs (logs st ++ [make_entry payload clientId now (logSeq st + 1)])
                       (with_logSeq (logSeq st + 1) st))))
    /\ (m_line payload = Some 0 ->
        make_entry payload clientId now newId
        = make_entry (with_m_line None payload) clientId now newId
        /\ inline_line (make_entry payload clientId now newId) = 0
        /\ forall st,
            addLogEntry host payload clientId now st
            = addLogEntry host (with_m_line None payload) clientId now st).
Proof.
  intros payload clientId now newId.
  split; [|split; [|split; [|split; [|split; [|split; [|split]]]]]].
  - intros H. simpl. by rewrite H.
  - intros H. simpl. by rewrite H.
  - intros H. simpl. by rewrite H.
  - intros H. simpl. by rewrite H.
  - intros H. simpl. by apply str_or_else_missing.
  - intros H. simpl. rewrite (str_or_else_missing _ _ H). split; [done|].
    split; [|split].
    + intros k Hk Hin. rewrite Hk. unfold sanitizeLevel, str_or_else, str_or_null.
      destruct (String.eqb k "") eqn:E.
      * apply String.eqb_eq in E. subst k. exfalso. revert Hin. unfold LEVELS.
        rewrite !elem_of_cons, elem_of_nil. intros Hin.
        repeat (destruct Hin as [Hin|Hin]; [discriminate Hin|]). done.
      * by rewrite bool_decide_eq_true_2.
    + intros k Hk Hout. rewrite Hk. unfold sanitizeLevel, str_or_else, str_or_null.
      destruct (String.eqb k "") eqn:E; [done|].
      by rewrite bool_decide_eq_false_2.
    + intros Hk. by rewrite (str_or_else_missing _ _ Hk).
  - intros st. apply addLogEntry_store.
  - intros H.
    assert (He : forall i, make_entry payload clientId now i
                           = make_entry (with_m_line None payload) clientId now i).
    { intros i. unfold make_entry. simpl. by rewrite H. }
    split; [apply He|]. split.
    + unfold inline_line. simpl. by rewrite H.
    + intros st. unfold addLogEntry. cbv zeta. by rewrite He.
Qed.

(** *** Levels *)

Lemma sanitizeLevel_known lv : sanitizeLevel lv ∈ LEVELS.
Proof.
  unfold sanitizeLevel. case_bool_decide; [done|].
  unfold LEVELS. apply elem_of_cons. by left.
Qed.

Lemma addLogEntry_line_state payload clientId now st uri ln d :
  line_state (addLogEntry host payload clientId now st) uri ln = Some d ->
  line_state st uri ln = Some d
  \/ ld_entry d = make_entry payload clientId now (logSeq st + 1).
Proof.
  rewrite addLogEntry_cases. cbv zeta.
  set (entry := make_entry payload clientId now (logSeq st + 1)).
  set (st1 := trimLogs _).
  assert (H1 : line_state st1 uri ln = line_state st uri ln).
  { unfold line_state, st1. by rewrite trimLogs_lineStateByUri. }
  set (st2 := with_outputChannel _ st1).
  assert (H2 : line_state st2 uri ln = line_state st1 uri ln) by reflexivity.
  destruct (_ && _); [|rewrite H1; by left].
  destruct (inlineEnabled st); [|rewrite H2, H1; by left].
  destruct (resolveEntryPath host (config st2) entry) as [path| |] eqn:Hr.
  - destruct (decide ((uri, ln) = (uri_file_toString host path, inline_line entry)))
      as [[= -> ->]|Hne].
    + rewrite (updateInlineForEntry_line _ _ _ Hr). intros [= <-]. by right.
    + rewrite (updateInlineForEntry_other _ _ _ _ _ Hr Hne), H2, H1. by left.
  - unfold updateInlineForEntry. rewrite Hr, H2, H1. by left.
  - unfold updateInlineForEntry. rewrite Hr, H2, H1. by left.
Qed.

Lemma apply_op_levels_known op st : levels_known st -> levels_known (apply_op host op st).
Proof.
  intros [Hlogs Hlines]. destruct op as [payload clientId now|]; simpl.
  - split.
    + destruct (addLogEntry_store payload clientId now st) as (-> & _).
      destruct (trimLogs_drop
                  (with_logs (logs st ++ [make_entry payload clientId now (logSeq st + 1)])
                     (with_logSeq (logSeq st + 1) st))) as (n & ->).
      apply Forall_drop. simpl. apply Forall_app. split; [done|].
      apply Forall_singleton. apply sanitizeLevel_known.
    + intros uri ln d Hd. apply addLogEntry_line_state in Hd as [Hd| ->].
      * by eapply Hlines.
      * apply sanitizeLevel_known.
  - split; [constructor|]. intros uri ln d. unfold line_state, clearLogs. simpl.
    by rewrite lookup_empty.
Qed.

(** Every level the host holds is one of the eight known levels. Whatever
    [level] and [kind] a payload carries, the entry created for it has a
    level of [LEVELS] (an unknown one becomes ["log"]); so after any
    sequence of ingest and clear calls every entry of the store, and every
    entry retained for a line, has a level of [LEVELS]. [sanitizeLevel]
    keeps a known level and is idempotent. *)
Theorem stored_levels_are_known :
  (forall payload clientId now newId,
      level (make_entry payload clientId now newId) ∈ LEVELS)
  /\ (forall lv, lv ∈ LEVELS -> sanitizeLevel lv = lv)
  /\ (forall lv, sanitizeLevel (sanitizeLevel lv) = sanitizeLevel lv)
  /\ (forall lv, lv ∉ LEVELS -> sanitizeLevel lv = "log")
  /\ (forall ops st, levels_known st -> levels_known (fst (run_ops host ops st))).
Proof.
  split; [intros; apply sanitizeLevel_known|].
  assert (Hkeep : forall lv, lv ∈ LEVELS -> sanitizeLevel lv = lv).
  { intros lv Hin. unfold sanitizeLevel. by rewrite bool_decide_eq_true_2. }
  split; [exact Hkeep|]. split; [intros lv; apply Hkeep, sanitizeLevel_known|].
  split.
  - intros lv Hn. unfold sanitizeLevel. by rewrite bool_decide_eq_false_2.
  - intros ops. induction ops as [|op ops IH]; intros st Hst; simpl; [done|].
    specialize (IH (apply_op host op st) (apply_op_levels_known op st Hst)).
    by destruct (run_ops host ops (apply_op host op st)).
Qed.


(** *** Resolved paths *)

Lemma first_existing_exists folders rel p :
  first_existing host folders rel = Some p -> existsSync host p = true.
Proof.
  induction folders as [|folder folders IH]; simpl; [done|].
  destruct (existsSync host (path_join host folder rel)) eqn:E; [|done].
  by intros [= <-].
Qed.

Lemma map_by_mappings_exists mappings urlString p :
  map_by_mappings host mappings urlString = Some p -> existsSync host p = true.
Proof.
  induction mappings as [|[urlPrefix localPathPrefix] mappings IH]; simpl; [done|].
  destruct (str_or_null urlPrefix) as [pre|]; [|exact IH].
  destruct (str_or_null localPathPrefix) as [local|]; [|exact IH].
  destruct (String.prefix pre urlString); [|exact IH].
  set (replaced := replace_prefix urlString pre local).
  destruct (negb (isAbsolute host replaced)).
  - destruct (first_existing host _ replaced) as [candidate|] eqn:E; [|exact IH].
    intros [= <-]. by eapply first_existing_exists.
  - destruct (existsSync host replaced) eqn:E; [|exact IH]. by intros [= <-].
Qed.

Lemma mapUrlToPath_exists cfg urlString p :
  mapUrlToPath host cfg urlString = Resolved p -> existsSync host p = true.
Proof.
  unfold mapUrlToPath.
  destruct (map_by_mappings host _ _) as [q|] eqn:E.
  - intros [= <-]. by eapply map_by_mappings_exists.
  - destruct (url_pathname host urlString) as [| |urlPath]; try done.
    destruct (String.eqb urlPath ""); [done|].
    destruct (first_existing host _ _) as [candidate|] eqn:E'; [|done].
    intros [= <-]. by eapply first_existing_exists.
Qed.

Lemma resolve_plain_exists raw p :
  resolve_plain host raw = Resolved p -> existsSync host p = true.
Proof.
  unfold resolve_plain.
  destruct (isAbsolute host raw && existsSync host raw) eqn:E.
  - intros [= <-]. by apply andb_true_iff in E as [_ ?].
  - destruct (negb _); [|done].
    destruct (first_existing host _ _) as [candidate|] eqn:E'; [|done].
    intros [= <-]. by eapply first_existing_exists.
Qed.

Lemma resolve_url_exists cfg raw p :
  resolve_url host cfg raw = Resolved p -> existsSync host p = true.
Proof.
  unfold resolve_url. destruct (has_scheme host raw); [|apply resolve_plain_exists].
  destruct (mapUrlToPath host cfg raw) as [mapped| |] eqn:E; [|apply resolve_plain_exists|done].
  intros [= <-]. by eapply mapUrlToPath_exists.
Qed.

Lemma resolveEntryPath_exists cfg entry p :
  resolveEntryPath host cfg entry = Resolved p -> existsSync host p = true.
Proof.
  unfold resolveEntryPath.
  destruct (str_or_null (file entry)) as [raw|]; [|done].
  destruct (String.prefix "file://" raw); [|apply resolve_url_exists].
  destruct (uri_parse_fsPath host raw) as [fsPath|]; [|done].
  destruct (existsSync host fsPath) eqn:E; [|apply resolve_url_exists].
  by intros [= <-].
Qed.

Lemma addLogEntry_uris payload clientId now st uri :
  is_Some (lineStateByUri (addLogEntry host payload clientId now st) !! uri) ->
  is_Some (lineStateByUri st !! uri)
  \/ exists p, uri = uri_file_toString host p /\ existsSync host p = true.
Proof.
  rewrite addLogEntry_cases. cbv zeta.
  set (entry := make_entry payload clientId now (logSeq st + 1)).
  set (st1 := trimLogs _).
  assert (H0 : lineStateByUri st1 = lineStateByUri st).
  { unfold st1. by rewrite trimLogs_lineStateByUri. }
  set (st2 := with_outputChannel _ st1).
  assert (H1 : lineStateByUri st2 = lineStateByUri st) by exact H0.
  destruct (_ && _); [|rewrite H0; by left].
  destruct (inlineEnabled st); [|rewrite H1; by left].
  unfold updateInlineForEntry.
  destruct (resolveEntryPath host (config st2) entry)
    as [path| |] eqn:Hr; [|rewrite H1; by left..].
  simpl. destruct (decide (uri_file_toString host path = uri)) as [<-|Hne].
  - intros _. right. exists path. split; [done|]. by eapply resolveEntryPath_exists.
  - rewrite lookup_insert_ne by done.
    change (lineStateByUri st2) with (lineStateByUri st1).
    rewrite H0. by left.
Qed.

(** Whatever its form (a [file://] URI, a URL, an absolute or a relative
    path) and whatever the mappings, a location is resolved only to a path
    that [fs.existsSync] has confirmed: [mapUrlToPath] and
    [resolveEntryPath] never return a path that does not exist, and an
    entry without a file is not resolved. So after any sequence of ingest
    and clear calls, every file that has inline state is the URI of an
    existing file, if that held before. *)
Theorem resolved_paths_exist :
  (forall cfg entry p,
      resolveEntryPath host cfg entry = Resolved p -> existsSync host p = true)
  /\ (forall cfg urlString p,
        mapUrlToPath host cfg urlString = Resolved p -> existsSync host p = true)
  /\ (forall cfg entry, missing (file entry) -> resolveEntryPath host cfg entry = Unresolved)
  /\ (forall ops st,
        (forall uri, is_Some (lineStateByUri st !! uri) ->
                     exists p, uri = uri_file_toString host p /\ existsSync host p = true) ->
        forall uri, is_Some (lineStateByUri (fst (run_ops host ops st)) !! uri) ->
                    exists p, uri = uri_file_toString host p /\ existsSync host p = true).
Proof.
  split; [apply resolveEntryPath_exists|]. split; [apply mapUrlToPath_exists|]. split.
  - intros cfg entry [Hf|Hf]; unfold resolveEntryPath; by rewrite Hf.
  - intros ops. induction ops as [|op ops IH]; intros st Hst uri; simpl; [apply Hst|].
    specialize (IH (apply_op host op st)).
    destruct (run_ops host ops (apply_op host op st)) as [st2 ids]. simpl in *.
    apply IH. clear IH. intros u Hu.
    destruct op as [payload clientId now|]; simpl in Hu.
    + apply addLogEntry_uris in Hu as [Hu|Hu]; [by apply Hst|done].
    + rewrite lookup_empty in Hu. by destruct Hu.
Qed.


(** *** The output channel *)










(** *** Opening an entry *)

Lemma find_no_id (l : list Entry) n :
  (forall e, e ∈ l -> id e <> n) -> List.find (fun item => id item =? n) l = None.
Proof.
  induction l as [|x l IH]; simpl; intros Hn; [done|].
  destruct (id x =? n) eqn:E.
  - apply Z.eqb_eq in E. exfalso. apply (Hn x); [apply elem_of_cons; by left|done].
  - apply IH. intros e He. apply Hn. apply elem_of_cons. by right.
Qed.

(** An entry that is still in the store is found by its id, one that was
    trimmed or cleared is not. From a store whose ids are in increasing
    order and not above the counter (the empty store, for one), any
    sequence of ingest and clear calls leads to such a store, in which no
    two entries share an id. There [openEntry] of the id of a stored entry
    finds that very entry, and opens its file, when the file resolves,
    with the cursor at the zero-based line and column (an entry without
    line or column opens at the start); of any other id it does nothing. *)
Theorem entries_are_found_by_id :
  forall ops st,
    ids_in_order st ->
    let st' := fst (run_ops host ops st) in
    ids_in_order st'
    /\ NoDup (id <$> logs st')
    /\ (forall e, e ∈ logs st' ->
          find_entry (id e) st' = Some e
          /\ openEntry host (id e) st'
             = match resolveEntryPath host (config st') e with
               | Resolved p =>
                   OpenAt (uri_file_toString host p)
                     (match line e with Some l => Z.max 0 (l - 1) | None => 0 end)
                     (match column e with Some c => Z.max 0 (c - 1) | None => 0 end)
               | Unresolved => CannotResolve
               | Raised => ResolveRaised
               end)
    /\ (forall n, (forall e, e ∈ logs st' -> id e <> n) -> openEntry host n st' = NoSuchEntry).
Proof.
  intros ops st Hst st'.
  assert (Hord : ids_in_order st') by (by apply run_ops_ids_in_order).
  split; [exact Hord|]. destruct Hord as [Hs Hle]. split; [|split].
  - clear Hle. induction Hs as [|x l Hs IH Hx]; constructor; [|done].
    intros Hin. rewrite Forall_forall in Hx. specialize (Hx x Hin). lia.
  - intros e He.
    assert (Hfind : find_entry (id e) st' = Some e) by (by apply find_by_id).
    split; [exact Hfind|]. unfold openEntry. rewrite Hfind.
    destruct (resolveEntryPath host (config st') e); try done.
    f_equal.
    + destruct (line e) as [l|]; simpl; [|done].
      destruct (l =? 0) eqn:E; simpl; [|done]. lia.
    + destruct (column e) as [c|]; simpl; [|done].
      destruct (c =? 0) eqn:E; simpl; [|done]. lia.
  - intros n Hn. unfold openEntry, find_entry. by rewrite find_no_id.
Qed.


(** *** The length of an annotation *)

Lemma string_length_app (a b : string) :
  String.length (a +:+ b) = (String.length a + String.length b)%nat.
Proof.
  induction a as [|x a IH]; [reflexivity|].
  change (S (String.length (a +:+ b)) = S (String.length a + String.length b)).
  by rewrite IH.
Qed.

(** The text of an annotation, between the timestamp prefix and the
    repeat suffix, is the text of the entry if that is at most
    [inlineMaxTextLength] characters long; a longer text is cut to its
    first [inlineMaxTextLength - 3] characters followed by ["..."], so
    that exactly [inlineMaxTextLength] characters are shown. When
    [inlineMaxTextLength] is below 3 a text that is too long is shown as
    ["..."], three characters, more than the setting. *)
Theorem inline_text_is_cut_to_length :
  forall cfg entry count,
    let maxLen := inlineMaxTextLength cfg in
    let text := str_or (text entry) (formatFallbackText host entry) in
    let prefix :=
      if inlineShowTimestamp cfg
      then "[" +:+ formatTimestamp host (timestamp entry) +:+ "] " else "" in
    let suffix := if count >? 1 then " (+" +:+ num_str (count - 1) +:+ ")" else "" in
    exists shown,
      formatInlineText host cfg entry count = " " +:+ prefix +:+ shown +:+ suffix
      /\ str_len shown <= Z.max maxLen 3
      /\ (str_len text <= maxLen -> shown = text)
      /\ (maxLen < str_len text ->
          shown = String.substring 0 (Z.to_nat (maxLen - 3)) text +:+ "..."
          /\ (3 <= maxLen -> str_len shown = maxLen)
          /\ (maxLen < 3 -> shown = "...")).
Proof.
  intros cfg entry count maxLen text prefix suffix.
  unfold formatInlineText. cbv zeta. fold maxLen text prefix suffix.
  destruct (str_len text >? maxLen) eqn:E.
  - assert (Hcut : slice0 text (Z.max 0 (maxLen - 3))
                   = String.substring 0 (Z.to_nat (maxLen - 3)) text).
    { unfold slice0. destruct (Z.max 0 (maxLen - 3) <? 0) eqn:E'; [lia|].
      f_equal. unfold str_len in *. lia. }
    rewrite Hcut.
    assert (Hlen : str_len (String.substring 0 (Z.to_nat (maxLen - 3)) text +:+ "...")
                   = Z.max 0 (maxLen - 3) + 3).
    { unfold str_len in *. rewrite string_length_app, substring_length by lia.
      simpl. lia. }
    eexists. split; [reflexivity|]. split; [rewrite Hlen; lia|].
    split; [intros H; exfalso; lia|].
    intros _. split; [done|]. split; [intros H; rewrite Hlen; lia|].
    intros Hsmall. replace (Z.to_nat (maxLen - 3)) with 0%nat by lia.
    by destruct text.
  - eexists. split; [reflexivity|]. split; [lia|]. split; [done|]. lia.
Qed.

(** *** Escaping for Markdown *)

Lemma markdown_special_backslash c :
  markdown_special c = false -> Ascii.eqb c backslash = false.
Proof.
  unfold markdown_special. simpl. intros H.
  by apply orb_false_iff in H as [? _].
Qed.

Lemma escape_chars_facts text :
  unescape (escape_chars text) = text
  /\ has_bare_special (escape_chars text) = false
  /\ String.length (escape_chars text) = (String.length text + count_special text)%nat.
Proof.
  induction text as [|c text (IH1 & IH2 & IH3)]; [done|].
  cbn [escape_chars count_special]. destruct (markdown_special c) eqn:E.
  - cbn [unescape has_bare_special String.length]. rewrite Ascii.eqb_refl.
    rewrite IH1, IH2, IH3. split; [done|]. split; [done|]. lia.
  - cbn [unescape has_bare_special String.length].
    rewrite (markdown_special_backslash _ E), E, IH1, IH2, IH3. done.
Qed.

(** [escapeMarkdown] puts a backslash in front of every character of its
    class and changes nothing else: read as Markdown, where a backslash
    makes the next character literal, the result is the text again; no
    character of the class is left without its backslash, so none of the
    text is taken as markup; the result is longer by the number of such
    characters, and a text without any is returned as it is. *)
Theorem escapeMarkdown_is_literal :
  forall text,
    unescape (escapeMarkdown text) = text
    /\ has_bare_special (escapeMarkdown text) = false
    /\ String.length (escapeMarkdown text) = (String.length text + count_special text)%nat
    /\ (count_special text = 0%nat -> escapeMarkdown text = text).
Proof.
  intros text.
  assert (He : escapeMarkdown text = escape_chars text).
  { unfold escapeMarkdown. destruct (String.eqb text "") eqn:E; [|done].
    apply String.eqb_eq in E. by subst text. }
  rewrite He. destruct (escape_chars_facts text) as (H1 & H2 & H3).
  split; [done|]. split; [done|]. split; [done|].
  clear. induction text as [|c text IH]; [done|].
  cbn [escape_chars count_special]. destruct (markdown_special c); [done|].
  intros H. by rewrite IH.
Qed.

(** *** What an editor shows *)





(** *** Annotations and trimming *)

Lemma shown_part_trimLogs st : shown_part (trimLogs st) = shown_part st.
Proof. unfold trimLogs. by destruct (_ <=? _). Qed.

Lemma shown_part_updateInlineForEntry entry st :
  shown_part (updateInlineForEntry host entry st)
  = updateInlineForEntry host entry (shown_part st).
Proof.
  unfold updateInlineForEntry. change (config (shown_part st)) with (config st).
  by destruct (resolveEntryPath host (config st) entry).
Qed.

Lemma shown_part_addLogEntry payload clientId now st :
  shown_part (addLogEntry host payload clientId now st)
  = shown_part (addLogEntry host payload clientId now (shown_part st)).
Proof.
  rewrite !addLogEntry_cases. cbv zeta.
  change (logSeq (shown_part st)) with (logSeq st).
  change (config (shown_part st)) with (config st).
  change (inlineEnabled (shown_part st)) with (inlineEnabled st).
  set (entry := make_entry payload clientId now (logSeq st + 1)).
  set (st1 := trimLogs (with_logs (logs st ++ [entry]) (with_logSeq (logSeq st + 1) st))).
  set (st2 := trimLogs (with_logs (logs (shown_part st) ++ [entry])
                          (with_logSeq (logSeq st + 1) (shown_part st)))).
  assert (H12 : shown_part st1 = shown_part st2).
  { unfold st1, st2. by rewrite !shown_part_trimLogs. }
  destruct (_ && _); [|exact H12].
  assert (Ha : shown_part (with_outputChannel (outputChannel st1 ++ [output_line host entry])
                             st1)
               = shown_part (with_outputChannel
                               (outputChannel st2 ++ [output_line host entry]) st2)).
  { unfold shown_part, with_logs, with_maxLogEntries, with_outputChannel.
    simpl. injection H12 as -> -> -> -> ->. done. }
  destruct (inlineEnabled st); [|exact Ha].
  by rewrite !shown_part_updateInlineForEntry, Ha.
Qed.

Lemma shown_part_ingest_all calls :
  forall st st',
    shown_part st = shown_part st' ->
    shown_part (ingest_all host calls st) = shown_part (ingest_all host calls st').
Proof.
  induction calls as [|[[payload clientId] now] calls IH]; intros st st' Heq; simpl; [done|].
  apply IH. by rewrite shown_part_addLogEntry, Heq, <- shown_part_addLogEntry.
Qed.

(** The inline state and the output channel do not depend on what the
    store holds nor on its capacity: [trimLogs] leaves them alone, and the
    same sequence of events leads to the same inline state, the same
    output and the same id counter whatever [maxLogEntries] is. Trimming
    never removes or changes an annotation, so a line keeps showing an
    entry that the store has already dropped. *)
Theorem annotations_survive_trimming :
  forall calls st m,
    lineStateByUri (ingest_all host calls (with_maxLogEntries m st))
    = lineStateByUri (ingest_all host calls st)
    /\ outputChannel (ingest_all host calls (with_maxLogEntries m st))
       = outputChannel (ingest_all host calls st)
    /\ logSeq (ingest_all host calls (with_maxLogEntries m st))
       = logSeq (ingest_all host calls st)
    /\ lineStateByUri (trimLogs st) = lineStateByUri st
    /\ outputChannel (trimLogs st) = outputChannel st.
Proof.
  intros calls st m.
  assert (H : shown_part (ingest_all host calls (with_maxLogEntries m st))
              = shown_part (ingest_all host calls st)).
  { by apply shown_part_ingest_all. }
  injection H as H1 H2 H3 H4 H5.
  split; [done|]. split; [done|]. split; [done|].
  unfold trimLogs. by destruct (_ <=? _).
Qed.

End ExtensionFacts.

(** ** The transport server *)

Section SessionFacts.
Import Extension.

(** *** The ids of the sessions *)

Lemma updateStatusBar_frame s :
  server (updateStatusBar s) = server s
  /\ serverHost (updateStatusBar s) = serverHost s
  /\ serverPort (updateStatusBar s) = serverPort s
  /\ clients (updateStatusBar s) = clients s
  /\ clientSeq (updateStatusBar s) = clientSeq s.
Proof. unfold updateStatusBar. by destruct (statusBar s). Qed.

Lemma server_step_clientSeq ev s :
  clientSeq (server_step ev s)
  = match ev with
    | ClientConnects _ _ => clientSeq s + 1
    | _ => clientSeq s
    end.
Proof.
  destruct ev as [host port listens| | |socket remote|clientId|clientId|clientId client];
    simpl.
  - unfold startServer. destruct (server s);
      by rewrite (proj2 (proj2 (proj2 (proj2 (updateStatusBar_frame _))))).
  - unfold stopServer. destruct (negb (server s));
      by rewrite (proj2 (proj2 (proj2 (proj2 (updateStatusBar_frame _))))).
  - unfold stopServer. destruct (negb (server s));
      by rewrite (proj2 (proj2 (proj2 (proj2 (updateStatusBar_frame _))))).
  - by rewrite (proj2 (proj2 (proj2 (proj2 (updateStatusBar_frame _))))).
  - unfold on_client_gone.
    by rewrite (proj2 (proj2 (proj2 (proj2 (updateStatusBar_frame _))))).
  - unfold on_client_gone.
    by rewrite (proj2 (proj2 (proj2 (proj2 (updateStatusBar_frame _))))).
  - unfold on_hello. by destruct (clients s !! clientId).
Qed.

Lemma server_step_clients ev s id :
  is_Some (clients (server_step ev s) !! id) ->
  is_Some (clients s !! id) \/ id = clientSeq (server_step ev s).
Proof.
  destruct ev as [host port listens| | |socket remote|clientId|clientId|clientId client];
    simpl.
  - unfold startServer. destruct (server s);
      rewrite (proj1 (proj2 (proj2 (proj2 (updateStatusBar_frame _))))); by left.
  - unfold stopServer. destruct (negb (server s));
      rewrite (proj1 (proj2 (proj2 (proj2 (updateStatusBar_frame _))))); simpl;
      [by left|]. rewrite lookup_empty. by intros [? ?].
  - unfold stopServer. destruct (negb (server s));
      rewrite (proj1 (proj2 (proj2 (proj2 (updateStatusBar_frame _))))); simpl;
      [by left|]. rewrite lookup_empty. by intros [? ?].
  - rewrite (proj1 (proj2 (proj2 (proj2 (updateStatusBar_frame _))))),
      (proj2 (proj2 (proj2 (proj2 (updateStatusBar_frame _))))). simpl.
    destruct (decide (clientSeq s + 1 = id)) as [<-|Hne]; [by right|].
    rewrite lookup_insert_ne by done. by left.
  - unfold on_client_gone.
    rewrite (proj1 (proj2 (proj2 (proj2 (updateStatusBar_frame _))))). simpl.
    destruct (decide (clientId = id)) as [<-|Hne].
    + rewrite lookup_delete_eq. by intros [? ?].
    + rewrite lookup_delete_ne by done. by left.
  - unfold on_client_gone.
    rewrite (proj1 (proj2 (proj2 (proj2 (updateStatusBar_frame _))))). simpl.
    destruct (decide (clientId = id)) as [<-|Hne].
    + rewrite lookup_delete_eq. by intros [? ?].
    + rewrite lookup_delete_ne by done. by left.
  - unfold on_hello. destruct (clients s !! clientId) as [session|] eqn:E; [|by left].
    simpl. destruct (decide (clientId = id)) as [<-|Hne].
    + rewrite E. by left.
    + rewrite lookup_insert_ne by done. by left.
Qed.

Lemma server_run_ids evs :
  forall s,
    StronglySorted Z.lt (snd (server_run evs s))
    /\ Forall (fun i => clientSeq s < i) (snd (server_run evs s))
    /\ clientSeq s <= clientSeq (fst (server_run evs s))
    /\ ((forall id, is_Some (clients s !! id) -> id <= clientSeq s) ->
        forall id, is_Some (clients (fst (server_run evs s)) !! id) ->
                   id <= clientSeq (fst (server_run evs s))).
Proof.
  induction evs as [|ev evs IH]; intros s.
  - simpl. split; [constructor|]. split; [constructor|]. split; [lia|]. auto.
  - cbn [server_run].
    destruct (IH (server_step ev s)) as (Hs & Hf & Hle & Hdom).
    destruct (server_run evs (server_step ev s)) as [s2 ids] eqn:E.
    cbn [fst snd] in *.
    pose proof (server_step_clientSeq ev s) as Hseq.
    assert (Hstep : clientSeq s <= clientSeq (server_step ev s)).
    { rewrite Hseq. destruct ev; lia. }
    assert (Hids : Forall (fun i => clientSeq s < i) ids).
    { eapply Forall_impl; [exact Hf|]. intros i Hi. simpl in Hi. lia. }
    split; [|split; [|split]].
    + destruct ev; try exact Hs.
      cbn [app]. constructor; [exact Hs|]. eapply Forall_impl; [exact Hf|].
      intros i Hi. cbn beta in Hi. rewrite Hseq in Hi. exact Hi.
    + destruct ev; try exact Hids. cbn [app]. constructor; [simpl; lia|exact Hids].
    + lia.
    + intros Hs0. apply Hdom. intros id Hid.
      apply server_step_clients in Hid as [Hid| ->]; [specialize (Hs0 id Hid); lia|lia].
Qed.

(** A client id is never given twice. Along any sequence of commands and
    events, the ids that the server gives to its connections are strictly
    increasing, all above the counter it started with; stopping and
    restarting the server does not reset the counter, so a listener of an
    old connection that fires late can never remove a newer session. If
    no session had an id above the counter before, none has after. *)
Theorem client_ids_are_never_reused :
  forall evs s,
    StronglySorted Z.lt (snd (server_run evs s))
    /\ NoDup (snd (server_run evs s))
    /\ Forall (fun i => clientSeq s < i) (snd (server_run evs s))
    /\ clientSeq (stopServer s) = clientSeq s
    /\ (forall host port listens,
          clientSeq (startServer host port listens s) = clientSeq s)
    /\ ((forall id, is_Some (clients s !! id) -> id <= clientSeq s) ->
        forall id, is_Some (clients (fst (server_run evs s)) !! id) ->
                   id <= clientSeq (fst (server_run evs s))).
Proof.
  intros evs s. destruct (server_run_ids evs s) as (Hs & Hf & _ & Hdom).
  split; [exact Hs|]. split; [|split; [exact Hf|split; [|split; [|exact Hdom]]]].
  - clear Hf Hdom. induction Hs as [|x l Hs IH Hx]; constructor; [|done].
    intros Hin. rewrite Forall_forall in Hx. specialize (Hx x Hin). lia.
  - exact (server_step_clientSeq CallStopServer s).
  - intros host port listens. exact (server_step_clientSeq (CallStartServer host port listens) s).
Qed.

(** *** The status bar *)

Lemma updateStatusBar_current s :
  is_Some (statusBar s) -> statusBar (updateStatusBar s) = Some (status_of (updateStatusBar s)).
Proof.
  intros [b Hb]. unfold updateStatusBar. rewrite Hb. reflexivity.
Qed.

Lemma updateStatusBar_is_Some s :
  is_Some (statusBar s) -> is_Some (statusBar (updateStatusBar s)).
Proof. intros [b Hb]. unfold updateStatusBar. rewrite Hb. by eexists. Qed.

(** The status bar is never stale. Once the status bar item exists, every
    command and every event of the server or of a client socket leaves it
    showing the state as it then is: stopped, or the address the server
    listens on with the number of sessions. A [hello] message changes
    neither. After [stopServer], or an error of the server, no session is
    left and the bar shows that the server is stopped; [startServer] on a
    running server changes nothing else. *)
Theorem status_bar_is_current :
  (forall ev s,
      is_Some (statusBar s) ->
      (match ev with ClientHello _ _ => statusBar s = Some (status_of s) | _ => True end) ->
      statusBar (server_step ev s) = Some (status_of (server_step ev s)))
  /\ (forall s,
        is_Some (statusBar s) ->
        server (stopServer s) = false
        /\ (server s = true -> clients (stopServer s) = ∅)
        /\ statusBar (stopServer s)
           = Some {| sb_text := "$(debug-console) Console Samurai: stopped";
                     sb_tooltip := "Console Samurai server is stopped" |})
  /\ (forall host port listens s,
        server s = true ->
        server (startServer host port listens s) = true
        /\ serverHost (startServer host port listens s) = serverHost s
        /\ serverPort (startServer host port listens s) = serverPort s
        /\ clients (startServer host port listens s) = clients s)
  /\ (forall host port s,
        server s = false ->
        server (startServer host port true s) = true
        /\ serverHost (startServer host port true s) = host
        /\ serverPort (startServer host port true s) = port
        /\ server (startServer host port false s) = false)
  /\ (forall ev s,
        (server s = false -> clients s = ∅) ->
        (match ev with ClientConnects _ _ => server s = true | _ => True end) ->
        server (server_step ev s) = false -> clients (server_step ev s) = ∅).
Proof.
  split; [|split; [|split; [|split]]].
  - intros ev s Hbar Hhello.
    destruct ev as [host port listens| | |socket remote|clientId|clientId|clientId client];
      simpl.
    + unfold startServer. destruct (server s); by apply updateStatusBar_current.
    + unfold stopServer. destruct (negb (server s)); by apply updateStatusBar_current.
    + unfold stopServer. destruct (negb (server s)); by apply updateStatusBar_current.
    + by apply updateStatusBar_current.
    + unfold on_client_gone. by apply updateStatusBar_current.
    + unfold on_client_gone. by apply updateStatusBar_current.
    + unfold on_hello. destruct (clients s !! clientId) as [session|] eqn:E; [|done].
      simpl. rewrite Hhello. f_equal. unfold status_of. simpl.
      destruct (server s); [|done]. do 4 f_equal.
      rewrite map_size_insert_Some; [done|]. by rewrite E.
  - intros s [b Hb]. unfold stopServer, updateStatusBar.
    destruct (server s) eqn:Hs; simpl; rewrite Hb; simpl.
    + done.
    + split; [done|]. split; [done|]. unfold status_of. by rewrite Hs.
  - intros host port listens s Hs. unfold startServer. rewrite Hs.
    destruct (updateStatusBar_frame s) as (-> & -> & -> & -> & _). done.
  - intros host port s Hs. unfold startServer. rewrite Hs.
    repeat split; by rewrite ?(proj1 (updateStatusBar_frame _)),
                       ?(proj1 (proj2 (updateStatusBar_frame _))),
                       ?(proj1 (proj2 (proj2 (updateStatusBar_frame _)))).
  - intros ev s Hinv Hconn.
    destruct ev as [host port listens| | |socket remote|clientId|clientId|clientId client];
      simpl.
    + unfold startServer. destruct (server s) eqn:Hs.
      * destruct (updateStatusBar_frame s) as (-> & _). by rewrite Hs.
      * rewrite (proj1 (proj2 (proj2 (proj2 (updateStatusBar_frame _))))). simpl. auto.
    + unfold stopServer. destruct (server s) eqn:Hs; simpl;
        rewrite (proj1 (proj2 (proj2 (proj2 (updateStatusBar_frame _))))); simpl; auto.
    + unfold stopServer. destruct (server s) eqn:Hs; simpl;
        rewrite (proj1 (proj2 (proj2 (proj2 (updateStatusBar_frame _))))); simpl; auto.
    + rewrite (proj1 (updateStatusBar_frame _)). simpl. by rewrite Hconn.
    + unfold on_client_gone.
      rewrite (proj1 (updateStatusBar_frame _)),
        (proj1 (proj2 (proj2 (proj2 (updateStatusBar_frame _))))). simpl.
      intros Hs. rewrite (Hinv Hs). apply delete_empty.
    + unfold on_client_gone.
      rewrite (proj1 (updateStatusBar_frame _)),
        (proj1 (proj2 (proj2 (proj2 (updateStatusBar_frame _))))). simpl.
      intros Hs. rewrite (Hinv Hs). apply delete_empty.
    + unfold on_hello. destruct (clients s !! clientId) as [session|] eqn:E; [|done].
      simpl. intros Hs. rewrite (Hinv Hs) in E. by rewrite lookup_empty in E.
Qed.

(** *** The metadata of a session *)


(** *** Configuration sent to the clients *)

(** The settings of the host reach the client. When the client handles
    the [config] message that [sendConfigToClient] sends, its
    [networkEnabled], [captureErrors] and [logCaptureOptions] become those
    of the host and its other settings stay as they were; capture then
    uses the host's limits (the defaults if the host sends [null]), and
    with the network switched off the wrapped [fetch] is the original.
    Nothing is sent on a socket that is not open. [broadcastConfig] sends
    that message once to the socket of every session whose socket is
    open, and to no other. [toggleNetwork] flips the one setting, and
    twice restores it. *)
Theorem config_reaches_the_clients :
  forall settings,
    (forall id rt,
        let c := Client.config (Client.rstate rt) in
        let c' := Client.config (Client.rstate
                     (Client.on_message id (sendConfigToClient settings true) rt)) in
        Client.networkEnabled c' = cs_networkEnabled settings
        /\ Client.captureErrors c' = cs_captureErrors settings
        /\ Client.logCaptureOptions c' = cs_logCaptureOptions settings
        /\ Client.host c' = Client.host c
        /\ Client.port c' = Client.port c
        /\ Client.autoStart c' = Client.autoStart c
        /\ Client.captureConsole c' = Client.captureConsole c
        /\ Client.capture_options
             (Client.on_message id (sendConfigToClient settings true) rt)
           = default Serializer.DEFAULTS_logCaptureOptions (cs_logCaptureOptions settings)
        /\ (cs_networkEnabled settings = false ->
            forall originalFetch input init,
              Client.patched_fetch originalFetch input init
                (Client.on_message id (sendConfigToClient settings true) rt)
              = originalFetch input init
                  (Client.on_message id (sendConfigToClient settings true) rt))
        /\ Client.on_message id (sendConfigToClient settings false) rt = rt)
    /\ (forall is_open s socket message,
          (socket, message) ∈ broadcastConfig settings is_open s
          <-> message = config_message settings
              /\ is_open socket = true
              /\ exists id session,
                  clients s !! id = Some session /\ ss_socket session = socket)
    /\ (forall is_open s,
          length (broadcastConfig settings is_open s)
          = length (List.filter (fun p => is_open (ss_socket p.2)) (map_to_list (clients s))))
    /\ toggleNetwork (toggleNetwork settings) = settings
    /\ cs_networkEnabled (toggleNetwork settings) = negb (cs_networkEnabled settings)
    /\ cs_captureErrors (toggleNetwork settings) = cs_captureErrors settings
    /\ cs_logCaptureOptions (toggleNetwork settings) = cs_logCaptureOptions settings.
Proof.
  intros settings. split; [|split; [|split; [|split; [|split; [|split]]]]].
  - intros id rt c c'. unfold c', c. simpl.
    repeat (split; [reflexivity|]). split; [|reflexivity].
    intros Hoff originalFetch input init. unfold Client.patched_fetch. simpl.
    by rewrite Hoff.
  - intros is_open s socket message. unfold broadcastConfig.
    rewrite list_elem_of_omap. split.
    + intros ([id session] & Hin & Hsome).
      apply elem_of_map_to_list in Hin. unfold sendConfigToClient in Hsome.
      destruct (is_open (ss_socket session)) eqn:Ho; simpl in Hsome; [|done].
      injection Hsome as <- <-. split; [done|]. split; [done|]. by exists id, session.
    + intros (-> & Ho & id & session & Hs & <-).
      exists (id, session). split; [by apply elem_of_map_to_list|].
      unfold sendConfigToClient. by rewrite Ho.
  - intros is_open s. unfold broadcastConfig.
    induction (map_to_list (clients s)) as [|[id session] l IH]; [done|].
    cbn [omap list_omap List.filter snd]. unfold sendConfigToClient at 1.
    destruct (is_open (ss_socket session)); cbn [fmap option_fmap option_map length];
      by rewrite IH.
  - by destruct settings as [[] ? ?].
  - done.
  - done.
  - done.
Qed.

End SessionFacts.

(** ** From the capture point to the store *)

Section WireFacts.

Variable raw_json : Serializer.Value -> option Extension.JsVal.

Lemma str_or_else_empty s : Extension.str_or_else (Some s) "" = s.
Proof.
  unfold Extension.str_or_else. simpl. destruct (String.eqb s "") eqn:E; [|done].
  apply String.eqb_eq in E. by subst s.
Qed.

Lemma str_or_else_present s dflt :
  s <> "" -> Extension.str_or_else (Some s) dflt = s.
Proof.
  intros Hs. unfold Extension.str_or_else. simpl.
  destruct (String.eqb s "") eqn:E; [|done]. apply String.eqb_eq in E. done.
Qed.

(** What the host stores for a payload whose level is one of [LEVELS] and
    whose kind is not empty. *)
Lemma make_entry_of_log_message l clientId now newId :
  Client.p_level l ∈ Extension.LEVELS -> Client.p_kind l <> "" ->
  let e := Extension.make_entry (Wire.log_message raw_json l) clientId now newId in
  Extension.level e = Client.p_level l
  /\ Extension.kind e = Client.p_kind l
  /\ Extension.text e = Client.p_text l
  /\ Extension.timestamp e = Client.p_timestamp l
  /\ Extension.values e
     = default [] (List.map (Wire.to_json raw_json) <$> Client.p_values l)
  /\ Extension.stack e = Extension.str_or_null (Client.p_stack l)
  /\ Extension.file e = Extension.str_or_null (Client.p_file l)
  /\ Extension.line e = Extension.num_or_null (Client.p_line l)
  /\ Extension.column e = Extension.num_or_null (Client.p_column l)
  /\ Extension.url e = Extension.str_or_null (Client.p_url l)
  /\ Extension.method e = Extension.str_or_null (Client.p_method l)
  /\ Extension.status e = Extension.status_or_null (Client.p_status l)
  /\ Extension.durationMs e = Extension.num_or_null (Client.p_durationMs l)
  /\ Extension.label e = Extension.str_or_null (Client.p_label l)
  /\ Extension.source e = Extension.str_or_null (Some (Client.p_source l)).
Proof.
  intros Hlevel Hkind e. unfold e, Extension.make_entry, Wire.log_message. simpl.
  assert (Hne : Client.p_level l <> "").
  { intros He. rewrite He in Hlevel. unfold Extension.LEVELS in Hlevel.
    repeat (apply elem_of_cons in Hlevel as [Hlevel|Hlevel]; [discriminate|]).
    by apply elem_of_nil in Hlevel. }
  rewrite (str_or_else_present _ _ Hne), (str_or_else_present _ _ Hkind), str_or_else_empty.
  unfold Extension.sanitizeLevel. rewrite bool_decide_eq_true_2 by done. done.
Qed.

(** Events arrive as they were captured. The level that a capture point
    gives an event is one of the levels the host knows, so the host never
    replaces it by ["log"]: a call of [console.warn] is stored with level
    and kind [warn], a timer with [time], a request with [network]. The
    text, the time, the serialized values (as JSON) and the source are
    stored as sent; location, URL, method, status, duration and label are
    stored as sent unless they are empty or zero, which the host stores
    as [null]. The event of a console call is the one built from the
    values that [serializeValues] returns for its arguments, when it
    returns. *)
Theorem events_arrive_as_captured :
  (forall browser newErrorStack captureStack extractLocation formatPreview
          method args values rt clientId now newId,
      method ∈ Client.methods ->
      Serializer.serializeValues (Client.heap rt) browser (Client.capture_options rt) args
      = Serializer.Returned values ->
      exists l,
        Client.console_payload browser newErrorStack captureStack extractLocation
          formatPreview method args values rt = Client.PLog l
        /\ let e := Extension.make_entry (Wire.log_message raw_json l) clientId now newId in
           Extension.level e = method
           /\ Extension.kind e = method
           /\ Extension.text e = formatPreview (Client.heap rt) args
           /\ Extension.timestamp e = Client.clock rt
           /\ Extension.values e = List.map (Wire.to_json raw_json) values
           /\ Extension.file e = Extension.str_or_null (Client.p_file l)
           /\ Extension.line e = Extension.num_or_null (Client.p_line l)
           /\ Extension.source e = Some (if browser then "browser" else "node"))
  /\ (forall browser captureStack extractLocation durationText key start rt
             clientId now newId,
        key <> "" ->
        exists l,
          Client.timer_payload browser captureStack extractLocation durationText
            key start rt = Client.PLog l
          /\ let e := Extension.make_entry (Wire.log_message raw_json l) clientId now newId in
             Extension.level e = "time"
             /\ Extension.kind e = "time"
             /\ Extension.label e = Some key
             /\ Extension.durationMs e
                = Extension.num_or_null (Some (Client.clock rt - start))
             /\ Extension.timestamp e = Client.clock rt)
  /\ (forall durationText method url status d values rt clientId now newId,
        exists l,
          Client.network_payload durationText method url status d values rt = Client.PLog l
          /\ let e := Extension.make_entry (Wire.log_message raw_json l) clientId now newId in
             Extension.level e = "network"
             /\ Extension.kind e = "network"
             /\ Extension.url e = Extension.str_or_null (Some url)
             /\ Extension.method e = Extension.str_or_null (Some method)
             /\ Extension.status e = Extension.status_or_null (Some status)
             /\ Extension.durationMs e = Extension.num_or_null (Some d)
             /\ Extension.file e = None
             /\ Extension.source e = Some "browser")
  /\ (forall key, Client.timer_key key <> "").
Proof.
  split; [|split; [|split]].
  - intros browser newErrorStack captureStack extractLocation formatPreview
           method args values rt clientId now newId Hm _.
    eexists. split; [reflexivity|].
    set (l := {| Client.p_kind := _ |}).
    assert (Hlv : Client.p_level l = method /\ Client.p_kind l = method).
    { unfold l. simpl. destruct (String.eqb method "trace") eqn:E; [|done].
      apply String.eqb_eq in E. by subst method. }
    destruct Hlv as [Hlv Hk].
    assert (Hin : method ∈ Extension.LEVELS).
    { unfold Client.methods in Hm. unfold Extension.LEVELS.
      repeat (apply elem_of_cons in Hm as [->|Hm];
              [apply (bool_decide_unpack _); vm_compute; exact I|]).
      by apply elem_of_nil in Hm. }
    assert (Hne : method <> "").
    { intros ->. unfold Client.methods in Hm.
      repeat (apply elem_of_cons in Hm as [Hm|Hm]; [discriminate|]).
      by apply elem_of_nil in Hm. }
    destruct (make_entry_of_log_message l clientId now newId)
      as (H1 & H2 & H3 & H4 & H5 & _ & H7 & H8 & _ & _ & _ & _ & _ & _ & H15).
    { by rewrite Hlv. }
    { by rewrite Hk. }
    cbv zeta. rewrite H1, H2, H3, H4, H5, H7, H8, H15, Hlv, Hk.
    repeat (split; [reflexivity|]). unfold l. simpl. unfold Client.source_tag.
    by destruct browser.
  - intros browser captureStack extractLocation durationText key start rt
           clientId now newId Hkey.
    eexists. split; [reflexivity|].
    set (l := {| Client.p_kind := _ |}).
    destruct (make_entry_of_log_message l clientId now newId)
      as (H1 & H2 & _ & H4 & _ & _ & _ & _ & _ & _ & _ & _ & H13 & H14 & _).
    { unfold l. simpl. apply (bool_decide_unpack _). vm_compute. exact I. }
    { unfold l. simpl. discriminate. }
    cbv zeta. rewrite H1, H2, H4, H13, H14. unfold l. simpl.
    repeat (split; [reflexivity|]). split; [|done].
    destruct (String.eqb key "") eqn:E; [|done]. apply String.eqb_eq in E. done.
  - intros durationText method url status d values rt clientId now newId.
    eexists. split; [reflexivity|].
    set (l := {| Client.p_kind := _ |}).
    destruct (make_entry_of_log_message l clientId now newId)
      as (H1 & H2 & _ & _ & _ & _ & H7 & _ & _ & H10 & H11 & H12 & H13 & _ & H15).
    { unfold l. simpl. apply (bool_decide_unpack _). vm_compute. exact I. }
    { unfold l. simpl. discriminate. }
    cbv zeta. rewrite H1, H2, H7, H10, H11, H12, H13, H15. unfold l. simpl. done.
  - intros [s|]; simpl; [|discriminate]. unfold str_or.
    destruct (String.eqb s "") eqn:E; [discriminate|].
    intros ->. discriminate.
Qed.

End WireFacts.

(** ** Example runs of the host *)

Section ExtensionExamples.
Import Extension.

(** Three events into an empty store of capacity two. *)
Lemma log_store_is_bounded_witness :
  0 <= maxLogEntries (example_store 2)
  /\ Z.of_nat (length (logs (example_store 2))) <= maxLogEntries (example_store 2)
  /\ logs (ingest_all example_host
             [(log_payload "a" "/repo/src/x.js" 1, 1, 0);
              (log_payload "b" "/repo/src/x.js" 2, 1, 0);
              (log_payload "c" "/repo/src/x.js" 3, 1, 0)] (example_store 2))
     = [make_entry (log_payload "b" "/repo/src/x.js" 2) 1 0 (logSeq (example_store 2) + 2);
        make_entry (log_payload "c" "/repo/src/x.js" 3) 1 0 (logSeq (example_store 2) + 3)].
Proof.
  split; [simpl; lia|]. split; [simpl; lia|].
  destruct (log_store_is_bounded example_host
              [(log_payload "a" "/repo/src/x.js" 1, 1, 0);
               (log_payload "b" "/repo/src/x.js" 2, 1, 0);
               (log_payload "c" "/repo/src/x.js" 3, 1, 0)] (example_store 2))
    as (_ & _ & _ & _ & _ & Hthree); [simpl; lia|simpl; lia|].
  apply (Hthree (log_payload "a" "/repo/src/x.js" 1, 1, 0)
                (log_payload "b" "/repo/src/x.js" 2, 1, 0)
                (log_payload "c" "/repo/src/x.js" 3, 1, 0)); reflexivity.
Defined.

(** Two events on line 10 of [/repo/src/x.js], one reported by its
    absolute path and one relative to the workspace folder. *)
Lemma occurrence_count_per_line_witness :
  resolveEntryPath example_host (config (example_store 2)) first_event
  = Resolved "/repo/src/x.js"
  /\ resolveEntryPath example_host (config (example_store 2)) second_event
     = Resolved "/repo/src/x.js"
  /\ line_state
       (updateInlineForEntry example_host second_event
          (updateInlineForEntry example_host first_event (example_store 2)))
       (uri_file_toString example_host "/repo/src/x.js") (inline_line first_event)
     = Some {| ld_entry := second_event; ld_count := 2 |}.
Proof.
  split; [reflexivity|]. split; [reflexivity|].
  destruct (occurrence_count_per_line example_host first_event (example_store 2)
              "/repo/src/x.js" eq_refl) as (_ & _ & _ & _ & _ & _ & Htwice).
  destruct (Htwice second_event) as [Hstate _]; [reflexivity..|exact Hstate].
Defined.

(** The display text of the second of those events. *)
Example inline_text_of_second_event :
  formatInlineText example_host example_config second_event 2 = " second (+1)"
  /\ formatInlineText example_host example_config first_event 1 = " first".
Proof. split; vm_compute; reflexivity. Qed.

(** An event that reports line 0. *)
Lemma falsy_fields_are_normalized_witness :
  m_line (log_payload "zero" "/repo/src/x.js" 0) = Some 0
  /\ line (make_entry (log_payload "zero" "/repo/src/x.js" 0) 1 0 1) = None.
Proof.
  split; [reflexivity|].
  destruct (falsy_fields_are_normalized example_host
              (log_payload "zero" "/repo/src/x.js" 0) 1 0 1) as (Hline & _).
  apply Hline. reflexivity.
Defined.

(** C10 as stated fails for a kind the host does not know: a message of
    kind ["custom"] without a level is stored with level ["log"], not with
    its kind, which the entry keeps as its [kind]. *)
Lemma level_fallback_counterexample :
  m_level custom_payload = None
  /\ m_kind custom_payload = Some "custom"
  /\ level (make_entry custom_payload 1 0 1) = "log"
  /\ kind (make_entry custom_payload 1 0 1) = "custom".
Proof. repeat split. Qed.

(** An event whose timestamp [toISOString] cannot format, into an empty
    store of capacity two: it is stored, nothing is written to the output
    channel and no line is annotated. *)
Example out_of_range_timestamp :
  appendOutput example_host (make_entry late_payload 1 0 1) (example_store 2) = None
  /\ logs (addLogEntry example_host late_payload 1 0 (example_store 2))
     = [make_entry late_payload 1 0 1]
  /\ outputChannel (addLogEntry example_host late_payload 1 0 (example_store 2)) = []
  /\ lineStateByUri (addLogEntry example_host late_payload 1 0 (example_store 2)) = ∅.
Proof. repeat split. Qed.

(** With a capacity of zero an ingest leaves no entry in the store. *)
Example ids_without_capacity :
  run_ops example_host [Ingest (log_payload "a" "/repo/src/x.js" 1) 1 0] (example_store 0)
  = (addLogEntry example_host (log_payload "a" "/repo/src/x.js" 1) 1 0 (example_store 0), [])
  /\ logSeq (addLogEntry example_host (log_payload "a" "/repo/src/x.js" 1) 1 0
               (example_store 0)) = 1.
Proof. split; vm_compute; reflexivity. Qed.

(** Ingest, clear, ingest: the ids go on from where they were. *)
Example ids_across_a_clear :
  snd (run_ops example_host
         [Ingest (log_payload "a" "/repo/src/x.js" 1) 1 0;
          Ingest (log_payload "b" "/repo/src/x.js" 2) 1 0;
          Clear;
          Ingest (log_payload "c" "/repo/src/x.js" 3) 1 0] (example_store 2))
  = [1; 2; 3].
Proof. vm_compute. reflexivity. Qed.

(** Three events into an empty store of capacity two: the third is found
    by its id and opens at line 3 (zero-based 2), the first was trimmed. *)
Lemma entries_are_found_by_id_witness :
  ids_in_order (example_store 2)
  /\ openEntry example_host 3
       (fst (run_ops example_host
               [Ingest (log_payload "a" "/repo/src/x.js" 1) 1 0;
                Ingest (log_payload "b" "/repo/src/x.js" 2) 1 0;
                Ingest (log_payload "c" "/repo/src/x.js" 3) 1 0] (example_store 2)))
     = OpenAt "file:///repo/src/x.js" 2 0
  /\ openEntry example_host 1
       (fst (run_ops example_host
               [Ingest (log_payload "a" "/repo/src/x.js" 1) 1 0;
                Ingest (log_payload "b" "/repo/src/x.js" 2) 1 0;
                Ingest (log_payload "c" "/repo/src/x.js" 3) 1 0] (example_store 2)))
     = NoSuchEntry.
Proof.
  assert (Hstart : ids_in_order (example_store 2)) by (split; constructor).
  split; [exact Hstart|].
  destruct (entries_are_found_by_id example_host
              [Ingest (log_payload "a" "/repo/src/x.js" 1) 1 0;
               Ingest (log_payload "b" "/repo/src/x.js" 2) 1 0;
               Ingest (log_payload "c" "/repo/src/x.js" 3) 1 0] (example_store 2) Hstart)
    as (_ & _ & Hfound & Hother).
  split.
  - destruct (Hfound (make_entry (log_payload "c" "/repo/src/x.js" 3) 1 0 3)) as [_ Hopen].
    + apply elem_of_cons. right. apply elem_of_cons. left. reflexivity.
    + exact Hopen.
  - apply Hother. intros e He.
    apply elem_of_cons in He as [->|He]; [discriminate|].
    apply elem_of_cons in He as [->|He]; [discriminate|].
    by apply elem_of_nil in He.
Defined.


(** A store of capacity zero keeps no entry and still annotates the line
    with both events. *)
Example annotations_without_entries :
  logs (ingest_all example_host
          [(log_payload "first" "/repo/src/x.js" 10, 1, 0);
           (log_payload "second" "src/x.js" 10, 1, 0)] (example_store 0)) = []
  /\ occurrenceCount
       (ingest_all example_host
          [(log_payload "first" "/repo/src/x.js" 10, 1, 0);
           (log_payload "second" "src/x.js" 10, 1, 0)] (example_store 0))
       "file:///repo/src/x.js" 9 = 2.
Proof. split; vm_compute; reflexivity. Qed.

End ExtensionExamples.
